(** * Compound-interest calculator: the simulation engine and the comparison
      coordinator of [src/components/compound-interest-calculator.tsx].

    The TypeScript component computes a yearly series with
    [calculateCompoundInterest] and keeps two scenarios side by side in React
    state.  This development embeds

    - the arithmetic of JavaScript numbers as an interface [Number] with two
      instances: [Binary64.number_double] (IEEE-754 doubles, what the browser
      runs, on Rocq's primitive floats) and [Rational.number_exact] (exact
      rationals, the "reals" of the specification);
    - the [for] loop of [calculateCompoundInterest] with its own guard
      [year <= years], a [Function] whose measure is the distance from
      [year] to [years];
    - the component state and its handlers as functions on a record;
    - [chartData] and [getXAxisTicks] with [Array.from] and optional chaining
      written out;
    - the handlers of the form and the events of the component, each followed
      by the effect that recomputes the results when one of its dependencies
      has changed ([step], [run]); the built-in [parseFloat] is a parameter;
    - [formatYAxisTick] with [Number.prototype.toFixed] written out on
      doubles; the built-in [Number::toString] is a parameter.

    [years] and the loop counter are integer-valued, they are modelled in [Z]. *)

From Stdlib Require Import Ascii DecimalString ZArith QArith Qabs Qround Lqa Qpower Qfield
  Floats List String Bool Lia Recdef.
Import ListNotations.

Local Open Scope Z_scope.

(** ** JavaScript numbers *)

(** The operations the component uses on values of type [number]:
    integer literals, [+ - * /], [<=], [Number(x.toFixed(2))] and the
    truthiness test behind [||]. *)
Class Number (num : Type) : Type := {
  number_of_Z : Z -> num;
  number_add : num -> num -> num;
  number_sub : num -> num -> num;
  number_mul : num -> num -> num;
  number_div : num -> num -> num;
  number_leb : num -> num -> bool;
  toFixed2 : num -> num;
  toBoolean : num -> bool
}.

Declare Scope number_scope.
Delimit Scope number_scope with num.
Notation "x + y" := (number_add x y) : number_scope.
Notation "x - y" := (number_sub x y) : number_scope.
Notation "x * y" := (number_mul x y) : number_scope.
Notation "x / y" := (number_div x y) : number_scope.
Notation "x <=? y" := (number_leb x y) : number_scope.

(** *** IEEE-754 binary64, the numbers of the running program *)

Module Binary64.

Definition of_Z (z : Z) : float :=
  SF2Prim (binary_normalize prec emax z 0 false).

(** [10^21 <= m * 2^e]: from there on [toFixed] prints like [toString]. *)
Definition at_least_1e21 (m : positive) (e : Z) : bool :=
  match e with
  | Zneg k => 10 ^ 21 * 2 ^ Zpos k <=? Zpos m
  | _ => 10 ^ 21 <=? Zpos m * 2 ^ e
  end.

(** The integer [n] for which [n / 100] is nearest to [m * 2^e], the larger
    one when two are equally near (step 9 of [Number.prototype.toFixed]). *)
Definition nearest_hundredths (m : positive) (e : Z) : Z :=
  match e with
  | Zneg k => (200 * Zpos m + 2 ^ Zpos k) / (2 * 2 ^ Zpos k)
  | _ => 100 * (Zpos m * 2 ^ e)
  end.

(** [Number(s)] for the decimal string [s] of [(-1)^sign * n / 100]:
    the nearest double, ties to even. *)
Definition parse_hundredths (sign : bool) (n : Z) : float :=
  match n with
  | Zpos n' =>
      SF2Prim (SFdiv prec emax (S754_finite sign n' 0) (S754_finite false 100 0))
  | _ => if sign then neg_zero else zero
  end.

(** [Number(x.toFixed(2))]. *)
Definition toFixed2_double (x : float) : float :=
  match Prim2SF x with
  | S754_finite sign m e =>
      if at_least_1e21 m e then x
      else parse_hundredths sign (nearest_hundredths m e)
  | S754_zero _ => zero
  | S754_infinity _ | S754_nan => x
  end.

(** [0], [-0] and [NaN] are the falsy numbers. *)
Definition toBoolean_double (x : float) : bool :=
  negb (is_nan x || is_zero x).

#[global] Instance number_double : Number float := {|
  number_of_Z := of_Z;
  number_add := PrimFloat.add;
  number_sub := PrimFloat.sub;
  number_mul := PrimFloat.mul;
  number_div := PrimFloat.div;
  number_leb := PrimFloat.leb;
  toFixed2 := toFixed2_double;
  toBoolean := toBoolean_double
|}.

End Binary64.

(** *** Exact rationals, the reals of the specification *)

Module Rational.

(** The integer [n] for which [n / 100] is nearest to [q], the one further
    from 0 when two are equally near ([toFixed] rounds the absolute value and
    puts the sign back). *)
Definition nearest_hundredths (q : Q) : Z :=
  let n := Qfloor (Qabs q * 100 + (1 # 2)) in
  if Qle_bool 0 q then n else - n.

(** [Number(q.toFixed(2))].  Like every operation below it returns a reduced
    fraction, so that equal numbers are equal terms. *)
Definition toFixed2_exact (q : Q) : Q :=
  Qred (nearest_hundredths q # 100).

#[global] Instance number_exact : Number Q := {|
  number_of_Z := inject_Z;
  number_add := fun x y => Qred (x + y);
  number_sub := fun x y => Qred (x - y);
  number_mul := fun x y => Qred (x * y);
  number_div := fun x y => Qred (x / y);
  number_leb := Qle_bool;
  toFixed2 := toFixed2_exact;
  toBoolean := fun x => negb (Qeq_bool x 0)
|}.

End Rational.

(** ** The [for] loop *)

Section LoopDefinition.

Context {S : Type}.

(** [for (let year = from; year <= years; year++) st = body(year, st)]: the
    guard is tested before every iteration; the distance from [year] to
    [years + 1] decreases. *)
Function for_loop (years : Z) (body : Z -> S -> S) (year : Z) (st : S)
  {measure (fun year => Z.to_nat (years + 1 - year)) year} : S :=
  if Z_le_gt_dec year years
  then for_loop years body (year + 1) (body year st)
  else st.
Proof. intros. lia. Defined.

End LoopDefinition.

(** ** The simulation engine *)

Section Calculator.

Context {num : Type} `{Number num}.
Local Open Scope number_scope.

Record CalculationParams : Type := {
  startingAmount : num;
  rateOfReturn : num;
  incrementalAddition : num;
  incrementalFrequency : string;
  years : Z
}.

Record CalculationResult : Type := {
  year : Z;
  totalValue : num;
  invested : num;
  gained : num
}.

Definition frequencyMultiplier (incrementalFrequency : string) : num :=
  if String.eqb incrementalFrequency "monthly" then number_of_Z 12
  else if String.eqb incrementalFrequency "quarterly" then number_of_Z 4
  else number_of_Z 1.

(** The variables the loop of [calculateCompoundInterest] updates. *)
Record Loop : Type := {
  currentValue : num;
  totalInvested : num;
  results : list CalculationResult
}.

Definition loop_body (p : CalculationParams) (year : Z) (st : Loop) : Loop :=
  let currentValue :=
    currentValue st * (number_of_Z 1 + rateOfReturn p / number_of_Z 100) in
  let currentValue :=
    currentValue + incrementalAddition p * frequencyMultiplier (incrementalFrequency p) in
  let totalInvested :=
    totalInvested st + incrementalAddition p * frequencyMultiplier (incrementalFrequency p) in
  {| currentValue := currentValue;
     totalInvested := totalInvested;
     results := results st ++
       [ {| year := year;
            totalValue := toFixed2 currentValue;
            invested := toFixed2 totalInvested;
            gained := toFixed2 (currentValue - totalInvested) |} ] |}.

Definition loop_init (p : CalculationParams) : Loop :=
  {| currentValue := startingAmount p;
     totalInvested := startingAmount p;
     results := [] |}.

Definition calculateCompoundInterest (p : CalculationParams) : list CalculationResult :=
  results (for_loop (years p) (loop_body p) 1 (loop_init p)).

(** The loop variables once the loop has run for the years [1 .. y]. *)
Definition loop_after (p : CalculationParams) (y : Z) : Loop :=
  for_loop y (loop_body p) 1 (loop_init p).

(** The amount paid in during one year. *)
Definition yearly_addition (p : CalculationParams) : num :=
  incrementalAddition p * frequencyMultiplier (incrementalFrequency p).

(** The record pushed at the end of year [y]. *)
Definition entry (p : CalculationParams) (y : Z) : CalculationResult :=
  {| year := y;
     totalValue := toFixed2 (currentValue (loop_after p y));
     invested := toFixed2 (totalInvested (loop_after p y));
     gained := toFixed2 (currentValue (loop_after p y) - totalInvested (loop_after p y)) |}.

(** [{ ...p, incrementalFrequency: f }]. *)
Definition with_frequency (p : CalculationParams) (f : string) : CalculationParams :=
  {| startingAmount := startingAmount p;
     rateOfReturn := rateOfReturn p;
     incrementalAddition := incrementalAddition p;
     incrementalFrequency := f;
     years := years p |}.

(** The parameters a caller is meant to pass (section 3 of the
    specification): a non-negative principal, at least one year, one of the
    three frequencies. *)
Definition valid_params (p : CalculationParams) : Prop :=
  (number_of_Z 0 <=? startingAmount p) = true /\
  1 <= years p /\
  (incrementalFrequency p = "monthly"%string \/
   incrementalFrequency p = "quarterly"%string \/
   incrementalFrequency p = "yearly"%string).

(** *** Round-and-carry, as section 4.1 (d) of the specification reads

    The same loop, except that the balance kept for the next year is the
    rounded one.  It is here to be compared with [loop_body]. *)
Definition round_and_carry_body (p : CalculationParams) (year : Z) (st : Loop) : Loop :=
  let st' := loop_body p year st in
  {| currentValue := toFixed2 (currentValue st');
     totalInvested := totalInvested st';
     results := results st' |}.

Definition simulate_round_and_carry (p : CalculationParams) : list CalculationResult :=
  results (for_loop (years p) (round_and_carry_body p) 1 (loop_init p)).

(** ** The comparison coordinator *)

(** The [useState] cells of [CompoundInterestCalculatorComponent]. *)
Record State : Type := {
  params1 : CalculationParams;
  params2 : option CalculationParams;
  results1 : list CalculationResult;
  results2 : list CalculationResult;
  selectedPoint : option CalculationResult;
  isComparing : bool
}.

Definition calculateResults (s : State) : State :=
  {| params1 := params1 s;
     params2 := params2 s;
     results1 := calculateCompoundInterest (params1 s);
     results2 :=
       match isComparing s, params2 s with
       | true, Some p2 => calculateCompoundInterest p2
       | _, _ => results2 s
       end;
     selectedPoint := selectedPoint s;
     isComparing := isComparing s |}.

Definition handleCompare (s : State) : State :=
  {| params1 := params1 s;
     params2 := Some (params1 s);
     results1 := results1 s;
     results2 := results2 s;
     selectedPoint := selectedPoint s;
     isComparing := true |}.

Definition handleRemoveComparison (s : State) : State :=
  {| params1 := params1 s;
     params2 := None;
     results1 := results1 s;
     results2 := [];
     selectedPoint := selectedPoint s;
     isComparing := false |}.

Definition handlePointClick (payload : CalculationResult) (s : State) : State :=
  {| params1 := params1 s;
     params2 := params2 s;
     results1 := results1 s;
     results2 := results2 s;
     selectedPoint := Some payload;
     isComparing := isComparing s |}.

(** [Array.from({ length }, (_, i) => f(i))]; a negative length counts as 0. *)
Definition Array_from {A : Type} (len : Z) (f : Z -> A) : list A :=
  map (fun i => f (Z.of_nat i)) (seq 0 (Z.to_nat len)).

(** [a[i]?.totalValue]: [None] stands for [undefined]. *)
Definition totalValue_at (a : list CalculationResult) (i : Z) : option num :=
  if i <? 0 then None else option_map totalValue (nth_error a (Z.to_nat i)).

(** [v || null] on an optional number: a falsy number gives [null] too. *)
Definition or_null (v : option num) : option num :=
  match v with
  | Some x => if toBoolean x then Some x else None
  | None => None
  end.

(** [v || 0] on an optional count of years. *)
Definition or_zero (v : option Z) : Z :=
  match v with
  | Some y => if y =? 0 then 0 else y
  | None => 0
  end.

(** An entry of the joint series; [chart_year] is its field [year]. *)
Record ChartEntry : Type := {
  chart_year : Z;
  totalValue1 : option num;
  totalValue2 : option num
}.

Definition chartData (s : State) : list ChartEntry :=
  let maxYears :=
    Z.max (Z.of_nat (List.length (results1 s))) (Z.of_nat (List.length (results2 s))) in
  Array_from maxYears (fun i =>
    {| chart_year := (i + 1)%Z;
       totalValue1 := or_null (totalValue_at (results1 s) i);
       totalValue2 := or_null (totalValue_at (results2 s) i) |}).

Definition getXAxisTicks (s : State) : list Z :=
  let maxYears := Z.max (years (params1 s)) (or_zero (option_map years (params2 s))) in
  Array_from (maxYears / 5 + 1) (fun i => (i * 5)%Z).

End Calculator.

Arguments CalculationParams num : clear implicits.
Arguments CalculationResult num : clear implicits.
Arguments Loop num : clear implicits.
Arguments State num : clear implicits.
Arguments ChartEntry num : clear implicits.

(** ** Order laws *)

(** What the order-dependent statements need of [<=]: it is transitive,
    adding a non-negative amount to a non-negative one does not decrease it,
    a non-negative addition times a frequency multiplier is non-negative, and
    rounding to two decimals is monotone on non-negative numbers.  Doubles
    satisfy them because rounding to nearest is monotone
    ([Binary64Order.number_order_double] below), and so do exact rationals
    ([RationalOrder.number_order]). *)
Class NumberOrder (num : Type) `{Number num} : Prop := {
  leb_trans : forall x y z : num,
    (x <=? y)%num = true -> (y <=? z)%num = true -> (x <=? z)%num = true;
  add_nonneg_increases : forall x c : num,
    (number_of_Z 0 <=? x)%num = true -> (number_of_Z 0 <=? c)%num = true ->
    (x <=? x + c)%num = true;
  multiplier_nonneg : forall (a : num) (f : string),
    (number_of_Z 0 <=? a)%num = true ->
    (number_of_Z 0 <=? a * frequencyMultiplier f)%num = true;
  toFixed2_monotone : forall x y : num,
    (number_of_Z 0 <=? x)%num = true -> (x <=? y)%num = true ->
    (toFixed2 x <=? toFixed2 y)%num = true
}.

(** ** Rounding of doubles

    The vocabulary of the proof that doubles satisfy the order laws.  A
    positive rational [N / D] is followed through [SpecFloat]'s
    [binary_round_aux], the rounding step shared by [+], [*] and [/]. *)

Module Rounding.

(** Exponents are counted from -1200, below every exponent met here: [grid e]
    is the weight of exponent [e] in units of [2^-1200]. *)
Definition grid (e : Z) : Z := 2 ^ (e + 1200).

(** [N / D] lies in [[m, m + 1)], at the position the round bit [r] and the
    sticky bit [s] tell. *)
Definition rep_bits (N D m : Z) (r s : bool) : Prop :=
  m * D <= N < (m + 1) * D /\
  (r = true <-> (2 * m + 1) * D <= 2 * N) /\
  (s = true <-> (N <> m * D /\ 2 * N <> (2 * m + 1) * D)).

Definition rep_rec (N D : Z) (mrs : shr_record) : Prop :=
  0 <= shr_m mrs /\ rep_bits N D (shr_m mrs) (shr_r mrs) (shr_s mrs).

(** The same position told by a location. *)
Definition rep_loc (N D m : Z) (l : location) : Prop :=
  0 <= m /\ m * D <= N < (m + 1) * D /\
  match l with
  | loc_Exact => N = m * D
  | loc_Inexact c => N <> m * D /\ (2 * N ?= (2 * m + 1) * D) = c
  end.

(** The integer nearest to [N / D], the even one on a tie. *)
Definition rne (N D : Z) : Z :=
  let t := N / D in
  match 2 * N ?= (2 * t + 1) * D with
  | Lt => t
  | Gt => t + 1
  | Eq => if Z.even t then t else t + 1
  end.

(** The non-negative float of mantissa [m] and exponent [e], infinite beyond
    the largest exponent. *)
Definition fin_or_inf (m e : Z) : spec_float :=
  match m with
  | Zpos p => if e <=? emax - prec then S754_finite false p e else S754_infinity false
  | _ => S754_zero false
  end.

(** The float of the rounded mantissa [m_r] at exponent [e1]: a mantissa that
    rounding carried to [2^53] moves to the next exponent. *)
Definition out (m_r e1 : Z) : spec_float :=
  if m_r =? 2 ^ 53 then fin_or_inf (2 ^ 52) (e1 + 1) else fin_or_inf m_r e1.

(** A mantissa below [2^53] that is normal, or at the least exponent. *)
Definition canonical (m e : Z) : Prop :=
  0 <= m < 2 ^ 53 /\ -1074 <= e /\ (2 ^ 52 <= m \/ e = -1074).

(** [m], [e], [l] describe the positive rational [N / D], in units of
    [2^-1200], precisely enough for [binary_round_aux]. *)
Record round_input (N D m e : Z) (l : location) : Prop := {
  ri_D : 0 < D;
  ri_m : 0 < m;
  ri_e : -1200 <= e;
  ri_pre : e <= fexp prec emax (Zdigits2 m + e);
  ri_rep : rep_loc N (grid e * D) m l
}.

(** The exponent-then-mantissa comparison of two finite floats of one sign. *)
Definition lex (e : Z) (p : positive) (e' : Z) (p' : positive) : comparison :=
  match Z.compare e e' with
  | Lt => Lt
  | Gt => Gt
  | Eq => Pos.compare_cont Eq p p'
  end.

(** The floats [0 <= x] holds of. *)
Definition nonneg (x : spec_float) : Prop :=
  match x with
  | S754_zero _ | S754_infinity false | S754_finite false _ _ => True
  | _ => False
  end.

(** [Binary64.toFixed2_double] on specifications of floats. *)
Definition toFixed2_spec (x : spec_float) : spec_float :=
  match x with
  | S754_finite sign m e =>
      if Binary64.at_least_1e21 m e then x
      else match Binary64.nearest_hundredths m e with
           | Zpos n => SFdiv prec emax (S754_finite sign n 0) (S754_finite false 100 0)
           | _ => S754_zero sign
           end
  | S754_zero _ => S754_zero false
  | S754_infinity _ | S754_nan => x
  end.

End Rounding.

(** ** Nearest doubles

    More of the same vocabulary, for what [+], [-], [*] and [/] do to
    non-negative doubles: each result is the double nearest to the exact
    result. *)

Module Nearest.

Import Rounding.

(** The value of a finite float without its sign, in units of [2^-1200]. *)
Definition weight (x : spec_float) : Z :=
  match x with
  | S754_finite _ p e => Zpos p * grid e
  | _ => 0
  end.

(** A valid float that is a zero or a positive finite number. *)
Definition finite_nonneg (x : spec_float) : Prop :=
  valid_binary x = true /\
  match x with
  | S754_zero _ | S754_finite false _ _ => True
  | _ => False
  end.

(** [m], [e], [l] describe the rational [N / D], in units of [2^-1200],
    precisely enough for [binary_round_aux]; unlike [round_input], the
    mantissa may be 0, when [N / D] is below the least positive double. *)
Definition nearest_input (N D m e : Z) (l : location) : Prop :=
  0 < D /\ 0 <= m /\ -1200 <= e /\
  e <= fexp prec emax (Zdigits2 m + e) /\
  rep_loc N (grid e * D) m l.

(** [r] is the double nearest to the non-negative rational [N / D], in units
    of [2^-1200]: a zero of either sign when [N] is 0, the result of
    [binary_round_aux] otherwise. *)
Definition rounded (N D : Z) (r : spec_float) : Prop :=
  (N = 0 /\ exists s, r = S754_zero s) \/
  (0 < N /\ exists m e l,
      nearest_input N D m e l /\ r = binary_round_aux prec emax false m e l).

(** The doubles 1 and 100, and the largest finite double. *)
Definition one : spec_float := S754_finite false 4503599627370496 (-52).

Definition hundred : spec_float := S754_finite false 7036874417766400 (-46).

Definition largest : spec_float := S754_finite false 9007199254740991 971.

(** [x] with the sign [s]. *)
Definition with_sign (s : bool) (x : spec_float) : spec_float :=
  match x with
  | S754_zero _ => S754_zero s
  | S754_infinity _ => S754_infinity s
  | S754_nan => S754_nan
  | S754_finite _ m e => S754_finite s m e
  end.

(** A zero or a finite number of either sign. *)
Definition finite_float (x : spec_float) : Prop :=
  match x with
  | S754_zero _ | S754_finite _ _ _ => True
  | _ => False
  end.

(** A zero of either sign. *)
Definition is_a_zero (x : spec_float) : Prop :=
  match x with
  | S754_zero _ => True
  | _ => False
  end.

End Nearest.

(** ** Scenarios used below *)

(** The scenario of section 8 of the specification, as doubles and as exact
    rationals. *)
Definition first_year_scenario : CalculationParams float :=
  {| startingAmount := 100%float;
     rateOfReturn := 10%float;
     incrementalAddition := 505.75%float;
     incrementalFrequency := "monthly";
     years := 1 |}.

Definition first_year_scenario_exact : CalculationParams Q :=
  {| startingAmount := 100%Q;
     rateOfReturn := 10%Q;
     incrementalAddition := 505.75%Q;
     incrementalFrequency := "monthly";
     years := 1 |}.

(** A quarter growing by half every year, for two years. *)
Definition quarter_at_fifty : CalculationParams float :=
  {| startingAmount := 0.25%float;
     rateOfReturn := 50%float;
     incrementalAddition := 0%float;
     incrementalFrequency := "yearly";
     years := 2 |}.

(** [64 + 1/256] doubling in one year. *)
Definition doubling_with_fraction : CalculationParams float :=
  {| startingAmount := 64.00390625%float;
     rateOfReturn := 100%float;
     incrementalAddition := 0%float;
     incrementalFrequency := "yearly";
     years := 1 |}.

(** A yearly withdrawal of 10. *)
Definition yearly_withdrawal : CalculationParams float :=
  {| startingAmount := 100%float;
     rateOfReturn := 10%float;
     incrementalAddition := (-10)%float;
     incrementalFrequency := "yearly";
     years := 2 |}.

(** A yearly saving of 10, as doubles and as exact rationals. *)
Definition yearly_saving : CalculationParams float :=
  {| startingAmount := 100%float;
     rateOfReturn := 10%float;
     incrementalAddition := 10%float;
     incrementalFrequency := "yearly";
     years := 2 |}.

Definition yearly_saving_exact : CalculationParams Q :=
  {| startingAmount := 100%Q;
     rateOfReturn := 10%Q;
     incrementalAddition := 10%Q;
     incrementalFrequency := "yearly";
     years := 2 |}.

(** Both number fields of the form left empty: [handleInputChange] stores 0. *)
Definition empty_form : CalculationParams float :=
  {| startingAmount := 0%float;
     rateOfReturn := 10%float;
     incrementalAddition := 0%float;
     incrementalFrequency := "monthly";
     years := 1 |}.

Definition weekly_scenario : CalculationParams float :=
  {| startingAmount := 100%float;
     rateOfReturn := 10%float;
     incrementalAddition := 505.75%float;
     incrementalFrequency := "weekly";
     years := 3 |}.

(** The component right after mounting with parameters [p]: nothing computed,
    no comparison, nothing selected. *)
Definition mounted {num : Type} (p : CalculationParams num) : State num :=
  {| params1 := p;
     params2 := None;
     results1 := [];
     results2 := [];
     selectedPoint := None;
     isComparing := false |}.

(** No return: 100 kept, 10 added every month. *)
Definition no_return_scenario : CalculationParams float :=
  {| startingAmount := 100%float;
     rateOfReturn := 0%float;
     incrementalAddition := 10%float;
     incrementalFrequency := "monthly";
     years := 2 |}.

(** A yearly saving of 20 on 200 at 12 per cent. *)
Definition richer_saving : CalculationParams float :=
  {| startingAmount := 200%float;
     rateOfReturn := 12%float;
     incrementalAddition := 20%float;
     incrementalFrequency := "yearly";
     years := 2 |}.

(** [{ ...p, years: n }]. *)
Definition with_years {num : Type} (p : CalculationParams num) (n : Z) :
  CalculationParams num :=
  {| startingAmount := startingAmount p;
     rateOfReturn := rateOfReturn p;
     incrementalAddition := incrementalAddition p;
     incrementalFrequency := incrementalFrequency p;
     years := n |}.

(** [results[results.length - 1]?.totalValue], the number of the "Final
    Results" card; [None] stands for [undefined], which the card shows as
    '0'. *)
Definition final_totalValue {num : Type} (results : list (CalculationResult num)) :
  option num :=
  totalValue_at results (Z.of_nat (List.length results) - 1).

(** ** The form and the events of the component *)

(** The keys [handleInputChange] is called with, the four number fields
    ([keyof CalculationParams] has [incrementalFrequency] too, which the form
    sets through [onValueChange] instead). *)
Inductive ParamKey : Type :=
| key_startingAmount
| key_rateOfReturn
| key_incrementalAddition
| key_years.

Section Form.

Context {num : Type} `{Number num}.

(** [parseFloat] is the built-in, whatever it returns.  The record keeps
    [years] as an integer: [years_of_number] is the integer an integer-valued
    number stands for, so that the model covers the inputs of [years] that
    are whole numbers. *)
Variable parseFloat : string -> num.
Variable years_of_number : num -> Z.

(** [{ ...prev, [paramKey]: value }]. *)
Definition assign (prev : CalculationParams num) (paramKey : ParamKey) (value : num) :
  CalculationParams num :=
  match paramKey with
  | key_startingAmount =>
      {| startingAmount := value;
         rateOfReturn := rateOfReturn prev;
         incrementalAddition := incrementalAddition prev;
         incrementalFrequency := incrementalFrequency prev;
         years := years prev |}
  | key_rateOfReturn =>
      {| startingAmount := startingAmount prev;
         rateOfReturn := value;
         incrementalAddition := incrementalAddition prev;
         incrementalFrequency := incrementalFrequency prev;
         years := years prev |}
  | key_incrementalAddition =>
      {| startingAmount := startingAmount prev;
         rateOfReturn := rateOfReturn prev;
         incrementalAddition := value;
         incrementalFrequency := incrementalFrequency prev;
         years := years prev |}
  | key_years =>
      {| startingAmount := startingAmount prev;
         rateOfReturn := rateOfReturn prev;
         incrementalAddition := incrementalAddition prev;
         incrementalFrequency := incrementalFrequency prev;
         years := years_of_number value |}
  end.

Definition handleInputChange (target_value : string) (paramKey : ParamKey)
    (calculatorNum : Z) (s : State num) : State num :=
  let value :=
    if String.eqb target_value EmptyString then number_of_Z 0 else parseFloat target_value in
  if calculatorNum =? 1 then
    {| params1 := assign (params1 s) paramKey value;
       params2 := params2 s;
       results1 := results1 s;
       results2 := results2 s;
       selectedPoint := selectedPoint s;
       isComparing := isComparing s |}
  else
    match params2 s with
    | Some prev =>
        {| params1 := params1 s;
           params2 := Some (assign prev paramKey value);
           results1 := results1 s;
           results2 := results2 s;
           selectedPoint := selectedPoint s;
           isComparing := isComparing s |}
    | None => s
    end.

(** [onValueChange] of the frequency select of calculator 1:
    [setParams1(prev => ({ ...prev, incrementalFrequency: value }))]. *)
Definition onValueChange1 (value : string) (s : State num) : State num :=
  {| params1 := with_frequency (params1 s) value;
     params2 := params2 s;
     results1 := results1 s;
     results2 := results2 s;
     selectedPoint := selectedPoint s;
     isComparing := isComparing s |}.

(** [onValueChange] of the frequency select of calculator 2:
    [setParams2(prev => prev ? { ...prev, incrementalFrequency: value } : null)]. *)
Definition onValueChange2 (value : string) (s : State num) : State num :=
  {| params1 := params1 s;
     params2 :=
       match params2 s with
       | Some prev => Some (with_frequency prev value)
       | None => None
       end;
     results1 := results1 s;
     results2 := results2 s;
     selectedPoint := selectedPoint s;
     isComparing := isComparing s |}.

(** What the user can do to the component. *)
Inductive Event : Type :=
| InputChange (target_value : string) (paramKey : ParamKey) (calculatorNum : Z)
| FrequencyChange1 (value : string)
| FrequencyChange2 (value : string)
| Compare
| RemoveComparison
| PointClick (payload : CalculationResult num).

Definition handler (ev : Event) : State num -> State num :=
  match ev with
  | InputChange target_value paramKey calculatorNum =>
      handleInputChange target_value paramKey calculatorNum
  | FrequencyChange1 value => onValueChange1 value
  | FrequencyChange2 value => onValueChange2 value
  | Compare => handleCompare
  | RemoveComparison => handleRemoveComparison
  | PointClick payload => handlePointClick payload
  end.

Definition is_set {A : Type} (v : option A) : bool :=
  match v with Some _ => true | None => false end.

(** Whether the handler gives [params1], [params2] or [isComparing] a value
    that is not the one it had: a spread makes a new object each time, [null]
    is [null] and [false] is [false].  These are the dependencies of
    [calculateResults], and through it of the effect. *)
Definition dependency_changes (ev : Event) (s : State num) : bool :=
  match ev with
  | InputChange _ _ calculatorNum =>
      if calculatorNum =? 1 then true else is_set (params2 s)
  | FrequencyChange1 _ => true
  | FrequencyChange2 _ => is_set (params2 s)
  | Compare => true
  | RemoveComparison => isComparing s || is_set (params2 s)
  | PointClick _ => false
  end.

(** An event and the render that follows it:
    [useEffect(() => { calculateResults() }, [calculateResults])] runs the
    effect when a dependency has changed. *)
Definition step (s : State num) (ev : Event) : State num :=
  if dependency_changes ev s then calculateResults (handler ev s) else handler ev s.

(** The component after mounting with [p] (the effect runs once) and the
    events [evs], in order. *)
Definition run (p : CalculationParams num) (evs : list Event) : State num :=
  fold_left step evs (calculateResults (mounted p)).

End Form.

Arguments Event num : clear implicits.

(** Nothing on display is stale. *)
Definition settled {num : Type} `{Number num} (s : State num) : Prop :=
  results1 s = calculateCompoundInterest (params1 s) /\
  results2 s =
    match params2 s with
    | Some p2 => calculateCompoundInterest p2
    | None => []
    end /\
  isComparing s = is_set (params2 s).

(** ** The labels of the y axis *)

Module Format.

Local Open Scope string_scope.

(** The integer [n] for which [n / 10^f] is nearest to [m * 2^e], the larger
    one when two are equally near (step 10.a of [Number.prototype.toFixed]). *)
Definition nearest_decimal (f : nat) (m : positive) (e : Z) : Z :=
  match e with
  | Zneg k => ((2 * 10 ^ Z.of_nat f * Zpos m + 2 ^ Zpos k) / (2 * 2 ^ Zpos k))%Z
  | _ => (10 ^ Z.of_nat f * (Zpos m * 2 ^ e))%Z
  end.

(** The decimal digits of a non-negative integer, ["0"] for 0. *)
Definition digits (n : Z) : string :=
  NilZero.string_of_uint (N.to_uint (Z.to_N n)).

Fixpoint zeros (k : nat) : string :=
  match k with
  | O => EmptyString
  | Datatypes.S k => String "0"%char (zeros k)
  end.

(** Step 10.c: at least [f + 1] digits, and a point before the last [f]. *)
Definition with_point (f : nat) (m : string) : string :=
  match f with
  | O => m
  | _ =>
      let k := String.length m in
      let m := if (k <=? f)%nat then zeros (f + 1 - k) ++ m else m in
      let k := String.length m in
      substring 0 (k - f) m ++ "." ++ substring (k - f) f m
  end.

Section Strings.

(** [Number::toString], the built-in conversion of a number to a string. *)
Variable toString : float -> string.

(** [x.toFixed(fractionDigits)]. *)
Definition toFixed (fractionDigits : nat) (x : float) : string :=
  match Prim2SF x with
  | S754_finite sign m e =>
      let s := if sign then "-" else EmptyString in
      if Binary64.at_least_1e21 m e then s ++ toString (abs x)
      else s ++ with_point fractionDigits (digits (nearest_decimal fractionDigits m e))
  | S754_zero _ => with_point fractionDigits "0"
  | S754_infinity _ | S754_nan => toString x
  end.

Definition formatYAxisTick (value : float) : string :=
  if (1e9 <=? value)%float then "$" ++ toFixed 1 (value / 1e9) ++ "B"
  else if (1e6 <=? value)%float then "$" ++ toFixed 1 (value / 1e6) ++ "M"
  else if (1e3 <=? value)%float then "$" ++ toFixed 0 (value / 1e3) ++ "K"
  else "$" ++ toString value.

End Strings.

End Format.

(** ** The loop, unrolled *)

Section ForLoop.

Context {S : Type} (body : Z -> S -> S).

Lemma for_loop_exit (years year : Z) (st : S) :
  years < year -> for_loop years body year st = st.
Proof.
  intros Hlt. rewrite for_loop_equation.
  destruct (Z_le_gt_dec year years); [lia | reflexivity].
Qed.

Lemma for_loop_enter (years year : Z) (st : S) :
  year <= years ->
  for_loop years body year st = for_loop years body (year + 1) (body year st).
Proof.
  intros Hle. rewrite for_loop_equation.
  destruct (Z_le_gt_dec year years); [reflexivity | lia].
Qed.

(** The last iteration peeled off: a run up to [years] is a run up to
    [years - 1] followed by the body at [years]. *)
Lemma for_loop_last_nat (years : Z) (n : nat) :
  forall (year : Z) (st : S),
    years = year + Z.of_nat n ->
    for_loop years body year st = body years (for_loop (years - 1) body year st).
Proof.
  induction n as [|n IH]; intros year st Hy.
  - assert (years = year) by lia. subst year.
    rewrite for_loop_enter by lia.
    rewrite for_loop_exit by lia.
    now rewrite (for_loop_exit (years - 1)) by lia.
  - rewrite for_loop_enter by lia.
    rewrite IH by lia.
    now rewrite (for_loop_enter (years - 1) year) by lia.
Qed.

Lemma for_loop_last (years year : Z) (st : S) :
  year <= years ->
  for_loop years body year st = body years (for_loop (years - 1) body year st).
Proof.
  intros Hle. apply (for_loop_last_nat years (Z.to_nat (years - year))). lia.
Qed.

(** A run up to [years] passes through the state of the run up to [y]. *)
Lemma for_loop_split (years : Z) (st : S) (y : Z) :
  0 <= y <= years ->
  for_loop years body 1 st = for_loop years body (y + 1) (for_loop y body 1 st).
Proof.
  intros [H0 Hy]. revert Hy. pattern y. apply natlike_ind; [| | exact H0].
  - intros _. now rewrite (for_loop_exit 0) by lia.
  - intros x Hx IH Hle.
    rewrite IH by lia.
    rewrite (for_loop_enter years) by lia.
    rewrite (for_loop_last (Z.succ x)) by lia.
    now replace (Z.succ x - 1) with x by lia.
Qed.

End ForLoop.

(** Two bodies that agree on every state run alike. *)
Lemma for_loop_ext {S : Type} (years : Z) (body body' : Z -> S -> S) :
  (forall y st, body y st = body' y st) ->
  forall (n : nat) (year : Z) (st : S),
    Z.to_nat (years + 1 - year) = n ->
    for_loop years body year st = for_loop years body' year st.
Proof.
  intros Hext. induction n as [|n IH]; intros year st Hn.
  - now rewrite !for_loop_exit by lia.
  - rewrite (for_loop_enter body), (for_loop_enter body') by lia.
    rewrite Hext. apply IH. lia.
Qed.

(** ** The yearly series, entry by entry *)

Section Series.

Context {num : Type} `{Number num}.
Local Open Scope number_scope.

Variable p : CalculationParams num.

Lemma loop_after_before (y : Z) : y < 1 -> loop_after p y = loop_init p.
Proof. intros Hy. unfold loop_after. now rewrite for_loop_exit. Qed.

Lemma loop_after_step (y : Z) :
  1 <= y -> loop_after p y = loop_body p y (loop_after p (y - 1)).
Proof. intros Hy. unfold loop_after. now rewrite for_loop_last. Qed.

Lemma currentValue_step (y : Z) :
  1 <= y ->
  currentValue (loop_after p y) =
  currentValue (loop_after p (y - 1)) * (number_of_Z 1 + rateOfReturn p / number_of_Z 100)
  + yearly_addition p.
Proof. intros Hy. now rewrite loop_after_step. Qed.

Lemma totalInvested_step (y : Z) :
  1 <= y ->
  totalInvested (loop_after p y) = totalInvested (loop_after p (y - 1)) + yearly_addition p.
Proof. intros Hy. now rewrite loop_after_step. Qed.

Lemma results_step (y : Z) :
  1 <= y -> results (loop_after p y) = results (loop_after p (y - 1)) ++ [entry p y].
Proof.
  intros Hy. unfold entry. rewrite (loop_after_step y Hy). reflexivity.
Qed.

Lemma results_loop_after (n : nat) :
  results (loop_after p (Z.of_nat n)) =
  map (fun i => entry p (Z.of_nat i + 1)) (seq 0 n).
Proof.
  induction n as [|n IH].
  - now rewrite loop_after_before by lia.
  - rewrite results_step by lia.
    replace (Z.of_nat (Datatypes.S n) - 1)%Z with (Z.of_nat n) by lia.
    rewrite IH, seq_S, map_app. cbn [map Nat.add].
    now replace (Z.of_nat n + 1)%Z with (Z.of_nat (Datatypes.S n)) by lia.
Qed.

(** The series is the list of the entries of the years [1 .. years]. *)
Lemma calculateCompoundInterest_entries :
  calculateCompoundInterest p =
  map (fun i => entry p (Z.of_nat i + 1)) (seq 0 (Z.to_nat (years p))).
Proof.
  change (calculateCompoundInterest p) with (results (loop_after p (years p))).
  destruct (Z_le_gt_dec 0 (years p)) as [Hy|Hy].
  - rewrite <- results_loop_after. now rewrite Z2Nat.id.
  - rewrite loop_after_before by lia.
    now replace (Z.to_nat (years p)) with 0%nat by lia.
Qed.

Lemma calculateCompoundInterest_length :
  List.length (calculateCompoundInterest p) = Z.to_nat (years p).
Proof.
  now rewrite calculateCompoundInterest_entries, length_map, length_seq.
Qed.

Lemma calculateCompoundInterest_nth (i : nat) :
  (i < Z.to_nat (years p))%nat ->
  nth_error (calculateCompoundInterest p) i = Some (entry p (Z.of_nat i + 1)).
Proof.
  intros Hi. rewrite calculateCompoundInterest_entries.
  rewrite nth_error_map, nth_error_seq.
  destruct (Nat.ltb_spec i (Z.to_nat (years p))); [reflexivity | lia].
Qed.

Lemma calculateCompoundInterest_nth_inv (i : nat) (e : CalculationResult num) :
  nth_error (calculateCompoundInterest p) i = Some e ->
  (i < Z.to_nat (years p))%nat /\ e = entry p (Z.of_nat i + 1).
Proof.
  intros He.
  assert (Hi : (i < Z.to_nat (years p))%nat).
  { rewrite <- calculateCompoundInterest_length.
    apply nth_error_Some. now rewrite He. }
  rewrite (calculateCompoundInterest_nth i Hi) in He.
  split; [exact Hi | congruence].
Qed.

(** The whole run resumes, at year [y + 1], from the variables left by the
    years [1 .. y]. *)
Lemma run_passes_through (y : Z) :
  0 <= y <= years p ->
  for_loop (years p) (loop_body p) 1 (loop_init p) =
  for_loop (years p) (loop_body p) (y + 1) (loop_after p y).
Proof. intros Hy. unfold loop_after. now apply for_loop_split. Qed.

End Series.

(** ** [Array.from] *)

Section ArrayFrom.

Context {A : Type} (len : Z) (f : Z -> A).

Lemma Array_from_length : List.length (Array_from len f) = Z.to_nat len.
Proof. unfold Array_from. now rewrite length_map, length_seq. Qed.

Lemma Array_from_nth (i : nat) :
  (i < Z.to_nat len)%nat -> nth_error (Array_from len f) i = Some (f (Z.of_nat i)).
Proof.
  intros Hi. unfold Array_from. rewrite nth_error_map, nth_error_seq.
  destruct (Nat.ltb_spec i (Z.to_nat len)); [reflexivity | lia].
Qed.

Lemma Array_from_nth_inv (i : nat) (x : A) :
  nth_error (Array_from len f) i = Some x ->
  (i < Z.to_nat len)%nat /\ x = f (Z.of_nat i).
Proof.
  intros Hx.
  assert (Hi : (i < Z.to_nat len)%nat).
  { rewrite <- Array_from_length. apply nth_error_Some. now rewrite Hx. }
  rewrite (Array_from_nth i Hi) in Hx. split; [exact Hi | congruence].
Qed.

End ArrayFrom.

(** ** Exact rationals satisfy the order laws *)

Module RationalOrder.

Lemma hundredths_le (n m : Z) : (n <= m)%Z -> (n # 100 <= m # 100)%Q.
Proof. intros Hnm. unfold Qle. cbn. lia. Qed.

Lemma nearest_nonneg (q : Q) : (0 <= Qfloor (Qabs q * 100 + (1 # 2)))%Z.
Proof.
  change 0%Z with (Qfloor 0). apply Qfloor_resp_le.
  pose proof (Qabs_nonneg q). lra.
Qed.

Lemma nearest_hundredths_monotone (x y : Q) :
  (x <= y)%Q -> (Rational.nearest_hundredths x <= Rational.nearest_hundredths y)%Z.
Proof.
  intros Hxy. unfold Rational.nearest_hundredths.
  pose proof (nearest_nonneg x) as Hnx. pose proof (nearest_nonneg y) as Hny.
  destruct (Qle_bool 0 x) eqn:Hx; destruct (Qle_bool 0 y) eqn:Hy.
  - apply Qle_bool_iff in Hx, Hy. apply Qfloor_resp_le.
    rewrite !Qabs_pos by assumption. lra.
  - apply Qle_bool_iff in Hx.
    assert (Hy' : ~ (0 <= y)%Q) by (rewrite <- Qle_bool_iff; congruence).
    lra.
  - lia.
  - assert (Hx' : ~ (0 <= x)%Q) by (rewrite <- Qle_bool_iff; congruence).
    assert (Hy' : ~ (0 <= y)%Q) by (rewrite <- Qle_bool_iff; congruence).
    apply (proj1 (Z.opp_le_mono _ _)), Qfloor_resp_le.
    rewrite !Qabs_neg by lra. lra.
Qed.

Lemma toFixed2_exact_monotone (x y : Q) :
  Qle_bool x y = true ->
  Qle_bool (Rational.toFixed2_exact x) (Rational.toFixed2_exact y) = true.
Proof.
  rewrite !Qle_bool_iff. intros Hxy. unfold Rational.toFixed2_exact.
  rewrite !Qred_correct. now apply hundredths_le, nearest_hundredths_monotone.
Qed.

(** Rounding moves a number by at most half a hundredth. *)
Lemma nearest_hundredths_error (q : Q) :
  (- (1 # 2) <= inject_Z (Rational.nearest_hundredths q) - q * 100 <= 1 # 2)%Q.
Proof.
  unfold Rational.nearest_hundredths.
  pose proof (Qfloor_le (Qabs q * 100 + (1 # 2))) as Hlo.
  pose proof (Qlt_floor (Qabs q * 100 + (1 # 2))) as Hhi.
  rewrite inject_Z_plus in Hhi. change (inject_Z 1) with 1%Q in Hhi.
  destruct (Qle_bool 0 q) eqn:Hq.
  - apply Qle_bool_iff in Hq. pose proof (Qabs_pos q Hq). lra.
  - assert (Hq' : ~ (0 <= q)%Q) by (rewrite <- Qle_bool_iff; congruence).
    assert (Hneg : (q <= 0)%Q) by lra.
    pose proof (Qabs_neg q Hneg). rewrite inject_Z_opp. lra.
Qed.

Lemma toFixed2_exact_hundredths (q : Q) :
  (Rational.toFixed2_exact q * 100 == inject_Z (Rational.nearest_hundredths q))%Q.
Proof.
  unfold Rational.toFixed2_exact. rewrite Qred_correct.
  unfold Qeq, Qmult, inject_Z. cbn. lia.
Qed.

Lemma nearest_hundredths_comp (x y : Q) :
  (x == y)%Q -> Rational.nearest_hundredths x = Rational.nearest_hundredths y.
Proof.
  intros Hxy. apply Z.le_antisymm; apply nearest_hundredths_monotone; lra.
Qed.

(** In exact arithmetic a rounded difference is within a hundredth of the
    difference of the rounded values. *)
Lemma rounded_difference_within_a_hundredth (a b : Q) :
  (Qabs (toFixed2 (a - b)%num - (toFixed2 a - toFixed2 b)%num) <= 1 # 100)%Q.
Proof.
  cbn [toFixed2 number_sub Rational.number_exact].
  replace (Rational.toFixed2_exact (Qred (a - b))) with (Rational.toFixed2_exact (a - b))
    by (unfold Rational.toFixed2_exact;
        now rewrite (nearest_hundredths_comp (Qred (a - b)) (a - b) (Qred_correct _))).
  rewrite Qred_correct.
  pose proof (toFixed2_exact_hundredths (a - b)) as Hg.
  pose proof (toFixed2_exact_hundredths a) as Ha.
  pose proof (toFixed2_exact_hundredths b) as Hb.
  pose proof (nearest_hundredths_error (a - b)) as Eg.
  pose proof (nearest_hundredths_error a) as Ea.
  pose proof (nearest_hundredths_error b) as Eb.
  set (g := Rational.nearest_hundredths (a - b)) in *.
  set (t := Rational.nearest_hundredths a) in *.
  set (i := Rational.nearest_hundredths b) in *.
  clearbody g t i.
  assert (Hk : (-1 <= g - (t - i) <= 1)%Z).
  { assert (Hq : (- (3 # 2) <= inject_Z (g - (t - i)) <= 3 # 2)%Q).
    { unfold Z.sub. repeat (rewrite inject_Z_plus || rewrite inject_Z_opp). lra. }
    destruct Hq as [Hlo Hhi]. unfold Qle in Hlo, Hhi. cbn in Hlo, Hhi. lia. }
  assert (Hd : ((Rational.toFixed2_exact (a - b)
                 - (Rational.toFixed2_exact a - Rational.toFixed2_exact b)) * 100
                == inject_Z (g - (t - i)))%Q).
  { unfold Z.sub. repeat (rewrite inject_Z_plus || rewrite inject_Z_opp). lra. }
  assert (Hb1 : (-1 <= inject_Z (g - (t - i)) <= 1)%Q).
  { split; [change (-1)%Q with (inject_Z (-1)) | change 1%Q with (inject_Z 1)];
      rewrite <- Zle_Qle; lia. }
  apply Qabs_Qle_condition. lra.
Qed.

#[global] Instance number_order : NumberOrder Q.
Proof.
  split.
  - intros x y z Hxy Hyz. apply Qle_bool_iff. apply Qle_bool_iff in Hxy, Hyz.
    exact (Qle_trans _ _ _ Hxy Hyz).
  - intros x c Hx Hc. apply Qle_bool_iff. apply Qle_bool_iff in Hx, Hc.
    change (x <= Qred (x + c))%Q. rewrite Qred_correct.
    change (0 <= x)%Q in Hx. change (0 <= c)%Q in Hc. lra.
  - intros a f Ha. apply Qle_bool_iff. apply Qle_bool_iff in Ha.
    change (0 <= Qred (a * frequencyMultiplier f))%Q. rewrite Qred_correct.
    apply Qmult_le_0_compat; [exact Ha |].
    unfold frequencyMultiplier.
    destruct (String.eqb f "monthly"); [| destruct (String.eqb f "quarterly")];
      cbn; unfold Qle; cbn; lia.
  - intros x y _. exact (toFixed2_exact_monotone x y).
Qed.

End RationalOrder.

(** ** Doubles satisfy the order laws *)

Module Binary64Order.

Import Rounding.

(** *** Digits and one-bit shifts *)

Lemma digits2_pos_bounds (p : positive) :
  2 ^ (Zpos (digits2_pos p) - 1) <= Zpos p < 2 ^ Zpos (digits2_pos p).
Proof.
  induction p as [p IH|p IH|]; cbn [digits2_pos].
  - rewrite Pos2Z.inj_succ, Z.pow_succ_r by lia.
    replace (Z.succ (Zpos (digits2_pos p)) - 1) with (Z.succ (Zpos (digits2_pos p) - 1)) by lia.
    rewrite Z.pow_succ_r by lia. lia.
  - rewrite Pos2Z.inj_succ, Z.pow_succ_r by lia.
    replace (Z.succ (Zpos (digits2_pos p)) - 1) with (Z.succ (Zpos (digits2_pos p) - 1)) by lia.
    rewrite Z.pow_succ_r by lia. lia.
  - cbn. lia.
Qed.

Lemma digits2_pos_unique (p : positive) (d : Z) :
  2 ^ (d - 1) <= Zpos p < 2 ^ d -> Zpos (digits2_pos p) = d.
Proof.
  intros [Hlo Hhi]. pose proof (digits2_pos_bounds p) as [Glo Ghi].
  assert (0 < d).
  { destruct (Z_lt_le_dec 0 d) as [|Hd]; [assumption |].
    assert (2 ^ d <= 1).
    { destruct (Z.eq_dec d 0) as [->|]; [cbn; lia |].
      rewrite Z.pow_neg_r by lia. lia. }
    lia. }
  assert (Zpos (digits2_pos p) - 1 < d).
  { apply (Z.pow_lt_mono_r_iff 2); lia. }
  assert (d - 1 < Zpos (digits2_pos p)).
  { apply (Z.pow_lt_mono_r_iff 2); lia. }
  lia.
Qed.

Lemma shr_1_m (mrs : shr_record) :
  0 <= shr_m mrs -> shr_m (shr_1 mrs) = shr_m mrs / 2.
Proof.
  destruct mrs as [m r s]. cbn [shr_m]. intros Hm.
  destruct m as [|[p|p|]|p]; cbn [shr_1 shr_m]; try lia.
  all: try reflexivity.
  - rewrite (Pos2Z.inj_xI p). apply Z.div_unique with 1; lia.
  - rewrite (Pos2Z.inj_xO p). apply Z.div_unique with 0; lia.
Qed.

Lemma shr_1_r (mrs : shr_record) :
  0 <= shr_m mrs -> shr_r (shr_1 mrs) = Z.odd (shr_m mrs).
Proof.
  destruct mrs as [m r s]. cbn [shr_m]. intros Hm.
  destruct m as [|[p|p|]|p]; cbn; try reflexivity; lia.
Qed.

Lemma shr_1_s (mrs : shr_record) :
  shr_s (shr_1 mrs) = shr_r mrs || shr_s mrs.
Proof.
  destruct mrs as [m r s]. destruct m as [|[p|p|]|[p|p|]]; reflexivity.
Qed.

Lemma rep_shr_1 (N D : Z) (mrs : shr_record) :
  0 < D -> rep_rec N D mrs -> rep_rec N (2 * D) (shr_1 mrs).
Proof.
  intros HD [Hm (Hin & Hr & Hs)]. unfold rep_rec, rep_bits.
  rewrite shr_1_m, shr_1_r, shr_1_s by assumption.
  set (m := shr_m mrs) in *. set (r := shr_r mrs) in *. set (s := shr_s mrs) in *.
  clearbody m r s.
  pose proof (Z.div_mod m 2 ltac:(lia)) as Hdm.
  pose proof (Zmod_odd m) as Hodd.
  set (q := m / 2) in *. clearbody q.
  assert (Hrs : (r || s = true) <-> N <> m * D).
  { rewrite orb_true_iff, Hr, Hs. lia. }
  rewrite Hodd in Hdm. clear Hodd.
  destruct (Z.odd m); subst m.
  - assert (Hq0 : 0 <= q) by lia.
    split; [lia |]. split; [nia | split].
    + split; [intros _; nia | reflexivity].
    + rewrite Hrs. split; intros; nia.
  - assert (Hq0 : 0 <= q) by lia.
    split; [lia |]. split; [nia | split].
    + split; [discriminate | intros; nia].
    + rewrite Hrs. split; intros; nia.
Qed.

Lemma rep_iter_shr_1 (p : positive) :
  forall (N D : Z) (mrs : shr_record),
    0 < D -> rep_rec N D mrs -> rep_rec N (2 ^ Zpos p * D) (iter_pos shr_1 p mrs).
Proof.
  induction p as [p IH|p IH|]; intros N D mrs HD Hrep; cbn [iter_pos].
  - replace (2 ^ Zpos p~1 * D) with (2 ^ Zpos p * (2 ^ Zpos p * (2 * D))).
    + apply IH; [nia | apply IH; [lia | now apply rep_shr_1]].
    + rewrite (Pos2Z.inj_xI p).
      replace (2 * Zpos p + 1) with (Zpos p + Zpos p + 1) by lia.
      rewrite !Z.pow_add_r by lia. change (2 ^ 1) with 2. ring.
  - replace (2 ^ Zpos p~0 * D) with (2 ^ Zpos p * (2 ^ Zpos p * D)).
    + apply IH; [nia | now apply IH].
    + rewrite (Pos2Z.inj_xO p).
      replace (2 * Zpos p) with (Zpos p + Zpos p) by lia.
      rewrite !Z.pow_add_r by lia. ring.
  - change (2 ^ 1) with 2. now apply rep_shr_1.
Qed.

Lemma rep_rec_of_loc (N D m : Z) (l : location) :
  rep_loc N D m l -> rep_rec N D (shr_record_of_loc m l).
Proof.
  intros (Hm & Hin & Hl). unfold rep_rec, rep_bits.
  destruct l as [|[| |]]; cbn [shr_record_of_loc shr_m shr_r shr_s];
    (split; [exact Hm | split; [exact Hin |]]).
  - split; split; try discriminate; lia.
  - destruct Hl as [Hne Hc]. apply Z.compare_eq_iff in Hc.
    split; split; try discriminate; try reflexivity; lia.
  - destruct Hl as [Hne Hc]. rewrite Z.compare_lt_iff in Hc.
    split; split; try discriminate; try reflexivity; lia.
  - destruct Hl as [Hne Hc]. rewrite Z.compare_gt_iff in Hc.
    split; split; try discriminate; try reflexivity; lia.
Qed.

Lemma rep_loc_of_rec (N D : Z) (mrs : shr_record) :
  rep_rec N D mrs -> rep_loc N D (shr_m mrs) (loc_of_shr_record mrs).
Proof.
  intros (Hm & Hin & Hr & Hs). unfold rep_loc.
  split; [exact Hm | split; [exact Hin |]].
  destruct mrs as [m [|] [|]]; cbn [shr_m shr_r shr_s loc_of_shr_record] in *.
  - split; [lia |]. apply Z.compare_gt_iff. lia.
  - assert (Hs' : ~ (N <> m * D /\ 2 * N <> (2 * m + 1) * D)) by (rewrite <- Hs; discriminate).
    split; [lia |]. apply Z.compare_eq_iff. lia.
  - assert (Hr' : ~ ((2 * m + 1) * D <= 2 * N)) by (rewrite <- Hr; discriminate).
    split; [lia |]. apply Z.compare_lt_iff. lia.
  - assert (Hr' : ~ ((2 * m + 1) * D <= 2 * N)) by (rewrite <- Hr; discriminate).
    assert (Hs' : ~ (N <> m * D /\ 2 * N <> (2 * m + 1) * D)) by (rewrite <- Hs; discriminate).
    lia.
Qed.

Lemma grid_pos (e : Z) : -1200 <= e -> 0 < grid e.
Proof. intros He. unfold grid. apply Z.pow_pos_nonneg; lia. Qed.

Lemma grid_add (e k : Z) : -1200 <= e -> 0 <= k -> grid (e + k) = 2 ^ k * grid e.
Proof.
  intros He Hk. unfold grid.
  replace (e + k + 1200) with (k + (e + 1200)) by lia.
  now rewrite Z.pow_add_r by lia.
Qed.

Lemma grid_le (e e' : Z) : -1200 <= e -> e <= e' -> grid e <= grid e'.
Proof. intros He Hle. unfold grid. apply Z.pow_le_mono_r; lia. Qed.

Lemma grid_lt_inv (a b : Z) : -1200 <= b -> grid a < grid b -> a < b.
Proof.
  intros Hb Hlt. unfold grid in Hlt.
  destruct (Z_lt_le_dec a b) as [|Hge]; [assumption |].
  assert (2 ^ (b + 1200) <= 2 ^ (a + 1200)) by (apply Z.pow_le_mono_r; lia). lia.
Qed.

Lemma fexp_eq (e : Z) : fexp prec emax e = Z.max (e - 53) (-1074).
Proof. reflexivity. Qed.

(** ** The first shift *)

Lemma shr_fexp_rep (N D m e : Z) (l : location) :
  0 < D -> -1200 <= e ->
  rep_loc N (grid e * D) m l ->
  let e1 := Z.max e (fexp prec emax (Zdigits2 m + e)) in
  exists mrs,
    shr_fexp prec emax m e l = (mrs, e1) /\
    rep_loc N (grid e1 * D) (shr_m mrs) (loc_of_shr_record mrs).
Proof.
  intros HD He Hrep e1. unfold shr_fexp, shr.
  pose proof (grid_pos e He) as Hg.
  apply rep_rec_of_loc in Hrep.
  destruct (fexp prec emax (Zdigits2 m + e) - e) as [|k|k] eqn:Hk.
  - exists (shr_record_of_loc m l). replace e1 with e by lia.
    split; [reflexivity | now apply rep_loc_of_rec].
  - exists (iter_pos shr_1 k (shr_record_of_loc m l)).
    replace e1 with (e + Zpos k) by lia.
    split; [reflexivity |]. apply rep_loc_of_rec.
    rewrite grid_add by lia. rewrite <- Z.mul_assoc.
    apply rep_iter_shr_1; [nia | assumption].
  - exists (shr_record_of_loc m l). replace e1 with e by lia.
    split; [reflexivity | now apply rep_loc_of_rec].
Qed.

(** ** Rounding to nearest, ties to even *)

Lemma rep_loc_div (N D m : Z) (l : location) :
  0 < D -> rep_loc N D m l -> m = N / D.
Proof.
  intros HD (Hm & Hin & _). apply Z.div_unique with (N - m * D); lia.
Qed.

Lemma rne_rep (N D m : Z) (l : location) :
  0 < D -> rep_loc N D m l -> round_nearest_even m l = rne N D.
Proof.
  intros HD Hrep. pose proof (rep_loc_div N D m l HD Hrep) as Ht.
  destruct Hrep as (Hm & Hin & Hl). unfold rne. rewrite <- Ht.
  destruct l as [|c]; cbn [round_nearest_even].
  - assert (Hc : (2 * N ?= (2 * m + 1) * D) = Lt) by (apply Z.compare_lt_iff; lia).
    now rewrite Hc.
  - destruct Hl as [_ Hc]. rewrite Hc. now destruct c.
Qed.

Lemma rne_bounds (N D : Z) : N / D <= rne N D <= N / D + 1.
Proof.
  unfold rne. destruct (2 * N ?= (2 * (N / D) + 1) * D); [destruct (Z.even _) | |]; lia.
Qed.

Lemma rne_exact (N D t : Z) : 0 < D -> N = t * D -> rne N D = t.
Proof.
  intros HD ->. unfold rne. rewrite Z.div_mul by lia.
  assert (Hc : (2 * (t * D) ?= (2 * t + 1) * D) = Lt) by (apply Z.compare_lt_iff; lia).
  now rewrite Hc.
Qed.

Lemma rne_mono (N N' D : Z) : 0 < D -> N <= N' -> rne N D <= rne N' D.
Proof.
  intros HD Hle.
  pose proof (Z.div_le_mono N N' D HD Hle) as Ht.
  pose proof (rne_bounds N D) as HB. pose proof (rne_bounds N' D) as HB'.
  destruct (Z.eq_dec (N / D) (N' / D)) as [Heq|Hne]; [| lia].
  unfold rne in *. rewrite <- Heq in *.
  destruct (Z.compare_spec (2 * N) ((2 * (N / D) + 1) * D));
    destruct (Z.compare_spec (2 * N') ((2 * (N / D) + 1) * D));
    try destruct (Z.even (N / D)); lia.
Qed.

Lemma rne_le_multiple (N D Y : Z) : 0 < D -> N <= Y * D -> rne N D <= Y.
Proof.
  intros HD Hle.
  rewrite <- (rne_exact (Y * D) D Y HD eq_refl). now apply rne_mono.
Qed.

Lemma rne_ge_multiple (N D X : Z) : 0 < D -> X * D <= N -> X <= rne N D.
Proof.
  intros HD Hle.
  rewrite <- (rne_exact (X * D) D X HD eq_refl). now apply rne_mono.
Qed.

(** ** The second shift and the result *)

Lemma shr_nop (mrs : shr_record) (e k : Z) : k <= 0 -> shr mrs e k = (mrs, e).
Proof. intros Hk. unfold shr. destruct k; [reflexivity | lia | reflexivity]. Qed.

Lemma Zdigits2_le_53 (m : Z) : 0 <= m < 2 ^ 53 -> Zdigits2 m <= 53.
Proof.
  intros [Hlo Hhi]. destruct m as [|p|p]; cbn [Zdigits2]; [lia | | lia].
  pose proof (digits2_pos_bounds p) as [Hd _].
  assert (Zpos (digits2_pos p) - 1 < 53) by (apply (Z.pow_lt_mono_r_iff 2); lia).
  lia.
Qed.

Lemma second_shift (m_r e1 : Z) :
  0 <= m_r <= 2 ^ 53 -> -1074 <= e1 ->
  (let '(mrs, e2) := shr_fexp prec emax m_r e1 loc_Exact in
   match shr_m mrs with
   | Z0 => S754_zero false
   | Zpos m => if e2 <=? emax - prec then S754_finite false m e2 else S754_infinity false
   | Zneg _ => S754_nan
   end) = out m_r e1.
Proof.
  intros Hm He. unfold out.
  destruct (Z.eqb_spec m_r (2 ^ 53)) as [-> | Hne].
  - unfold shr_fexp.
    replace (Zdigits2 (2 ^ 53)) with 54 by reflexivity.
    replace (fexp prec emax (54 + e1) - e1) with 1 by (rewrite fexp_eq; lia).
    reflexivity.
  - unfold shr_fexp. rewrite shr_nop.
    + cbn [shr_record_of_loc shr_m]. now destruct m_r.
    + pose proof (Zdigits2_le_53 m_r ltac:(lia)). rewrite fexp_eq. lia.
Qed.

Lemma pow2_grid (d e : Z) : 0 <= d -> -1200 <= e -> 2 ^ d * grid e = 2 ^ (d + e + 1200).
Proof.
  intros Hd He. unfold grid.
  replace (d + e + 1200) with (d + (e + 1200)) by lia.
  now rewrite (Z.pow_add_r 2 d (e + 1200)) by lia.
Qed.

(** ** What [binary_round_aux] computes *)

Theorem binary_round_aux_rne (N D m e : Z) (l : location) :
  0 < D -> 0 < m -> -1200 <= e ->
  e <= fexp prec emax (Zdigits2 m + e) ->
  rep_loc N (grid e * D) m l ->
  let e1 := fexp prec emax (Zdigits2 m + e) in
  let m_r := rne N (grid e1 * D) in
  binary_round_aux prec emax false m e l = out m_r e1 /\
  0 <= m_r <= 2 ^ 53 /\ -1074 <= e1 /\ (2 ^ 52 <= m_r \/ e1 = -1074).
Proof.
  intros HD Hm He Hpre Hrep e1 m_r.
  assert (He1 : -1074 <= e1) by (unfold e1; rewrite fexp_eq; lia).
  pose proof (grid_pos e He) as Hg. pose proof (grid_pos e1 ltac:(lia)) as Hg1.
  assert (HD1 : 0 < grid e1 * D) by nia.
  (* the size of [N] *)
  destruct m as [|p|p]; try lia. cbn [Zdigits2] in *.
  pose proof (digits2_pos_bounds p) as [Hdlo Hdhi].
  set (d := Zpos (digits2_pos p)) in *.
  assert (Hd : 0 < d) by (unfold d; lia).
  destruct Hrep as (Hm0 & [Hlo Hhi] & Hl).
  assert (Hupper : N < 2 ^ 53 * (grid e1 * D)).
  { assert (2 ^ d * grid e <= 2 ^ 53 * grid e1).
    { rewrite !pow2_grid by lia. apply Z.pow_le_mono_r; [lia |].
      unfold e1. rewrite fexp_eq. lia. }
    nia. }
  assert (Hlower : e1 <> -1074 -> 2 ^ 52 * (grid e1 * D) <= N).
  { intros Hn.
    assert (He1' : e1 = d + e - 53) by (unfold e1 in *; rewrite fexp_eq in *; lia).
    assert (2 ^ 52 * grid e1 = 2 ^ (d - 1) * grid e).
    { rewrite !pow2_grid by lia. f_equal. lia. }
    nia. }
  assert (Hbounds : 0 <= m_r <= 2 ^ 53).
  { pose proof (rne_bounds N (grid e1 * D)) as [Hb1 Hb2]. fold m_r in Hb1, Hb2.
    assert (0 <= N / (grid e1 * D)) by (apply Z.div_pos; nia).
    assert (N / (grid e1 * D) < 2 ^ 53) by (apply Z.div_lt_upper_bound; nia).
    lia. }
  split; [| split; [exact Hbounds | split; [exact He1 |]]].
  - pose proof (shr_fexp_rep N D (Zpos p) e l HD He
                  (conj Hm0 (conj (conj Hlo Hhi) Hl))) as (mrs & Hshr & Hrep1).
    cbn [Zdigits2] in Hshr, Hrep1. fold d in Hshr, Hrep1. fold e1 in Hshr, Hrep1.
    replace (Z.max e e1) with e1 in Hshr, Hrep1 by lia.
    unfold binary_round_aux. rewrite Hshr.
    rewrite (rne_rep N (grid e1 * D) _ _ HD1 Hrep1). fold m_r.
    now apply second_shift.
  - destruct (Z.eq_dec e1 (-1074)) as [|Hn]; [now right | left].
    apply rne_ge_multiple; [exact HD1 | now apply Hlower].
Qed.

(** ** Canonical mantissas and exponents *)

Lemma valid_binary_canonical (s : bool) (p : positive) (e : Z) :
  valid_binary (S754_finite s p e) = true ->
  canonical (Zpos p) e /\ e <= 971.
Proof.
  cbn [valid_binary]. unfold bounded, canonical_mantissa.
  rewrite andb_true_iff, Z.eqb_eq, Z.leb_le, fexp_eq.
  change (emax - prec) with 971. intros [Hc He].
  pose proof (digits2_pos_bounds p) as [Hlo Hhi].
  set (d := Zpos (digits2_pos p)) in *.
  assert (Hd : d <= 53) by lia.
  assert (Hp : Zpos p < 2 ^ 53).
  { apply Z.lt_le_trans with (2 ^ d); [assumption |]. apply Z.pow_le_mono_r; lia. }
  split; [| assumption]. split; [lia | split; [lia |]].
  destruct (Z.eq_dec e (-1074)) as [|Hn]; [now right | left].
  assert (d = 53) by lia. replace 52 with (d - 1) by lia. assumption.
Qed.

Lemma canonical_valid_binary (p : positive) (e : Z) :
  canonical (Zpos p) e -> e <= 971 ->
  valid_binary (S754_finite false p e) = true.
Proof.
  intros ([_ Hp] & He & Hn) Hmax.
  cbn [valid_binary]. unfold bounded, canonical_mantissa.
  rewrite andb_true_iff, Z.eqb_eq, Z.leb_le, fexp_eq.
  change (emax - prec) with 971. split; [| assumption].
  pose proof (Zdigits2_le_53 (Zpos p) ltac:(lia)) as Hd. cbn [Zdigits2] in Hd.
  destruct Hn as [Hn | ->]; [| lia].
  rewrite (digits2_pos_unique p 53) by (change (53 - 1) with 52; lia). lia.
Qed.

Lemma grid_double (e e' : Z) : -1200 <= e -> e < e' -> 2 * grid e <= grid e'.
Proof.
  intros He Hlt. replace e' with (e + (e' - e)) by lia.
  rewrite grid_add by lia.
  assert (2 ^ 1 <= 2 ^ (e' - e)) by (apply Z.pow_le_mono_r; lia).
  pose proof (grid_pos e He). change (2 ^ 1) with 2 in *. nia.
Qed.

(** Values order canonical pairs as exponent first, mantissa second. *)
Lemma canonical_order (m e m' e' : Z) :
  canonical m e -> canonical m' e' -> 0 < m ->
  m * grid e <= m' * grid e' ->
  0 < m' /\ (e < e' \/ (e = e' /\ m <= m')).
Proof.
  intros (Hm & He & Hn) (Hm' & He' & Hn') Hpos Hle.
  pose proof (grid_pos e ltac:(lia)) as Hg. pose proof (grid_pos e' ltac:(lia)) as Hg'.
  split; [nia |].
  destruct (Z_lt_le_dec e e') as [|Hge]; [now left | right].
  destruct (Z.eq_dec e e') as [-> | Hne]; [split; [reflexivity | nia] |].
  exfalso.
  pose proof (grid_double e' e ltac:(lia) ltac:(lia)) as Hdbl.
  assert (2 ^ 52 <= m) by lia.
  assert (2 ^ 53 * grid e' <= m * grid e).
  { change (2 ^ 53) with (2 ^ 52 * 2). nia. }
  nia.
Qed.

Lemma fin_or_inf_le (m e m' e' : Z) :
  canonical m e -> canonical m' e' ->
  m * grid e <= m' * grid e' ->
  SFleb (fin_or_inf m e) (fin_or_inf m' e') = true.
Proof.
  intros Hc Hc' Hle.
  destruct m as [|p|p]; [| | destruct Hc as [[? _] _]; lia].
  - destruct m' as [|p'|p']; cbn [fin_or_inf]; try reflexivity.
    destruct (e' <=? emax - prec); reflexivity.
  - destruct (canonical_order _ _ _ _ Hc Hc' ltac:(lia) Hle) as [Hpos Hord].
    destruct m' as [|p'|p']; try lia. cbn [fin_or_inf].
    change (emax - prec) with 971.
    destruct (Z.leb_spec e 971), (Z.leb_spec e' 971); try reflexivity; [| lia].
    unfold SFleb, SFcompare.
    destruct Hord as [Hlt | [-> Hmm]].
    + apply Z.compare_lt_iff in Hlt. now rewrite Hlt.
    + rewrite Z.compare_refl.
      change (Pos.compare_cont Eq p p') with (Pos.compare p p').
      destruct (Pos.compare_spec p p'); try reflexivity. lia.
Qed.

Lemma out_carry (m e : Z) :
  0 <= m <= 2 ^ 53 -> -1074 <= e -> (2 ^ 52 <= m \/ e = -1074) ->
  exists mn en, out m e = fin_or_inf mn en /\ canonical mn en /\
                mn * grid en = m * grid e.
Proof.
  intros Hm He Hn. unfold out.
  destruct (Z.eqb_spec m (2 ^ 53)) as [-> | Hne].
  - exists (2 ^ 52), (e + 1). split; [reflexivity | split].
    + split; [split; [apply Z.pow_nonneg; lia | now apply Z.pow_lt_mono_r] |].
      split; [lia | now left].
    + rewrite grid_add by lia. change (2 ^ 53) with (2 ^ 52 * 2 ^ 1). ring.
  - exists m, e. split; [reflexivity | split; [| reflexivity]].
    split; [lia | split; assumption].
Qed.

Lemma out_le (m e m' e' : Z) :
  0 <= m <= 2 ^ 53 -> -1074 <= e -> (2 ^ 52 <= m \/ e = -1074) ->
  0 <= m' <= 2 ^ 53 -> -1074 <= e' -> (2 ^ 52 <= m' \/ e' = -1074) ->
  m * grid e <= m' * grid e' ->
  SFleb (out m e) (out m' e') = true.
Proof.
  intros Hm He Hn Hm' He' Hn' Hle.
  destruct (out_carry m e Hm He Hn) as (mn & en & -> & Hc & Hv).
  destruct (out_carry m' e' Hm' He' Hn') as (mn' & en' & -> & Hc' & Hv').
  apply fin_or_inf_le; [assumption | assumption | lia].
Qed.

Lemma out_valid (m e : Z) :
  0 <= m <= 2 ^ 53 -> -1074 <= e -> (2 ^ 52 <= m \/ e = -1074) ->
  valid_binary (out m e) = true.
Proof.
  intros Hm He Hn.
  destruct (out_carry m e Hm He Hn) as (mn & en & -> & Hc & _).
  destruct mn as [|p|p]; cbn [fin_or_inf]; try reflexivity.
  change (emax - prec) with 971.
  destruct (Z.leb_spec en 971); [| reflexivity].
  now apply canonical_valid_binary.
Qed.

(** ** Rounding is monotone *)

Lemma round_input_size (N D m e : Z) (l : location) :
  round_input N D m e l ->
  2 ^ (Zdigits2 m - 1 + e + 1200) * D <= N < 2 ^ (Zdigits2 m + e + 1200) * D.
Proof.
  intros [HD Hm He _ (_ & [Hlo Hhi] & _)].
  destruct m as [|p|p]; try lia. cbn [Zdigits2].
  pose proof (digits2_pos_bounds p) as [Hdlo Hdhi].
  pose proof (grid_pos e He) as Hg.
  replace (Zpos (digits2_pos p) - 1 + e + 1200)
    with ((Zpos (digits2_pos p) - 1) + e + 1200) by lia.
  rewrite <- !pow2_grid by lia. nia.
Qed.

Theorem round_mono (N N' D m e m' e' : Z) (l l' : location) :
  round_input N D m e l -> round_input N' D m' e' l' -> N <= N' ->
  SFleb (binary_round_aux prec emax false m e l)
        (binary_round_aux prec emax false m' e' l') = true.
Proof.
  intros Hi Hi' Hle.
  pose proof (round_input_size _ _ _ _ _ Hi) as [Hs1 _].
  pose proof (round_input_size _ _ _ _ _ Hi') as [_ Hs2].
  destruct Hi as [HD Hm He Hpre Hrep]. destruct Hi' as [_ Hm' He' Hpre' Hrep'].
  destruct (binary_round_aux_rne N D m e l HD Hm He Hpre Hrep) as (-> & Hr & He1 & Hn).
  destruct (binary_round_aux_rne N' D m' e' l' HD Hm' He' Hpre' Hrep')
    as (-> & Hr' & He1' & Hn').
  set (e1 := fexp prec emax (Zdigits2 m + e)) in *.
  set (e1' := fexp prec emax (Zdigits2 m' + e')) in *.
  apply out_le; try assumption.
  assert (Hmag : Zdigits2 m + e <= Zdigits2 m' + e').
  { assert (Hlt : 2 ^ (Zdigits2 m - 1 + e + 1200) < 2 ^ (Zdigits2 m' + e' + 1200)) by nia.
    apply Z.pow_lt_mono_r_iff in Hlt; [lia | lia |].
    assert (0 < Zdigits2 m') by (destruct m'; cbn; lia). lia. }
  assert (He11 : e1 <= e1') by (unfold e1, e1'; rewrite !fexp_eq; lia).
  pose proof (grid_pos e1 ltac:(lia)) as Hg. pose proof (grid_pos e1' ltac:(lia)) as Hg'.
  destruct (Z.eq_dec e1 e1') as [Heq | Hne].
  - rewrite <- Heq in *.
    pose proof (rne_mono N N' (grid e1 * D) ltac:(nia) Hle). nia.
  - pose proof (grid_double e1 e1' ltac:(lia) ltac:(lia)) as Hdbl.
    assert (2 ^ 52 <= rne N' (grid e1' * D)) by lia.
    change (2 ^ 53) with (2 ^ 52 * 2) in Hr. nia.
Qed.

(** A valid float rounds to itself. *)
Lemma round_canonical (p : positive) (e D : Z) :
  canonical (Zpos p) e -> e <= 971 -> 0 < D ->
  round_input (Zpos p * (grid e * D)) D (Zpos p) e loc_Exact /\
  binary_round_aux prec emax false (Zpos p) e loc_Exact = S754_finite false p e.
Proof.
  intros Hc Hmax HD.
  pose proof (canonical_valid_binary p e Hc Hmax) as Hv.
  cbn [valid_binary] in Hv. unfold bounded, canonical_mantissa in Hv.
  apply andb_true_iff in Hv as [Hv _]. apply Z.eqb_eq in Hv.
  destruct Hc as (Hp & He & Hn).
  pose proof (grid_pos e ltac:(lia)) as Hg.
  assert (Hin : round_input (Zpos p * (grid e * D)) D (Zpos p) e loc_Exact).
  { split; try lia.
    - cbn [Zdigits2]. lia.
    - split; [lia | split; [nia | reflexivity]]. }
  split; [exact Hin |].
  destruct Hin as [_ Hm He' Hpre Hrep].
  destruct (binary_round_aux_rne _ D _ e _ HD Hm He' Hpre Hrep) as (-> & _).
  cbn [Zdigits2]. rewrite Hv.
  rewrite (rne_exact _ _ (Zpos p)) by (nia || reflexivity).
  unfold out. destruct (Z.eqb_spec (Zpos p) (2 ^ 53)) as [Heq | _]; [lia |].
  cbn [fin_or_inf]. change (emax - prec) with 971.
  destruct (Z.leb_spec e 971); [reflexivity | lia].
Qed.

(** ** Aligning mantissas *)

Lemma iter_xO (m d : positive) : Zpos (Pos.iter xO m d) = Zpos m * 2 ^ Zpos d.
Proof.
  induction d as [|d IH] using Pos.peano_ind.
  - cbn [Pos.iter]. change (2 ^ 1) with 2. lia.
  - rewrite Pos.iter_succ, Pos2Z.inj_xO, IH, Pos2Z.inj_succ, Z.pow_succ_r by lia. ring.
Qed.

Lemma shl_align_spec (mx : positive) (ex ex' : Z) :
  -1200 <= ex' ->
  let '(m, e) := shl_align mx ex ex' in
  Zpos m * grid e = Zpos mx * grid ex /\ e = Z.min ex ex'.
Proof.
  intros He. unfold shl_align.
  destruct (ex' - ex) as [|d|d] eqn:Hd.
  - split; [reflexivity | lia].
  - split; [reflexivity | lia].
  - rewrite iter_xO. split; [| lia].
    replace ex with (ex' + Zpos d) by lia.
    rewrite grid_add by lia. ring.
Qed.

Lemma digits2_pos_mul_pow2 (m : positive) (k : Z) (m' : positive) :
  0 <= k -> Zpos m' = Zpos m * 2 ^ k ->
  Zpos (digits2_pos m') = Zpos (digits2_pos m) + k.
Proof.
  intros Hk Hm'. apply digits2_pos_unique. rewrite Hm'.
  pose proof (digits2_pos_bounds m) as [Hlo Hhi].
  replace (Zpos (digits2_pos m) + k - 1) with ((Zpos (digits2_pos m) - 1) + k) by lia.
  rewrite !Z.pow_add_r by lia.
  assert (0 < 2 ^ k) by (apply Z.pow_pos_nonneg; lia). nia.
Qed.

(** [binary_round] feeds [binary_round_aux] a well-formed input. *)
Lemma binary_round_input (mS : positive) (eS D : Z) :
  -1200 <= eS -> 0 < D ->
  let '(mz, ez) := shl_align mS eS (fexp prec emax (Zpos (digits2_pos mS) + eS)) in
  round_input (Zpos mS * (grid eS * D)) D (Zpos mz) ez loc_Exact.
Proof.
  intros He HD.
  set (ef := fexp prec emax (Zpos (digits2_pos mS) + eS)).
  assert (Hef : -1074 <= ef) by (unfold ef; rewrite fexp_eq; lia).
  pose proof (shl_align_spec mS eS ef ltac:(lia)) as Hspec.
  destruct (shl_align mS eS ef) as [mz ez]. destruct Hspec as [Hv Hez].
  pose proof (grid_pos eS He) as Hg. pose proof (grid_pos ez ltac:(lia)) as Hgz.
  assert (Hdig : Zpos (digits2_pos mz) + ez = Zpos (digits2_pos mS) + eS).
  { assert (Hk : 0 <= eS - ez) by lia.
    rewrite (digits2_pos_mul_pow2 mS (eS - ez) mz Hk); [lia |].
    replace eS with (ez + (eS - ez)) in Hv at 1 by lia.
    rewrite grid_add in Hv by lia. nia. }
  split; try lia.
  - cbn [Zdigits2]. rewrite Hdig. fold ef. lia.
  - split; [lia |]. split; [nia | nia].
Qed.

(** ** The order of [SFleb] *)

Lemma SFleb_refl_finite (s : bool) (p : positive) (e : Z) :
  SFleb (S754_finite s p e) (S754_finite s p e) = true.
Proof.
  unfold SFleb, SFcompare. rewrite Z.compare_refl.
  change (Pos.compare_cont Eq p p) with (Pos.compare p p).
  rewrite Pos.compare_refl. now destruct s.
Qed.

Lemma lex_spec (e : Z) (p : positive) (e' : Z) (p' : positive) :
  match lex e p e' p' with
  | Lt => e < e' \/ (e = e' /\ (p < p')%positive)
  | Eq => e = e' /\ p = p'
  | Gt => e' < e \/ (e = e' /\ (p' < p)%positive)
  end.
Proof.
  unfold lex. destruct (Z.compare_spec e e'); try lia.
  change (Pos.compare_cont Eq p p') with (Pos.compare p p').
  destruct (Pos.compare_spec p p'); lia.
Qed.

Lemma SFcompare_finite (s s' : bool) (p : positive) (e : Z) (p' : positive) (e' : Z) :
  SFcompare (S754_finite s p e) (S754_finite s' p' e') =
  Some match s, s' with
       | true, false => Lt
       | false, true => Gt
       | false, false => lex e p e' p'
       | true, true => CompOpp (lex e p e' p')
       end.
Proof.
  unfold lex. cbn [SFcompare]. destruct s, s'; try reflexivity.
  now destruct (e ?= e').
Qed.

Lemma SFleb_trans (x y z : spec_float) :
  SFleb x y = true -> SFleb y z = true -> SFleb x z = true.
Proof.
  unfold SFleb.
  destruct x as [sx|sx| |sx px ex], y as [sy|sy| |sy py ey], z as [sz|sz| |sz pz ez];
    rewrite ?SFcompare_finite; cbn [SFcompare];
    try discriminate; try reflexivity;
    try (destruct sx; (discriminate || reflexivity));
    try (destruct sy; (discriminate || reflexivity));
    try (destruct sz; (discriminate || reflexivity));
    try (destruct sx, sy; (discriminate || reflexivity));
    try (destruct sx, sz; (discriminate || reflexivity));
    try (destruct sy, sz; (discriminate || reflexivity));
    try (destruct sx, sy, sz; (discriminate || reflexivity)).
  pose proof (lex_spec ex px ey py) as H1; pose proof (lex_spec ey py ez pz) as H2;
    pose proof (lex_spec ex px ez pz) as H3.
  destruct sx, sy, sz; try discriminate; try reflexivity;
    destruct (lex ex px ey py), (lex ey py ez pz), (lex ex px ez pz);
    cbn; try discriminate; try reflexivity; lia.
Qed.

(** ** Non-negative floats *)

Lemma zero_le_nonneg (x : spec_float) : SFleb (S754_zero false) x = true <-> nonneg x.
Proof.
  destruct x as [s|[|]| |[|] p e]; unfold SFleb; cbn; split; intro;
    try discriminate; try reflexivity; try exact I; try contradiction.
Qed.

Lemma nonneg_fin_or_inf (m e : Z) : nonneg (fin_or_inf m e).
Proof.
  destruct m; cbn [fin_or_inf]; try exact I.
  destruct (e <=? emax - prec); exact I.
Qed.

Lemma nonneg_out (m e : Z) : nonneg (out m e).
Proof. unfold out. destruct (m =? 2 ^ 53); apply nonneg_fin_or_inf. Qed.

Lemma le_infinity (x : spec_float) : nonneg x -> SFleb x (S754_infinity false) = true.
Proof.
  destruct x as [s|[|]| |[|] p e]; unfold SFleb; cbn; intro;
    try reflexivity; contradiction.
Qed.

(** The value of a canonical pair follows [SFleb]. *)
Lemma SFleb_value (p : positive) (e : Z) (p' : positive) (e' : Z) :
  canonical (Zpos p) e -> canonical (Zpos p') e' ->
  SFleb (S754_finite false p e) (S754_finite false p' e') = true ->
  Zpos p * grid e <= Zpos p' * grid e'.
Proof.
  intros (Hp & He & Hn) (Hp' & He' & Hn'). unfold SFleb. cbn [SFcompare].
  fold (lex e p e' p'). pose proof (lex_spec e p e' p') as Hl.
  pose proof (grid_pos e ltac:(lia)) as Hg.
  destruct (lex e p e' p'); try discriminate; intros _.
  - destruct Hl as [-> ->]. lia.
  - destruct Hl as [Hlt | [-> Hlt]]; [| nia].
    pose proof (grid_double e e' ltac:(lia) Hlt).
    assert (2 ^ 52 <= Zpos p') by lia.
    change (2 ^ 53) with (2 ^ 52 * 2) in Hp. nia.
Qed.

(** ** Addition *)

Lemma shl_align_fst (mx : positive) (ex ez : Z) :
  -1200 <= ez -> ez <= ex ->
  Zpos (fst (shl_align mx ex ez)) * grid ez = Zpos mx * grid ex.
Proof.
  intros He Hle. pose proof (shl_align_spec mx ex ez He) as Hs.
  destruct (shl_align mx ex ez) as [m e]. cbn [fst]. destruct Hs as [Hv ->].
  now replace (Z.min ex ez) with ez in Hv by lia.
Qed.

Lemma SFadd_finite (p1 : positive) (e1 : Z) (p2 : positive) (e2 : Z) :
  canonical (Zpos p1) e1 -> e1 <= 971 -> canonical (Zpos p2) e2 ->
  SFleb (S754_finite false p1 e1)
        (SFadd prec emax (S754_finite false p1 e1) (S754_finite false p2 e2)) = true.
Proof.
  intros Hc1 Hmax1 Hc2.
  assert (He1 : -1074 <= e1) by apply Hc1. assert (He2 : -1074 <= e2) by apply Hc2.
  cbn [SFadd cond_Zopp]. set (ez := Z.min e1 e2).
  pose proof (shl_align_fst p1 e1 ez ltac:(lia) ltac:(lia)) as Hv1.
  pose proof (shl_align_fst p2 e2 ez ltac:(lia) ltac:(lia)) as Hv2.
  set (a := fst (shl_align p1 e1 ez)) in *. set (b := fst (shl_align p2 e2 ez)) in *.
  change (Zpos a + Zpos b) with (Zpos (a + b)).
  cbn [binary_normalize]. unfold binary_round.
  pose proof (binary_round_input (a + b) ez 1 ltac:(lia) ltac:(lia)) as Hin.
  destruct (shl_align (a + b) ez _) as [mz ez'].
  destruct (round_canonical p1 e1 1 Hc1 Hmax1 ltac:(lia)) as [Hin1 Hfix].
  rewrite <- Hfix at 1.
  apply (round_mono _ _ 1 _ _ _ _ _ _ Hin1 Hin).
  pose proof (grid_pos e2 ltac:(lia)). rewrite Pos2Z.inj_add. nia.
Qed.

Lemma SFadd_nonneg_increases (x c : spec_float) :
  valid_binary x = true -> valid_binary c = true -> nonneg x -> nonneg c ->
  SFleb x (SFadd prec emax x c) = true.
Proof.
  intros Hvx Hvc Hx Hc.
  destruct x as [sx|[|]| |[|] px ex]; try contradiction;
    destruct c as [sc|[|]| |[|] pc ec]; try contradiction;
    try (destruct sx; try destruct sc; reflexivity);
    try reflexivity; try apply SFleb_refl_finite.
  apply valid_binary_canonical in Hvx as [Hcx Hmx].
  apply valid_binary_canonical in Hvc as [Hcc _].
  now apply SFadd_finite.
Qed.

(** ** Multiplication by a frequency multiplier *)

Lemma digits_at_least_53 (p : positive) : 2 ^ 52 <= Zpos p -> 53 <= Zpos (digits2_pos p).
Proof.
  intros Hp. pose proof (digits2_pos_bounds p) as [_ Hhi].
  assert (52 < Zpos (digits2_pos p)) by (apply (Z.pow_lt_mono_r_iff 2); lia). lia.
Qed.

Lemma SFmul_nonneg (a : spec_float) (pk : positive) (ek : Z) :
  valid_binary a = true -> nonneg a ->
  2 ^ 52 <= Zpos pk -> -126 <= ek ->
  nonneg (SFmul prec emax a (S754_finite false pk ek)).
Proof.
  intros Hva Ha Hpk Hek.
  destruct a as [sa|[|]| |[|] pa ea]; try contradiction; try exact I.
  apply valid_binary_canonical in Hva as [(Hpa & Hea & _) _].
  cbn [SFmul xorb].
  assert (Hprod : 2 ^ 52 <= Zpos (pa * pk)) by (rewrite Pos2Z.inj_mul; nia).
  pose proof (digits_at_least_53 (pa * pk) Hprod) as Hd.
  pose proof (grid_pos (ea + ek) ltac:(lia)) as Hg.
  destruct (binary_round_aux_rne (Zpos (pa * pk) * (grid (ea + ek) * 1)) 1
              (Zpos (pa * pk)) (ea + ek) loc_Exact) as (-> & _); try lia.
  - cbn [Zdigits2]. rewrite fexp_eq. lia.
  - split; [lia | split; [nia | reflexivity]].
  - apply nonneg_out.
Qed.

(** ** [toFixed]: the nearest hundredth *)

Lemma grid_0 : grid 0 = 2 ^ 1200.
Proof. reflexivity. Qed.

Lemma nearest_hundredths_value (m : positive) (e : Z) :
  -1200 <= e ->
  Binary64.nearest_hundredths m e = (200 * (Zpos m * grid e) + 2 ^ 1200) / 2 ^ 1201.
Proof.
  intros He. unfold Binary64.nearest_hundredths.
  destruct e as [|k|k].
  - rewrite grid_0. change (2 ^ 0) with 1. change (2 ^ 1201) with (2 ^ 1200 * 2).
    set (G := 2 ^ 1200). assert (0 < G) by (apply Z.pow_pos_nonneg; lia).
    replace (200 * (Zpos m * G) + G) with (G * (2 * (100 * Zpos m) + 1)) by ring.
    rewrite Z.div_mul_cancel_l by lia.
    rewrite Z.mul_1_r. apply Z.div_unique with 1; lia.
  - replace (Zpos k) with (0 + Zpos k) at 2 by lia.
    rewrite grid_add, grid_0 by lia. change (2 ^ 1201) with (2 ^ 1200 * 2).
    set (G := 2 ^ 1200). assert (0 < G) by (apply Z.pow_pos_nonneg; lia).
    set (P := 2 ^ Zpos k).
    replace (200 * (Zpos m * (P * G)) + G) with (G * (2 * (100 * (Zpos m * P)) + 1)) by ring.
    rewrite Z.div_mul_cancel_l by lia.
    apply Z.div_unique with 1; lia.
  - assert (Hk : Zpos k <= 1200) by lia.
    set (g := grid (Zneg k)). set (P := 2 ^ Zpos k).
    assert (Hg : 0 < g) by (apply grid_pos; lia).
    assert (HP : 0 < P) by (apply Z.pow_pos_nonneg; lia).
    assert (HgP : g * P = 2 ^ 1200).
    { unfold g, P, grid. rewrite <- Z.pow_add_r by lia. f_equal. lia. }
    change (2 ^ 1201) with (2 ^ 1200 * 2). rewrite <- HgP.
    replace (200 * (Zpos m * g) + g * P) with (g * (200 * Zpos m + P)) by ring.
    replace (g * P * 2) with (g * (2 * P)) by ring.
    now rewrite Z.div_mul_cancel_l by lia.
Qed.

Lemma at_least_1e21_value (m : positive) (e : Z) :
  -1200 <= e ->
  Binary64.at_least_1e21 m e = (10 ^ 21 * 2 ^ 1200 <=? Zpos m * grid e).
Proof.
  intros He. unfold Binary64.at_least_1e21.
  destruct e as [|k|k].
  - rewrite grid_0. change (2 ^ 0) with 1.
    set (G := 2 ^ 1200). assert (0 < G) by (apply Z.pow_pos_nonneg; lia).
    destruct (Z.leb_spec (10 ^ 21) (Zpos m * 1)), (Z.leb_spec (10 ^ 21 * G) (Zpos m * G));
      try reflexivity; nia.
  - replace (Zpos k) with (0 + Zpos k) at 2 by lia.
    rewrite grid_add, grid_0 by lia.
    set (G := 2 ^ 1200). assert (0 < G) by (apply Z.pow_pos_nonneg; lia).
    set (P := 2 ^ Zpos k).
    destruct (Z.leb_spec (10 ^ 21) (Zpos m * P)), (Z.leb_spec (10 ^ 21 * G) (Zpos m * (P * G)));
      try reflexivity; nia.
  - assert (Hk : Zpos k <= 1200) by lia.
    set (g := grid (Zneg k)). set (P := 2 ^ Zpos k).
    assert (Hg : 0 < g) by (apply grid_pos; lia).
    assert (HP : 0 < P) by (apply Z.pow_pos_nonneg; lia).
    assert (HgP : g * P = 2 ^ 1200).
    { unfold g, P, grid. rewrite <- Z.pow_add_r by lia. f_equal. lia. }
    rewrite <- HgP.
    destruct (Z.leb_spec (10 ^ 21 * P) (Zpos m)), (Z.leb_spec (10 ^ 21 * (g * P)) (Zpos m * g));
      try reflexivity; nia.
Qed.

Lemma nearest_hundredths_mono (m : positive) (e : Z) (m' : positive) (e' : Z) :
  -1200 <= e -> -1200 <= e' ->
  Zpos m * grid e <= Zpos m' * grid e' ->
  Binary64.nearest_hundredths m e <= Binary64.nearest_hundredths m' e'.
Proof.
  intros He He' Hle. rewrite !nearest_hundredths_value by assumption.
  apply Z.div_le_mono; [apply Z.pow_pos_nonneg; lia | lia].
Qed.

Lemma nearest_hundredths_nonneg (m : positive) (e : Z) :
  -1200 <= e -> 0 <= Binary64.nearest_hundredths m e.
Proof.
  intros He. rewrite nearest_hundredths_value by assumption.
  pose proof (grid_pos e He).
  apply Z.div_pos; [| apply Z.pow_pos_nonneg; lia].
  assert (0 < 2 ^ 1200) by (apply Z.pow_pos_nonneg; lia). nia.
Qed.

(** Below [10^21] the nearest hundredth is at most [10^23] hundredths. *)
Lemma nearest_hundredths_small (m : positive) (e : Z) :
  -1200 <= e -> Binary64.at_least_1e21 m e = false ->
  Binary64.nearest_hundredths m e * 2 ^ 1200 <= 100 * (10 ^ 21 * 2 ^ 1200).
Proof.
  intros He Hs. rewrite at_least_1e21_value in Hs by assumption.
  apply Z.leb_gt in Hs. rewrite nearest_hundredths_value by assumption.
  change (2 ^ 1201) with (2 ^ 1200 * 2) in *.
  set (G := 2 ^ 1200) in *. assert (0 < G) by (apply Z.pow_pos_nonneg; lia).
  set (V := Zpos m * grid e) in *.
  assert ((200 * V + G) / (G * 2) < 10 ^ 23 + 1).
  { apply Z.div_lt_upper_bound; [lia |].
    change (10 ^ 23) with (100 * 10 ^ 21). nia. }
  change (10 ^ 23) with (100 * 10 ^ 21) in *. nia.
Qed.

(** ** [Number(s)]: the division by 100 *)

Lemma SFdiv_core_hundredths (n : positive) :
  let d := Zpos (digits2_pos n) in
  let E := Z.min (d - 60) 0 in
  let m' := Zpos n * 2 ^ (- E) in
  SFdiv_core_binary prec emax (Zpos n) 0 100 0 =
  (m' / 100, E, new_location 100 (m' mod 100)).
Proof.
  intros d E m'. unfold SFdiv_core_binary. cbv zeta. cbn [Zdigits2].
  change (Zpos (digits2_pos 100)) with 7. fold d.
  assert (Hd : 0 < d) by (unfold d; lia).
  replace (IntDef.Z.min (fexp prec emax (d + 0 - (7 + 0))) (0 - 0)) with E
    by (unfold E; rewrite fexp_eq; change IntDef.Z.min with Z.min; lia).
  replace (0 - 0 - E) with (- E) by lia.
  assert (Hm' : match - E with
                | 0 => Zpos n
                | Zpos _ => IntDef.Z.shiftl (Zpos n) (- E)
                | Zneg _ => 0
                end = m').
  { unfold m'. assert (HE : 0 <= - E) by (unfold E; lia).
    destruct (- E) as [|k|k]; [change (2 ^ 0) with 1; lia | | lia].
    change IntDef.Z.shiftl with Z.shiftl. now rewrite Z.shiftl_mul_pow2 by lia. }
  rewrite Hm'.
  change IntDef.Z.div_eucl with Z.div_eucl.
  unfold Z.div, Z.modulo. now destruct (Z.div_eucl m' 100).
Qed.

Lemma compare_mul_r (a b g : Z) : 0 < g -> (a * g ?= b * g) = (a ?= b).
Proof.
  intros Hg. destruct (Z.compare_spec a b) as [-> | Hlt | Hgt].
  - apply Z.compare_refl.
  - apply Z.compare_lt_iff. nia.
  - apply Z.compare_gt_iff. nia.
Qed.

(** The decimal [n / 100] reaches [binary_round_aux] as a well-formed input. *)
Lemma SFdiv_hundredths (n : positive) :
  exists q e l,
    SFdiv prec emax (S754_finite false n 0) (S754_finite false 100 0) =
      binary_round_aux prec emax false q e l /\
    round_input (Zpos n * 2 ^ 1200) 100 q e l.
Proof.
  pose proof (SFdiv_core_hundredths n) as Hcore. cbv zeta in Hcore.
  set (d := Zpos (digits2_pos n)) in *. set (E := Z.min (d - 60) 0) in *.
  set (m' := Zpos n * 2 ^ (- E)) in *.
  exists (m' / 100), E, (new_location 100 (m' mod 100)).
  split; [cbn [SFdiv xorb]; now rewrite Hcore |].
  assert (Hd : 0 < d) by (unfold d; lia).
  assert (HE : -1200 <= E <= 0) by (unfold E; lia).
  pose proof (digits2_pos_bounds n) as [Hdlo _]. fold d in Hdlo.
  pose proof (grid_pos E ltac:(lia)) as Hg.
  assert (HgE : 2 ^ (- E) * grid E = 2 ^ 1200).
  { unfold grid. rewrite <- Z.pow_add_r by lia. f_equal. lia. }
  assert (Hm'59 : 2 ^ 59 <= m').
  { unfold m'.
    assert (2 ^ 59 <= 2 ^ (d - 1) * 2 ^ (- E)).
    { rewrite <- Z.pow_add_r by lia. apply Z.pow_le_mono_r; unfold E; lia. }
    assert (0 < 2 ^ (- E)) by (apply Z.pow_pos_nonneg; lia). nia. }
  pose proof (Z.div_mod m' 100 ltac:(lia)) as Hdm.
  pose proof (Z.mod_pos_bound m' 100 ltac:(lia)) as Hr.
  set (q := m' / 100) in *. set (r := m' mod 100) in *.
  assert (Hq : 2 ^ 52 <= q).
  { change (2 ^ 59) with (2 ^ 52 * 128) in Hm'59. lia. }
  assert (HN : Zpos n * 2 ^ 1200 = m' * grid E) by (unfold m'; rewrite <- HgE; ring).
  split; try lia.
  - destruct q as [|pq|pq]; try lia. cbn [Zdigits2].
    pose proof (digits_at_least_53 pq Hq). rewrite fexp_eq. lia.
  - rewrite HN. split; [lia |]. split; [nia |].
    unfold new_location. change (Z.even 100) with true. unfold new_location_even.
    destruct (Z.eqb_spec r 0) as [Hr0 | Hr0].
    + nia.
    + split; [nia |].
      replace (2 * (m' * grid E)) with ((2 * m') * grid E) by ring.
      replace ((2 * q + 1) * (grid E * 100)) with (((2 * q + 1) * 100) * grid E) by ring.
      rewrite compare_mul_r by assumption.
      change (Z.mul 2 r) with (2 * r).
      destruct (Z.compare_spec (2 * r) 100) as [He | Hl | Hgt].
      * apply Z.compare_eq_iff. lia.
      * apply Z.compare_lt_iff. lia.
      * apply Z.compare_gt_iff. lia.
Qed.

(** ** [Number(x.toFixed(2))] on specifications *)

Lemma round_valid (N D m e : Z) (l : location) :
  round_input N D m e l ->
  valid_binary (binary_round_aux prec emax false m e l) = true /\
  nonneg (binary_round_aux prec emax false m e l).
Proof.
  intros [HD Hm He Hpre Hrep].
  destruct (binary_round_aux_rne N D m e l HD Hm He Hpre Hrep) as (-> & Hr & He1 & Hn).
  split; [now apply out_valid | apply nonneg_out].
Qed.

Lemma SFdiv_hundredths_valid (n : positive) :
  valid_binary (SFdiv prec emax (S754_finite false n 0) (S754_finite false 100 0)) = true /\
  nonneg (SFdiv prec emax (S754_finite false n 0) (S754_finite false 100 0)).
Proof.
  destruct (SFdiv_hundredths n) as (q & e & l & -> & Hin).
  exact (round_valid _ _ _ _ _ Hin).
Qed.

Lemma Prim2SF_toFixed2 (x : float) :
  nonneg (Prim2SF x) ->
  Prim2SF (Binary64.toFixed2_double x) = toFixed2_spec (Prim2SF x).
Proof.
  intros Hx. unfold Binary64.toFixed2_double, toFixed2_spec.
  destruct (Prim2SF x) as [s|[|]| |[|] m e] eqn:E; try contradiction;
    try reflexivity; try exact E.
  destruct (Binary64.at_least_1e21 m e); [exact E |].
  unfold Binary64.parse_hundredths.
  destruct (Binary64.nearest_hundredths m e) as [|n|n]; try reflexivity.
  apply Prim2SF_SF2Prim, SFdiv_hundredths_valid.
Qed.

Lemma nonneg_toFixed2_spec (x : spec_float) : nonneg x -> nonneg (toFixed2_spec x).
Proof.
  intros Hx. destruct x as [s|[|]| |[|] m e]; try contradiction; try exact I.
  cbn [toFixed2_spec]. destruct (Binary64.at_least_1e21 m e); [exact I |].
  destruct (Binary64.nearest_hundredths m e) as [|n|n]; try exact I.
  apply SFdiv_hundredths_valid.
Qed.

Theorem toFixed2_spec_mono (x y : spec_float) :
  valid_binary x = true -> valid_binary y = true -> nonneg x ->
  SFleb x y = true -> SFleb (toFixed2_spec x) (toFixed2_spec y) = true.
Proof.
  intros Hvx Hvy Hx Hxy.
  assert (Hy : nonneg y).
  { apply zero_le_nonneg. apply zero_le_nonneg in Hx. exact (SFleb_trans _ _ _ Hx Hxy). }
  pose proof (nonneg_toFixed2_spec y Hy) as Hty.
  destruct x as [sx|[|]| |[|] px ex]; try contradiction.
  - (* zero *) now apply zero_le_nonneg.
  - (* infinity *)
    destruct y as [sy|[|]| |[|] py ey]; try contradiction; try discriminate Hxy.
    reflexivity.
  - destruct y as [sy|[|]| |[|] py ey]; try contradiction; try discriminate Hxy.
    + (* y infinite *) apply le_infinity. now apply nonneg_toFixed2_spec.
    + apply valid_binary_canonical in Hvx as [Hcx Hmx].
      apply valid_binary_canonical in Hvy as [Hcy Hmy].
      pose proof (SFleb_value _ _ _ _ Hcx Hcy Hxy) as Hv.
      assert (Hex : -1200 <= ex) by (destruct Hcx as (_ & ? & _); lia).
      assert (Hey : -1200 <= ey) by (destruct Hcy as (_ & ? & _); lia).
      pose proof (nearest_hundredths_mono px ex py ey Hex Hey Hv) as Hn.
      pose proof (nearest_hundredths_nonneg px ex Hex) as Hn0.
      cbn [toFixed2_spec] in *.
      destruct (Binary64.at_least_1e21 px ex) eqn:Hax;
        destruct (Binary64.at_least_1e21 py ey) eqn:Hay.
      * exact Hxy.
      * rewrite at_least_1e21_value in Hax, Hay by assumption.
        apply Z.leb_le in Hax. apply Z.leb_gt in Hay. lia.
      * (* x below 1e21, y from 1e21 on *)
        pose proof (nearest_hundredths_small px ex Hex Hax) as Hsmall.
        rewrite at_least_1e21_value in Hay by assumption. apply Z.leb_le in Hay.
        destruct (Binary64.nearest_hundredths px ex) as [|n|n]; try reflexivity.
        destruct (SFdiv_hundredths n) as (q & e & l & -> & Hin).
        destruct (round_canonical py ey 100 Hcy Hmy ltac:(lia)) as [Hiny Hfix].
        rewrite <- Hfix.
        apply (round_mono _ _ 100 _ _ _ _ _ _ Hin Hiny). lia.
      * (* both below 1e21 *)
        destruct (Binary64.nearest_hundredths px ex) as [|n|n];
          [now apply zero_le_nonneg | | lia].
        destruct (Binary64.nearest_hundredths py ey) as [|n'|n']; try lia.
        destruct (SFdiv_hundredths n) as (q & e & l & -> & Hin).
        destruct (SFdiv_hundredths n') as (q' & e' & l' & -> & Hin').
        apply (round_mono _ _ 100 _ _ _ _ _ _ Hin Hin').
        assert (0 < 2 ^ 1200) by (apply Z.pow_pos_nonneg; lia). nia.
Qed.

(** ** The four laws on doubles *)

Lemma Prim2SF_zero : Prim2SF (Binary64.of_Z 0) = S754_zero false.
Proof. reflexivity. Qed.

Lemma nonneg_double (x : float) :
  PrimFloat.leb (Binary64.of_Z 0) x = true <-> nonneg (Prim2SF x).
Proof. rewrite leb_spec, Prim2SF_zero. apply zero_le_nonneg. Qed.

Lemma double_leb_trans (x y z : float) :
  PrimFloat.leb x y = true -> PrimFloat.leb y z = true -> PrimFloat.leb x z = true.
Proof. rewrite !leb_spec. apply SFleb_trans. Qed.

Lemma double_add_nonneg_increases (x c : float) :
  PrimFloat.leb (Binary64.of_Z 0) x = true -> PrimFloat.leb (Binary64.of_Z 0) c = true ->
  PrimFloat.leb x (x + c)%float = true.
Proof.
  rewrite !nonneg_double, leb_spec, add_spec. intros Hx Hc.
  apply SFadd_nonneg_increases; auto using Prim2SF_valid.
Qed.

Lemma double_multiplier_nonneg (a : float) (f : string) :
  PrimFloat.leb (Binary64.of_Z 0) a = true ->
  PrimFloat.leb (Binary64.of_Z 0) (a * frequencyMultiplier f)%float = true.
Proof.
  rewrite !nonneg_double, mul_spec. intros Ha.
  assert (Hk : exists pk ek, Prim2SF (frequencyMultiplier f) = S754_finite false pk ek /\
                             2 ^ 52 <= Zpos pk /\ -126 <= ek).
  { unfold frequencyMultiplier.
    destruct (String.eqb f "monthly"); [| destruct (String.eqb f "quarterly")];
      eexists; eexists; (split; [vm_compute; reflexivity | split; vm_compute; discriminate]). }
  destruct Hk as (pk & ek & -> & Hpk & Hek).
  apply SFmul_nonneg; auto using Prim2SF_valid.
Qed.

Lemma double_toFixed2_monotone (x y : float) :
  PrimFloat.leb (Binary64.of_Z 0) x = true -> PrimFloat.leb x y = true ->
  PrimFloat.leb (Binary64.toFixed2_double x) (Binary64.toFixed2_double y) = true.
Proof.
  intros Hx Hxy.
  assert (Hy : PrimFloat.leb (Binary64.of_Z 0) y = true) by exact (double_leb_trans _ _ _ Hx Hxy).
  apply nonneg_double in Hx, Hy. rewrite leb_spec in *.
  rewrite !Prim2SF_toFixed2 by assumption.
  apply toFixed2_spec_mono; auto using Prim2SF_valid.
Qed.

#[global] Instance number_order_double : NumberOrder float.
Proof.
  split.
  - exact double_leb_trans.
  - exact double_add_nonneg_increases.
  - exact double_multiplier_nonneg.
  - exact double_toFixed2_monotone.
Qed.

End Binary64Order.

(** ** Arithmetic on non-negative doubles *)

Module Binary64Arith.

Import Rounding Nearest Binary64Order Format.

(** *** Rounding, also across underflow *)

Theorem binary_round_aux_nearest (N D m e : Z) (l : location) :
  nearest_input N D m e l ->
  let e1 := fexp prec emax (Zdigits2 m + e) in
  let m_r := rne N (grid e1 * D) in
  binary_round_aux prec emax false m e l = out m_r e1 /\
  0 <= m_r <= 2 ^ 53 /\ -1074 <= e1 /\ (2 ^ 52 <= m_r \/ e1 = -1074).
Proof.
  intros (HD & Hm & He & Hpre & Hrep) e1 m_r.
  destruct (Z.eq_dec m 0) as [-> | Hne].
  - cbn [Zdigits2] in *. rewrite fexp_eq in Hpre.
    assert (He74 : e <= -1074) by lia.
    assert (He1 : e1 = -1074) by (unfold e1; cbn [Zdigits2]; rewrite fexp_eq; lia).
    pose proof (grid_pos e He) as Hg. pose proof (grid_pos e1 ltac:(lia)) as Hg1.
    pose proof (grid_le e e1 He ltac:(lia)) as Hgle.
    assert (HD1 : 0 < grid e1 * D) by nia.
    destruct Hrep as (Hm0 & [Hlo Hhi] & Hl).
    assert (HN1 : 0 <= N < grid e1 * D) by nia.
    assert (Hbounds : 0 <= m_r <= 1).
    { pose proof (rne_bounds N (grid e1 * D)) as [Hb1 Hb2]. fold m_r in Hb1, Hb2.
      rewrite Z.div_small in Hb1, Hb2 by lia. lia. }
    split; [| split; [| split; [lia | now right]]].
    + pose proof (shr_fexp_rep N D 0 e l HD He
                    (conj Hm0 (conj (conj Hlo Hhi) Hl))) as (mrs & Hshr & Hrep1).
      cbn [Zdigits2] in Hshr, Hrep1. change (0 + e) with e in Hshr, Hrep1.
      replace (Z.max e (fexp prec emax e)) with e1 in Hshr, Hrep1
        by (unfold e1; cbn [Zdigits2]; change (0 + e) with e; rewrite fexp_eq; lia).
      unfold binary_round_aux. rewrite Hshr.
      rewrite (rne_rep N (grid e1 * D) _ _ HD1 Hrep1). fold m_r.
      apply second_shift; [| lia].
      assert (1 <= 2 ^ 53) by (apply Z.pow_le_mono_r with (b := 0); lia). lia.
    + assert (1 <= 2 ^ 53) by (apply Z.pow_le_mono_r with (b := 0); lia). lia.
  - exact (binary_round_aux_rne N D m e l HD ltac:(lia) He Hpre Hrep).
Qed.

Lemma nearest_input_size (N D m e : Z) (l : location) :
  nearest_input N D m e l -> 0 < N ->
  let e1 := fexp prec emax (Zdigits2 m + e) in
  N < 2 ^ 53 * (grid e1 * D) /\ (e1 <> -1074 -> 2 ^ 52 * (grid e1 * D) <= N).
Proof.
  intros (HD & Hm & He & Hpre & (Hm0 & [Hlo Hhi] & Hl)) HN e1.
  assert (He1 : -1074 <= e1) by (unfold e1; rewrite fexp_eq; lia).
  pose proof (grid_pos e He) as Hg. pose proof (grid_pos e1 ltac:(lia)) as Hg1.
  destruct m as [|p|p]; [| | lia].
  - cbn [Zdigits2] in *. rewrite fexp_eq in Hpre.
    assert (e1 = -1074) by (unfold e1; cbn [Zdigits2]; rewrite fexp_eq; lia).
    pose proof (grid_le e e1 He ltac:(lia)) as Hgle.
    assert (1 <= 2 ^ 53) by (apply Z.pow_le_mono_r with (b := 0); lia).
    split; [nia | lia].
  - cbn [Zdigits2] in *.
    pose proof (digits2_pos_bounds p) as [Hdlo Hdhi].
    set (d := Zpos (digits2_pos p)) in *.
    assert (Hd : 0 < d) by (unfold d; lia).
    split.
    + assert (2 ^ d * grid e <= 2 ^ 53 * grid e1).
      { rewrite !pow2_grid by lia. apply Z.pow_le_mono_r; [lia |].
        unfold e1. rewrite fexp_eq. lia. }
      nia.
    + intros Hn.
      assert (He1' : e1 = d + e - 53) by (unfold e1 in *; rewrite fexp_eq in *; lia).
      assert (2 ^ 52 * grid e1 = 2 ^ (d - 1) * grid e).
      { rewrite !pow2_grid by lia. f_equal. lia. }
      nia.
Qed.

(** Rounding is monotone, also across underflow. *)
Theorem nearest_mono (N N' D m e m' e' : Z) (l l' : location) :
  nearest_input N D m e l -> nearest_input N' D m' e' l' -> 0 < N -> N <= N' ->
  SFleb (binary_round_aux prec emax false m e l)
        (binary_round_aux prec emax false m' e' l') = true.
Proof.
  intros Hi Hi' HN Hle.
  pose proof (nearest_input_size _ _ _ _ _ Hi HN) as [Hs1 Hs2].
  pose proof (nearest_input_size _ _ _ _ _ Hi' ltac:(lia)) as [Hs1' Hs2'].
  destruct (binary_round_aux_nearest N D m e l Hi) as (-> & Hr & He1 & Hn).
  destruct (binary_round_aux_nearest N' D m' e' l' Hi') as (-> & Hr' & He1' & Hn').
  destruct Hi as (HD & _).
  set (e1 := fexp prec emax (Zdigits2 m + e)) in *.
  set (e1' := fexp prec emax (Zdigits2 m' + e')) in *.
  apply out_le; try assumption.
  pose proof (grid_pos e1 ltac:(lia)) as Hg. pose proof (grid_pos e1' ltac:(lia)) as Hg'.
  assert (He11 : e1 <= e1').
  { destruct (Z.eq_dec e1 (-1074)) as [|Hne]; [lia |].
    specialize (Hs2 Hne).
    assert (Hlt : 2 ^ 52 * grid e1 < 2 ^ 53 * grid e1') by nia.
    change (2 ^ 53) with (2 * 2 ^ 52) in Hlt.
    destruct (Z_le_gt_dec e1 e1') as [|Hgt]; [assumption | exfalso].
    pose proof (grid_double e1' e1 ltac:(lia) ltac:(lia)). nia. }
  destruct (Z.eq_dec e1 e1') as [Heq | Hne].
  - rewrite <- Heq in *.
    pose proof (rne_mono N N' (grid e1 * D) ltac:(nia) Hle). nia.
  - pose proof (grid_double e1 e1' ltac:(lia) ltac:(lia)) as Hdbl.
    assert (2 ^ 52 <= rne N' (grid e1' * D)) by lia.
    change (2 ^ 53) with (2 ^ 52 * 2) in Hr. nia.
Qed.

Lemma SFleb_zero_nonneg (s : bool) (x : spec_float) :
  nonneg x -> SFleb (S754_zero s) x = true.
Proof. destruct x as [s'|[|]| |[|] p e]; intros Hx; try contradiction; reflexivity. Qed.

Lemma nearest_input_valid (N D m e : Z) (l : location) :
  nearest_input N D m e l ->
  valid_binary (binary_round_aux prec emax false m e l) = true /\
  nonneg (binary_round_aux prec emax false m e l).
Proof.
  intros Hi.
  destruct (binary_round_aux_nearest N D m e l Hi) as (-> & Hr & He1 & Hn).
  split; [now apply out_valid | apply nonneg_out].
Qed.

Lemma rounded_valid (N D : Z) (r : spec_float) :
  rounded N D r -> valid_binary r = true /\ nonneg r.
Proof.
  intros [[_ [s ->]] | [_ (m & e & l & Hi & ->)]].
  - split; [reflexivity | exact I].
  - exact (nearest_input_valid _ _ _ _ _ Hi).
Qed.

Theorem rounded_mono (N N' D : Z) (r r' : spec_float) :
  rounded N D r -> rounded N' D r' -> N <= N' -> SFleb r r' = true.
Proof.
  intros Hr Hr' Hle.
  destruct Hr as [[-> [s ->]] | [HN (m & e & l & Hi & ->)]].
  - apply SFleb_zero_nonneg. exact (proj2 (rounded_valid _ _ _ Hr')).
  - destruct Hr' as [[-> _] | [HN' (m' & e' & l' & Hi' & ->)]]; [lia |].
    exact (nearest_mono _ _ _ _ _ _ _ _ _ Hi Hi' HN Hle).
Qed.

Lemma compare_mul_l (a b g : Z) : 0 < g -> (g * a ?= g * b) = (a ?= b).
Proof. intros Hg. rewrite !(Z.mul_comm g). now apply compare_mul_r. Qed.

Lemma rep_loc_scale (N D m k : Z) (l : location) :
  0 < k -> rep_loc N D m l -> rep_loc (k * N) (k * D) m l.
Proof.
  intros Hk (Hm & [Hlo Hhi] & Hl). split; [exact Hm | split; [nia |]].
  destruct l as [|c].
  - nia.
  - destruct Hl as [Hne Hc]. split; [nia |].
    replace (2 * (k * N)) with (k * (2 * N)) by ring.
    replace ((2 * m + 1) * (k * D)) with (k * ((2 * m + 1) * D)) by ring.
    now rewrite compare_mul_l.
Qed.

Lemma rounded_scale (N D k : Z) (r : spec_float) :
  0 < k -> rounded N D r -> rounded (k * N) (k * D) r.
Proof.
  intros Hk [[-> Hs] | [HN (m & e & l & (HD & Hm & He & Hpre & Hrep) & ->)]].
  - left. split; [lia | exact Hs].
  - right. split; [nia |]. exists m, e, l. split; [| reflexivity].
    split; [nia | split; [assumption | split; [assumption | split; [assumption |]]]].
    replace (grid e * (k * D)) with (k * (grid e * D)) by ring.
    now apply rep_loc_scale.
Qed.

(** Two roundings compare as the rationals they round. *)
Theorem rounded_le (N D N' D' : Z) (r r' : spec_float) :
  0 < D -> 0 < D' ->
  rounded N D r -> rounded N' D' r' -> N * D' <= N' * D -> SFleb r r' = true.
Proof.
  intros HD HD' Hr Hr' Hle.
  apply (rounded_scale _ _ D' _ HD') in Hr. apply (rounded_scale _ _ D _ HD) in Hr'.
  replace (D * D') with (D' * D) in Hr' by ring.
  apply (rounded_mono _ _ _ _ _ Hr Hr'). lia.
Qed.

Lemma finite_nonneg_canonical (p : positive) (e : Z) :
  finite_nonneg (S754_finite false p e) -> canonical (Zpos p) e /\ e <= 971.
Proof. intros [Hv _]. now apply valid_binary_canonical in Hv. Qed.

(** A finite float is the rounding of its own value. *)
Lemma rounded_of_finite (x : spec_float) (D : Z) :
  finite_nonneg x -> 0 < D -> rounded (weight x * D) D x.
Proof.
  intros Hx HD. destruct x as [s|s| |[|] p e]; try solve [destruct Hx as [_ []]].
  - left. split; [reflexivity | now exists s].
  - destruct (finite_nonneg_canonical p e Hx) as [Hc Hmax].
    destruct (round_canonical p e D Hc Hmax HD) as [[HD' Hm He Hpre Hrep] Hfix].
    assert (He' : -1200 <= e) by lia. pose proof (grid_pos e He') as Hg.
    right. cbn [weight]. split; [nia |].
    exists (Zpos p), e, loc_Exact. split; [| now rewrite Hfix].
    replace (Zpos p * grid e * D) with (Zpos p * (grid e * D)) by ring.
    split; [assumption | split; [lia | split; [assumption | split; [assumption | exact Hrep]]]].
Qed.

(** ... and of nothing else. *)
Lemma rounded_exact (p : positive) (e D : Z) (r : spec_float) :
  canonical (Zpos p) e -> e <= 971 -> 0 < D ->
  rounded (Zpos p * grid e * D) D r -> r = S754_finite false p e.
Proof.
  intros (Hp & He & Hn) Hmax HD Hr.
  pose proof (grid_pos e ltac:(lia)) as Hg.
  destruct Hr as [[H0 _] | [HN (m & e0 & l & Hi & ->)]]; [nia |].
  pose proof (nearest_input_size _ _ _ _ _ Hi HN) as [Hs1 Hs2].
  destruct (binary_round_aux_nearest _ D m e0 l Hi) as (-> & _ & He1 & _).
  set (e1 := fexp prec emax (Zdigits2 m + e0)) in *.
  pose proof (grid_pos e1 ltac:(lia)) as Hg1.
  assert (Heq : e1 = e).
  { destruct (Z.lt_trichotomy e1 e) as [Hlt | [Heq | Hgt]]; [exfalso | exact Heq | exfalso].
    - pose proof (grid_double e1 e ltac:(lia) Hlt).
      assert (2 ^ 52 <= Zpos p) by lia.
      assert (2 ^ 53 * grid e1 <= Zpos p * grid e)
        by (change (2 ^ 53) with (2 ^ 52 * 2); nia).
      assert (2 ^ 53 * grid e1 * D <= Zpos p * grid e * D)
        by (apply Z.mul_le_mono_nonneg_r; lia).
      lia.
    - pose proof (grid_double e e1 ltac:(lia) Hgt).
      specialize (Hs2 ltac:(lia)).
      assert (Zpos p * grid e < 2 ^ 52 * grid e1)
        by (change (2 ^ 53) with (2 ^ 52 * 2) in Hp; nia).
      assert (Zpos p * grid e * D < 2 ^ 52 * grid e1 * D)
        by (apply Z.mul_lt_mono_pos_r; lia).
      lia. }
  rewrite Heq.
  rewrite (rne_exact _ _ (Zpos p)) by (nia || ring).
  unfold out. destruct (Z.eqb_spec (Zpos p) (2 ^ 53)) as [Hbad | _]; [lia |].
  cbn [fin_or_inf]. change (emax - prec) with 971.
  destruct (Z.leb_spec e 971); [reflexivity | lia].
Qed.

(** [<=] on finite non-negative floats is [<=] on their values. *)
Lemma SFleb_weight (x y : spec_float) :
  finite_nonneg x -> finite_nonneg y ->
  (SFleb x y = true <-> weight x <= weight y).
Proof.
  intros Hx Hy. split.
  - intros Hle.
    destruct x as [s|s| |[|] p e]; try solve [destruct Hx as [_ []]];
      destruct y as [s'|s'| |[|] p' e']; try solve [destruct Hy as [_ []]]; cbn [weight].
    + lia.
    + destruct (finite_nonneg_canonical p' e' Hy) as [(_ & He' & _) _].
      pose proof (grid_pos e' ltac:(lia)). nia.
    + discriminate Hle.
    + destruct (finite_nonneg_canonical p e Hx) as [Hc _].
      destruct (finite_nonneg_canonical p' e' Hy) as [Hc' _].
      now apply SFleb_value.
  - intros Hle.
    apply (rounded_le (weight x * 1) 1 (weight y * 1) 1); try lia;
      now apply rounded_of_finite.
Qed.

Lemma round_input_nearest (N D m e : Z) (l : location) :
  round_input N D m e l -> nearest_input N D m e l.
Proof.
  intros [HD Hm He Hpre Hrep].
  split; [assumption | split; [lia | split; [assumption | split; assumption]]].
Qed.

Lemma grid_mul (a b : Z) : -1200 <= a -> -1200 <= b -> -1200 <= a + b ->
  grid a * grid b = grid (a + b) * 2 ^ 1200.
Proof.
  intros Ha Hb Hab. unfold grid. rewrite <- !Z.pow_add_r by lia. f_equal. lia.
Qed.

(** *** Addition *)

Lemma binary_round_rounded (mS : positive) (eS : Z) :
  -1200 <= eS ->
  rounded (Zpos mS * grid eS) 1 (binary_round prec emax false mS eS).
Proof.
  intros He. pose proof (grid_pos eS He) as Hg.
  right. split; [nia |]. unfold binary_round.
  pose proof (binary_round_input mS eS 1 He ltac:(lia)) as Hin.
  destruct (shl_align mS eS _) as [mz ez].
  exists (Zpos mz), ez, loc_Exact. split; [| reflexivity].
  apply round_input_nearest.
  now replace (Zpos mS * grid eS) with (Zpos mS * (grid eS * 1)) by ring.
Qed.

Lemma SFadd_rounded (x y : spec_float) :
  finite_nonneg x -> finite_nonneg y ->
  rounded (weight x + weight y) 1 (SFadd prec emax x y).
Proof.
  intros Hx Hy.
  destruct x as [s|s| |[|] p e]; try solve [destruct Hx as [_ []]];
    destruct y as [s'|s'| |[|] p' e']; try solve [destruct Hy as [_ []]].
  - left. split; [reflexivity |]. cbn [SFadd]. destruct s, s'; eexists; reflexivity.
  - cbn [SFadd weight]. rewrite Z.add_0_l.
    rewrite <- (Z.mul_1_r (Zpos p' * grid e')).
    apply (rounded_of_finite (S754_finite false p' e')); [assumption | lia].
  - cbn [SFadd weight]. rewrite Z.add_0_r.
    rewrite <- (Z.mul_1_r (Zpos p * grid e)).
    apply (rounded_of_finite (S754_finite false p e)); [assumption | lia].
  - destruct (finite_nonneg_canonical p e Hx) as [(_ & He & _) _].
    destruct (finite_nonneg_canonical p' e' Hy) as [(_ & He' & _) _].
    cbn [SFadd cond_Zopp weight]. change IntDef.Z.min with Z.min.
    set (ez := Z.min e e').
    pose proof (shl_align_fst p e ez ltac:(lia) ltac:(lia)) as Hv1.
    pose proof (shl_align_fst p' e' ez ltac:(lia) ltac:(lia)) as Hv2.
    set (a := fst (shl_align p e ez)) in *. set (b := fst (shl_align p' e' ez)) in *.
    change (Zpos a + Zpos b) with (Zpos (a + b)).
    cbn [binary_normalize].
    replace (Zpos p * grid e + Zpos p' * grid e') with (Zpos (a + b) * grid ez)
      by (rewrite Pos2Z.inj_add; lia).
    apply binary_round_rounded. lia.
Qed.

(** *** Subtraction of the smaller from the larger *)

Lemma SFsub_rounded (x y : spec_float) :
  finite_nonneg x -> finite_nonneg y -> weight x <= weight y ->
  rounded (weight y - weight x) 1 (SFsub prec emax y x).
Proof.
  intros Hx Hy Hle.
  destruct x as [s|s| |[|] p e]; try solve [destruct Hx as [_ []]];
    destruct y as [s'|s'| |[|] p' e']; try solve [destruct Hy as [_ []]].
  - left. split; [reflexivity |]. cbn [SFsub]. destruct s, s'; eexists; reflexivity.
  - cbn [SFsub weight]. rewrite Z.sub_0_r.
    rewrite <- (Z.mul_1_r (Zpos p' * grid e')).
    apply (rounded_of_finite (S754_finite false p' e')); [assumption | lia].
  - exfalso. cbn [weight] in Hle.
    destruct (finite_nonneg_canonical p e Hx) as [(_ & He & _) _].
    pose proof (grid_pos e ltac:(lia)). nia.
  - destruct (finite_nonneg_canonical p e Hx) as [(_ & He & _) _].
    destruct (finite_nonneg_canonical p' e' Hy) as [(_ & He' & _) _].
    cbn [SFsub cond_Zopp weight] in *. change IntDef.Z.min with Z.min.
    set (ez := Z.min e' e).
    pose proof (shl_align_fst p e ez ltac:(lia) ltac:(lia)) as Hv1.
    pose proof (shl_align_fst p' e' ez ltac:(lia) ltac:(lia)) as Hv2.
    set (a := fst (shl_align p e ez)) in *. set (b := fst (shl_align p' e' ez)) in *.
    pose proof (grid_pos ez ltac:(lia)) as Hg.
    assert (Hab : Zpos a <= Zpos b) by nia.
    replace (Zpos p' * grid e' - Zpos p * grid e) with ((Zpos b - Zpos a) * grid ez)
      by (rewrite Z.mul_sub_distr_r; lia).
    destruct (Zpos b - Zpos a) as [|d|d] eqn:Hd; [| | lia].
    + left. split; [reflexivity |]. now exists false.
    + cbn [binary_normalize]. apply binary_round_rounded. lia.
Qed.

(** *** Multiplication by a normal number *)

Lemma SFmul_rounded (x : spec_float) (pc : positive) (ec : Z) :
  finite_nonneg x -> 2 ^ 52 <= Zpos pc -> -126 <= ec ->
  rounded (weight x * (Zpos pc * grid ec)) (2 ^ 1200)
          (SFmul prec emax x (S754_finite false pc ec)).
Proof.
  intros Hx Hpc Hec.
  destruct x as [s|s| |[|] p e]; try solve [destruct Hx as [_ []]].
  - left. split; [reflexivity |]. cbn [SFmul]. eexists; reflexivity.
  - destruct (finite_nonneg_canonical p e Hx) as [(Hp & He & _) _].
    cbn [SFmul xorb weight].
    assert (Hprod : 2 ^ 52 <= Zpos (p * pc)) by (rewrite Pos2Z.inj_mul; nia).
    pose proof (digits_at_least_53 (p * pc) Hprod) as Hd.
    pose proof (grid_pos (e + ec) ltac:(lia)) as Hg.
    pose proof (grid_pos e ltac:(lia)) as Hge.
    pose proof (grid_pos ec ltac:(lia)) as Hgc.
    assert (HP : 0 < 2 ^ 1200) by (apply Z.pow_pos_nonneg; lia).
    right. split; [nia |].
    exists (Zpos (p * pc)), (e + ec), loc_Exact. split; [| reflexivity].
    split; [lia | split; [lia | split; [lia | split]]].
    + cbn [Zdigits2]. rewrite fexp_eq. lia.
    + assert (HN : Zpos p * grid e * (Zpos pc * grid ec) =
                   Zpos (p * pc) * (grid (e + ec) * 2 ^ 1200)).
      { rewrite Pos2Z.inj_mul, <- grid_mul by lia. ring. }
      rewrite HN. split; [lia | split; [nia | reflexivity]].
Qed.

(** *** Division by a number of moderate exponent *)

Lemma SFdiv_core_spec (px : positive) (ex : Z) (py : positive) (ey : Z) :
  let d1 := Zpos (digits2_pos px) in
  let d2 := Zpos (digits2_pos py) in
  let e' := Z.min (fexp prec emax (d1 + ex - (d2 + ey))) (ex - ey) in
  let m' := Zpos px * 2 ^ (ex - ey - e') in
  SFdiv_core_binary prec emax (Zpos px) ex (Zpos py) ey =
  (m' / Zpos py, e', new_location (Zpos py) (m' mod Zpos py)).
Proof.
  intros d1 d2 e' m'. unfold SFdiv_core_binary. cbv zeta. cbn [Zdigits2].
  fold d1 d2. change IntDef.Z.min with Z.min. fold e'.
  assert (Hs : 0 <= ex - ey - e') by (unfold e'; lia).
  assert (Hm' : match ex - ey - e' with
                | 0 => Zpos px
                | Zpos _ => IntDef.Z.shiftl (Zpos px) (ex - ey - e')
                | Zneg _ => 0
                end = m').
  { unfold m'. destruct (ex - ey - e') as [|k|k]; [change (2 ^ 0) with 1; lia | | lia].
    change IntDef.Z.shiftl with Z.shiftl. now rewrite Z.shiftl_mul_pow2 by lia. }
  rewrite Hm'.
  change IntDef.Z.div_eucl with Z.div_eucl.
  unfold Z.div, Z.modulo. now destruct (Z.div_eucl m' (Zpos py)).
Qed.

Lemma new_location_spec (D r : Z) :
  0 < D -> 0 <= r < D ->
  match new_location D r with
  | loc_Exact => r = 0
  | loc_Inexact c => r <> 0 /\ (2 * r ?= D) = c
  end.
Proof.
  intros HD Hr. unfold new_location. change IntDef.Z.even with Z.even.
  destruct (Z.even D) eqn:Hev.
  - unfold new_location_even. destruct (Z.eqb_spec r 0) as [-> | Hne]; [reflexivity |].
    split; [exact Hne | reflexivity].
  - unfold new_location_odd. destruct (Z.eqb_spec r 0) as [-> | Hne]; [reflexivity |].
    split; [exact Hne |].
    assert (Hodd : exists k, D = 2 * k + 1).
    { apply Z.odd_spec. now rewrite <- Z.negb_even, Hev. }
    destruct Hodd as [k Hk].
    destruct (Z.compare_spec (2 * r + 1) D) as [He | Hl | Hg].
    + apply Z.compare_lt_iff. lia.
    + apply Z.compare_lt_iff. lia.
    + apply Z.compare_gt_iff. lia.
Qed.

Lemma rep_loc_division (m' D : Z) :
  0 <= m' -> 0 < D -> rep_loc m' D (m' / D) (new_location D (m' mod D)).
Proof.
  intros Hm HD.
  pose proof (Z.div_mod m' D ltac:(lia)) as Hdm.
  pose proof (Z.mod_pos_bound m' D HD) as Hr.
  pose proof (new_location_spec D (m' mod D) HD Hr) as Hl.
  assert (0 <= m' / D) by (apply Z.div_pos; lia).
  set (q := m' / D) in *. set (r := m' mod D) in *.
  split; [assumption | split; [nia |]].
  destruct (new_location D r) as [|c].
  - nia.
  - destruct Hl as [Hne Hc]. split; [nia |]. rewrite <- Hc.
    destruct (Z.compare_spec (2 * r) D) as [He | Hlt | Hgt].
    + apply Z.compare_eq_iff. nia.
    + apply Z.compare_lt_iff. nia.
    + apply Z.compare_gt_iff. nia.
Qed.

Lemma digits_quotient (a b q : positive) :
  Zpos q = Zpos a / Zpos b ->
  Zpos (digits2_pos a) - Zpos (digits2_pos b) <= Zpos (digits2_pos q).
Proof.
  intros Hq.
  pose proof (digits2_pos_bounds a) as [Halo Hahi].
  pose proof (digits2_pos_bounds b) as [Hblo Hbhi].
  pose proof (digits2_pos_bounds q) as [Hqlo Hqhi].
  set (da := Zpos (digits2_pos a)) in *. set (db := Zpos (digits2_pos b)) in *.
  set (dq := Zpos (digits2_pos q)) in *.
  assert (0 < da) by (unfold da; lia). assert (0 < db) by (unfold db; lia).
  assert (0 < dq) by (unfold dq; lia).
  destruct (Z_le_gt_dec (da - db) dq) as [|Hgt]; [assumption | exfalso].
  (* a < (q + 1) * b <= 2^dq * 2^db <= 2^(da - 1) *)
  pose proof (Z.div_mod (Zpos a) (Zpos b) ltac:(lia)) as Hdm.
  pose proof (Z.mod_pos_bound (Zpos a) (Zpos b) ltac:(lia)) as Hr.
  rewrite <- Hq in Hdm.
  assert (Zpos a < (Zpos q + 1) * Zpos b) by lia.
  assert ((Zpos q + 1) * Zpos b <= 2 ^ dq * 2 ^ db).
  { apply Z.mul_le_mono_nonneg; lia. }
  assert (2 ^ dq * 2 ^ db <= 2 ^ (da - 1)).
  { rewrite <- Z.pow_add_r by lia. apply Z.pow_le_mono_r; lia. }
  lia.
Qed.

Theorem SFdiv_rounded (x : spec_float) (py : positive) (ey : Z) :
  finite_nonneg x -> -126 <= ey <= 126 ->
  rounded (weight x * 2 ^ 1200) (Zpos py * grid ey)
          (SFdiv prec emax x (S754_finite false py ey)).
Proof.
  intros Hx Hey.
  destruct x as [s|s| |[|] px ex]; try solve [destruct Hx as [_ []]].
  - left. split; [reflexivity |]. cbn [SFdiv]. eexists; reflexivity.
  - destruct (finite_nonneg_canonical px ex Hx) as [(Hpx & Hex & _) _].
    cbn [SFdiv xorb weight].
    pose proof (SFdiv_core_spec px ex py ey) as Hcore. cbv zeta in Hcore.
    set (d1 := Zpos (digits2_pos px)) in *. set (d2 := Zpos (digits2_pos py)) in *.
    set (e' := Z.min (fexp prec emax (d1 + ex - (d2 + ey))) (ex - ey)) in *.
    set (s := ex - ey - e') in *.
    set (m' := Zpos px * 2 ^ s) in *.
    rewrite Hcore.
    assert (Hd1 : 0 < d1) by (unfold d1; lia). assert (Hd2 : 0 < d2) by (unfold d2; lia).
    assert (Hd1' : d1 <= 53).
    { pose proof (Zdigits2_le_53 (Zpos px) ltac:(lia)) as H53. exact H53. }
    assert (Hfe : -1074 <= fexp prec emax (d1 + ex - (d2 + ey))) by (rewrite fexp_eq; lia).
    assert (He' : -1200 <= e') by (unfold e'; lia).
    assert (Hs : 0 <= s) by (unfold s, e'; lia).
    assert (H2s : 0 < 2 ^ s) by (apply Z.pow_pos_nonneg; lia).
    assert (Hm'pos : 0 < m') by (unfold m'; nia).
    pose proof (grid_pos ex ltac:(lia)) as Hgx. pose proof (grid_pos ey ltac:(lia)) as Hgy.
    pose proof (grid_pos e' He') as Hg'.
    assert (HP : 0 < 2 ^ 1200) by (apply Z.pow_pos_nonneg; lia).
    set (G := grid e' * grid ey).
    assert (HG : 0 < G) by (unfold G; nia).
    assert (HN : Zpos px * grid ex * 2 ^ 1200 = G * m').
    { unfold G, m'. rewrite grid_mul by (unfold e' in *; lia).
      replace ex with ((e' + ey) + s) at 1 by (unfold s; lia).
      rewrite grid_add by (unfold e' in *; lia). ring. }
    right. split; [nia |].
    exists (m' / Zpos py), e', (new_location (Zpos py) (m' mod Zpos py)).
    split; [| reflexivity].
    assert (Hq0 : 0 <= m' / Zpos py) by (apply Z.div_pos; lia).
    split; [nia | split; [exact Hq0 | split; [exact He' | split]]].
    + (* the quotient is wide enough, or the exponent is the least *)
      destruct (m' / Zpos py) as [|q|q] eqn:Hq; [| | lia].
      * cbn [Zdigits2]. change (0 + e') with e'. rewrite fexp_eq.
        assert (Hlt : m' < Zpos py).
        { destruct (Z_lt_le_dec m' (Zpos py)) as [|Hge]; [assumption | exfalso].
          assert (1 <= m' / Zpos py) by (apply Z.div_le_lower_bound; lia). lia. }
        assert (e' <= -1074); [| lia].
        destruct (Z_le_gt_dec e' (-1074)) as [|Hgt]; [assumption | exfalso].
        pose proof (digits2_pos_bounds px) as [Hxlo _]. fold d1 in Hxlo.
        pose proof (digits2_pos_bounds py) as [_ Hyhi]. fold d2 in Hyhi.
        assert (Hcmp : 2 ^ (d1 - 1 + s) < 2 ^ d2).
        { rewrite Z.pow_add_r by lia. unfold m' in Hlt. nia. }
        apply Z.pow_lt_mono_r_iff in Hcmp; [| lia | lia].
        unfold s, e' in *. rewrite fexp_eq in *. lia.
      * cbn [Zdigits2].
        assert (Hm'p : exists a, m' = Zpos a) by (destruct m'; try lia; eauto).
        destruct Hm'p as [a Ha].
        assert (Hda : Zpos (digits2_pos a) = d1 + s).
        { apply (digits2_pos_mul_pow2 px s a Hs). rewrite <- Ha. reflexivity. }
        pose proof (digits_quotient a py q ltac:(rewrite <- Ha; now symmetry)) as Hdq.
        rewrite Hda in Hdq. fold d2 in Hdq.
        assert (He'le : e' <= Z.max (d1 + ex - (d2 + ey) - 53) (-1074))
          by (unfold e'; rewrite fexp_eq; lia).
        rewrite fexp_eq. unfold s in Hdq. lia.
    + rewrite HN. replace (grid e' * (Zpos py * grid ey)) with (G * Zpos py) by (unfold G; ring).
      apply rep_loc_scale; [exact HG |].
      apply rep_loc_division; lia.
Qed.

Lemma weight_nonneg (x : spec_float) : finite_nonneg x -> 0 <= weight x.
Proof.
  intros Hx. destruct x as [s|s| |[|] p e]; try solve [destruct Hx as [_ []]]; cbn [weight]; [lia |].
  destruct (finite_nonneg_canonical p e Hx) as [(_ & He & _) _].
  pose proof (grid_pos e ltac:(lia)). nia.
Qed.

Lemma weight_le_max (x : spec_float) :
  finite_nonneg x -> weight x <= (2 ^ 53 - 1) * grid 971.
Proof.
  intros Hx. pose proof (grid_pos 971 ltac:(lia)) as Hg.
  destruct x as [s|s| |[|] p e]; try solve [destruct Hx as [_ []]]; cbn [weight]; [nia |].
  destruct (finite_nonneg_canonical p e Hx) as [(Hp & He & _) Hmax].
  pose proof (grid_pos e ltac:(lia)). pose proof (grid_le e 971 ltac:(lia) Hmax). nia.
Qed.

(** A non-negative double is a zero, a positive finite number or [+Infinity]. *)
Lemma nonneg_cases (x : spec_float) :
  valid_binary x = true -> nonneg x -> finite_nonneg x \/ x = S754_infinity false.
Proof.
  intros Hv Hx. destruct x as [s|[|]| |[|] p e]; try contradiction.
  - left. now split.
  - now right.
  - left. now split.
Qed.

Lemma finite_nonneg_nonneg (x : spec_float) : finite_nonneg x -> nonneg x.
Proof. intros [_ Hx]. destruct x as [s|[|]| |[|] p e]; try contradiction; exact I. Qed.

Lemma SFleb_refl_nonneg (x : spec_float) : nonneg x -> SFleb x x = true.
Proof.
  destruct x as [s|[|]| |[|] p e]; intros Hx; try contradiction; try reflexivity.
  apply SFleb_refl_finite.
Qed.

Lemma below_infinity (x : spec_float) :
  valid_binary x = true -> nonneg x -> SFltb x (S754_infinity false) = true -> finite_nonneg x.
Proof.
  intros Hv Hx Hlt. destruct (nonneg_cases x Hv Hx) as [? | ->]; [assumption | discriminate Hlt].
Qed.

(** *** An addend on both sides *)

Lemma SFadd_nonneg (x a : spec_float) :
  valid_binary x = true -> valid_binary a = true -> nonneg x -> nonneg a ->
  nonneg (SFadd prec emax x a).
Proof.
  intros Hvx Hva Hx Ha. apply zero_le_nonneg.
  apply (SFleb_trans _ x); [now apply zero_le_nonneg | now apply SFadd_nonneg_increases].
Qed.

Lemma SFadd_mono_l (x y a : spec_float) :
  valid_binary x = true -> valid_binary y = true -> valid_binary a = true ->
  nonneg x -> nonneg y -> nonneg a ->
  SFleb x y = true -> SFleb (SFadd prec emax x a) (SFadd prec emax y a) = true.
Proof.
  intros Hvx Hvy Hva Hx Hy Ha Hle.
  destruct (nonneg_cases a Hva Ha) as [Hfa | ->].
  - destruct (nonneg_cases y Hvy Hy) as [Hfy | ->].
    + destruct (nonneg_cases x Hvx Hx) as [Hfx | ->].
      * apply (rounded_mono (weight x + weight a) (weight y + weight a) 1);
          try now apply SFadd_rounded.
        apply (SFleb_weight x y Hfx Hfy) in Hle. lia.
      * destruct y as [s|[|]| |[|] p e]; try solve [destruct Hfy as [_ []]]; discriminate Hle.
    + replace (SFadd prec emax (S754_infinity false) a) with (S754_infinity false)
        by (destruct a as [s|[|]| |[|] p e]; try solve [destruct Hfa as [_ []]]; reflexivity).
      apply le_infinity. now apply SFadd_nonneg.
  - replace (SFadd prec emax x (S754_infinity false)) with (S754_infinity false)
      by (destruct x as [s|[|]| |[|] p e]; try contradiction; reflexivity).
    replace (SFadd prec emax y (S754_infinity false)) with (S754_infinity false)
      by (destruct y as [s|[|]| |[|] p e]; try contradiction; reflexivity).
    reflexivity.
Qed.

(** *** A factor of at least 1 *)

Lemma weight_one : weight one = 2 ^ 1200.
Proof. reflexivity. Qed.

Lemma at_least_one (c : spec_float) :
  finite_nonneg c -> SFleb one c = true ->
  exists pc ec, c = S754_finite false pc ec /\ 2 ^ 52 <= Zpos pc /\ -52 <= ec /\
                2 ^ 1200 <= Zpos pc * grid ec.
Proof.
  intros Hc Hle.
  assert (H1 : finite_nonneg one) by (split; [reflexivity | exact I]).
  apply (SFleb_weight one c H1 Hc) in Hle. rewrite weight_one in Hle.
  destruct c as [s|s| |[|] pc ec]; try solve [destruct Hc as [_ []]]; cbn [weight] in Hle.
  - assert (0 < 2 ^ 1200) by (apply Z.pow_pos_nonneg; lia). lia.
  - exists pc, ec. split; [reflexivity |].
    destruct (finite_nonneg_canonical pc ec Hc) as [(Hp & He & Hn) _].
    pose proof (grid_pos ec ltac:(lia)) as Hg.
    assert (Hec : -52 <= ec).
    { destruct (Z_le_gt_dec (-52) ec) as [|Hgt]; [assumption | exfalso].
      pose proof (grid_le ec (-53) ltac:(lia) ltac:(lia)) as Hgl.
      assert (Hb : 2 ^ 53 * grid (-53) = 2 ^ 1200) by reflexivity.
      nia. }
    split; [| split; [exact Hec | exact Hle]].
    destruct Hn as [|Hn]; [assumption | lia].
Qed.

Lemma SFmul_increases (x c : spec_float) :
  valid_binary x = true -> nonneg x -> finite_nonneg c -> SFleb one c = true ->
  SFleb x (SFmul prec emax x c) = true /\ nonneg (SFmul prec emax x c).
Proof.
  intros Hvx Hx Hc Hle.
  destruct (at_least_one c Hc Hle) as (pc & ec & -> & Hpc & Hec & Hw).
  assert (Hnn : nonneg (SFmul prec emax x (S754_finite false pc ec)))
    by (apply SFmul_nonneg; try assumption; lia).
  split; [| exact Hnn].
  destruct (nonneg_cases x Hvx Hx) as [Hfx | ->]; [| reflexivity].
  pose proof (SFmul_rounded x pc ec Hfx Hpc ltac:(lia)) as Hm.
  pose proof (rounded_of_finite x (2 ^ 1200) Hfx ltac:(apply Z.pow_pos_nonneg; lia)) as Hr.
  apply (rounded_mono _ _ _ _ _ Hr Hm).
  pose proof (weight_nonneg x Hfx). nia.
Qed.

(** *** The growth factor [1 + r / 100] *)

Lemma weight_hundred : 7036874417766400 * grid (-46) = 100 * 2 ^ 1200.
Proof. reflexivity. Qed.

Lemma SFdiv_hundred (r : spec_float) :
  finite_nonneg r ->
  finite_nonneg (SFdiv prec emax r hundred) /\
  weight (SFdiv prec emax r hundred) <= weight r.
Proof.
  intros Hr.
  pose proof (SFdiv_rounded r 7036874417766400 (-46) Hr ltac:(lia)) as Hd.
  fold hundred in Hd. rewrite weight_hundred in Hd.
  assert (HP : 0 < 2 ^ 1200) by (apply Z.pow_pos_nonneg; lia).
  pose proof (weight_nonneg r Hr) as Hw.
  pose proof (rounded_of_finite r 1 Hr ltac:(lia)) as Hself.
  assert (Hle : SFleb (SFdiv prec emax r hundred) r = true).
  { apply (rounded_le (weight r * 2 ^ 1200) (100 * 2 ^ 1200) (weight r * 1) 1);
      [lia | lia | exact Hd | exact Hself |].
    set (P := 2 ^ 1200) in *. set (w := weight r) in *. clearbody P w. nia. }
  destruct (rounded_valid _ _ _ Hd) as [Hv Hnn].
  assert (Hf : finite_nonneg (SFdiv prec emax r hundred)).
  { destruct (nonneg_cases _ Hv Hnn) as [|Hinf]; [assumption |].
    rewrite Hinf in Hle.
    destruct r as [s|[|]| |[|] p e]; try solve [destruct Hr as [_ []]]; discriminate Hle. }
  split; [exact Hf | now apply (SFleb_weight _ _ Hf Hr)].
Qed.

Lemma growth_factor_spec (r : spec_float) :
  finite_nonneg r ->
  let c := SFadd prec emax one (SFdiv prec emax r hundred) in
  finite_nonneg c /\ SFleb one c = true.
Proof.
  intros Hr c.
  destruct (SFdiv_hundred r Hr) as [Hfd Hwd].
  assert (H1 : finite_nonneg one) by (split; [reflexivity | exact I]).
  assert (HL : finite_nonneg largest) by (split; [reflexivity | exact I]).
  pose proof (SFadd_rounded one _ H1 Hfd) as Hc. fold c in Hc.
  pose proof (SFadd_rounded one largest H1 HL) as Hmax.
  change (SFadd prec emax one largest) with largest in Hmax.
  pose proof (weight_le_max r Hr) as Hrmax.
  assert (Hle : SFleb c largest = true).
  { apply (rounded_mono _ _ _ _ _ Hc Hmax).
    change (weight largest) with ((2 ^ 53 - 1) * grid 971). lia. }
  assert (Hge : SFleb one c = true).
  { pose proof (rounded_of_finite one 1 H1 ltac:(lia)) as Ho.
    apply (rounded_mono _ _ _ _ _ Ho Hc).
    pose proof (weight_nonneg _ Hfd). lia. }
  split; [| exact Hge].
  destruct (rounded_valid _ _ _ Hc) as [Hv Hnn].
  destruct (nonneg_cases _ Hv Hnn) as [|Hinf]; [assumption |].
  rewrite Hinf in Hle. discriminate Hle.
Qed.

(** *** The difference of a larger and a smaller number *)

Lemma SFsub_nonneg (x y : spec_float) :
  finite_nonneg x -> valid_binary y = true -> nonneg y -> SFleb x y = true ->
  nonneg (SFsub prec emax y x).
Proof.
  intros Hx Hvy Hy Hle.
  destruct (nonneg_cases y Hvy Hy) as [Hfy | ->].
  - apply (SFleb_weight x y Hx Hfy) in Hle.
    exact (proj2 (rounded_valid _ _ _ (SFsub_rounded x y Hx Hfy Hle))).
  - destruct x as [s|[|]| |[|] p e]; try solve [destruct Hx as [_ []]]; exact I.
Qed.

Lemma Prim2SF_one : Prim2SF (Binary64.of_Z 1) = one.
Proof. reflexivity. Qed.

Lemma Prim2SF_hundred : Prim2SF (Binary64.of_Z 100) = hundred.
Proof. reflexivity. Qed.

Lemma Prim2SF_infinity : Prim2SF infinity = S754_infinity false.
Proof. reflexivity. Qed.

Lemma finite_double (r : float) :
  PrimFloat.leb (Binary64.of_Z 0) r = true -> PrimFloat.ltb r infinity = true ->
  finite_nonneg (Prim2SF r).
Proof.
  rewrite nonneg_double, ltb_spec, Prim2SF_infinity. intros Hr Hlt.
  apply below_infinity; auto using Prim2SF_valid.
Qed.

Lemma double_leb_refl (x : float) :
  PrimFloat.leb (Binary64.of_Z 0) x = true -> PrimFloat.leb x x = true.
Proof. rewrite nonneg_double, leb_spec. apply SFleb_refl_nonneg. Qed.

Lemma double_add_mono_l (x y a : float) :
  PrimFloat.leb (Binary64.of_Z 0) x = true -> PrimFloat.leb (Binary64.of_Z 0) a = true ->
  PrimFloat.leb x y = true -> PrimFloat.leb (x + a)%float (y + a)%float = true.
Proof.
  intros Hx Ha Hxy.
  assert (Hy : PrimFloat.leb (Binary64.of_Z 0) y = true) by exact (double_leb_trans _ _ _ Hx Hxy).
  apply nonneg_double in Hx, Hy, Ha. rewrite leb_spec in *. rewrite !add_spec.
  apply SFadd_mono_l; auto using Prim2SF_valid.
Qed.

Lemma double_growth (x r : float) :
  PrimFloat.leb (Binary64.of_Z 0) x = true ->
  PrimFloat.leb (Binary64.of_Z 0) r = true -> PrimFloat.ltb r infinity = true ->
  PrimFloat.leb x (x * (Binary64.of_Z 1 + r / Binary64.of_Z 100))%float = true.
Proof.
  intros Hx Hr Hrf. pose proof (finite_double r Hr Hrf) as Hfr.
  apply nonneg_double in Hx. rewrite leb_spec, mul_spec, add_spec, div_spec.
  rewrite Prim2SF_one, Prim2SF_hundred.
  destruct (growth_factor_spec (Prim2SF r) Hfr) as [Hc H1].
  apply SFmul_increases; auto using Prim2SF_valid.
Qed.

Lemma double_sub_nonneg (x y : float) :
  PrimFloat.leb (Binary64.of_Z 0) x = true -> PrimFloat.ltb x infinity = true ->
  PrimFloat.leb x y = true -> PrimFloat.leb (Binary64.of_Z 0) (y - x)%float = true.
Proof.
  intros Hx Hxf Hxy. pose proof (finite_double x Hx Hxf) as Hfx.
  assert (Hy : PrimFloat.leb (Binary64.of_Z 0) y = true) by exact (double_leb_trans _ _ _ Hx Hxy).
  apply nonneg_double in Hy. apply nonneg_double. rewrite leb_spec in Hxy. rewrite sub_spec.
  apply SFsub_nonneg; auto using Prim2SF_valid.
Qed.

Lemma toFixed2_infinity (x : float) :
  Prim2SF x = S754_infinity false -> Binary64.toFixed2_double x = x.
Proof. intros Hx. unfold Binary64.toFixed2_double. now rewrite Hx. Qed.

(** [binary_round_aux] rounds the magnitude and puts the sign on the result. *)
Lemma binary_round_aux_sign (s : bool) (m e : Z) (l : location) :
  binary_round_aux prec emax s m e l = with_sign s (binary_round_aux prec emax false m e l).
Proof.
  unfold binary_round_aux.
  destruct (shr_fexp prec emax m e l) as [mrs' e'].
  destruct (shr_fexp prec emax _ e' loc_Exact) as [mrs'' e''].
  destruct (shr_m mrs''); [reflexivity | | reflexivity].
  now destruct (e'' <=? emax - prec).
Qed.

Lemma SFmul_one (x : spec_float) : valid_binary x = true -> SFmul prec emax x one = x.
Proof.
  intros Hv. destruct x as [s|s| |s p e]; cbn [SFmul one]; try reflexivity; try (now rewrite xorb_false_r).
  rewrite xorb_false_r, binary_round_aux_sign.
  assert (Hf : finite_nonneg (S754_finite false p e)) by (split; [exact Hv | exact I]).
  destruct (finite_nonneg_canonical p e Hf) as [Hc Hmax].
  pose proof (SFmul_rounded _ 4503599627370496 (-52) Hf ltac:(lia) ltac:(lia)) as Hr.
  cbn [SFmul xorb weight] in Hr.
  change (4503599627370496 * grid (-52)) with (2 ^ 1200) in Hr.
  apply (rounded_exact p e (2 ^ 1200) _ Hc Hmax ltac:(apply Z.pow_pos_nonneg; lia)) in Hr.
  now rewrite Hr.
Qed.

Lemma double_mul_one (x : float) : (x * Binary64.of_Z 1)%float = x.
Proof.
  apply Prim2SF_inj. rewrite mul_spec, Prim2SF_one. apply SFmul_one, Prim2SF_valid.
Qed.

Lemma SFsub_self (x : spec_float) :
  SFsub prec emax x x = S754_zero false \/ SFsub prec emax x x = S754_nan.
Proof.
  destruct x as [[|]|[|]| |s p e]; cbn [SFsub]; auto.
  left. now rewrite Z.sub_diag.
Qed.

Lemma double_sub_self (x : float) : (x - x)%float = zero \/ (x - x)%float = nan.
Proof.
  destruct (SFsub_self (Prim2SF x)) as [H | H]; [left | right];
    apply Prim2SF_inj; rewrite sub_spec; exact H.
Qed.

(** A rate of [0] or [-0] gives the growth factor [1]. *)
Lemma growth_factor_zero (r : float) :
  PrimFloat.eqb r zero = true ->
  (Binary64.of_Z 1 + r / Binary64.of_Z 100)%float = Binary64.of_Z 1.
Proof.
  intros Hr. apply Prim2SF_inj. rewrite add_spec, div_spec, Prim2SF_one, Prim2SF_hundred.
  rewrite FloatAxioms.eqb_spec in Hr. change (Prim2SF zero) with (S754_zero false) in Hr.
  destruct (Prim2SF r) as [s|[|]| |[|] m e]; try discriminate Hr. reflexivity.
Qed.

Lemma nearest_decimal_value (f : nat) (m : positive) (e : Z) :
  -1200 <= e ->
  nearest_decimal f m e = (2 * 10 ^ Z.of_nat f * (Zpos m * grid e) + 2 ^ 1200) / 2 ^ 1201.
Proof.
  intros He. unfold nearest_decimal.
  set (T := 10 ^ Z.of_nat f). assert (HT : 0 < T) by (apply Z.pow_pos_nonneg; lia).
  destruct e as [|k|k].
  - rewrite grid_0. change (2 ^ 0) with 1. change (2 ^ 1201) with (2 ^ 1200 * 2).
    set (G := 2 ^ 1200). assert (0 < G) by (apply Z.pow_pos_nonneg; lia).
    replace (2 * T * (Zpos m * G) + G) with (G * (2 * (T * Zpos m) + 1)) by ring.
    rewrite Z.div_mul_cancel_l by lia.
    rewrite Z.mul_1_r. apply Z.div_unique with 1; lia.
  - replace (Zpos k) with (0 + Zpos k) at 2 by lia.
    rewrite grid_add, grid_0 by lia. change (2 ^ 1201) with (2 ^ 1200 * 2).
    set (G := 2 ^ 1200). assert (0 < G) by (apply Z.pow_pos_nonneg; lia).
    set (P := 2 ^ Zpos k).
    replace (2 * T * (Zpos m * (P * G)) + G) with (G * (2 * (T * (Zpos m * P)) + 1)) by ring.
    rewrite Z.div_mul_cancel_l by lia.
    apply Z.div_unique with 1; lia.
  - assert (Hk : Zpos k <= 1200) by lia.
    set (g := grid (Zneg k)). set (P := 2 ^ Zpos k).
    assert (Hg : 0 < g) by (apply grid_pos; lia).
    assert (HP : 0 < P) by (apply Z.pow_pos_nonneg; lia).
    assert (HgP : g * P = 2 ^ 1200).
    { unfold g, P, grid. rewrite <- Z.pow_add_r by lia. f_equal. lia. }
    change (2 ^ 1201) with (2 ^ 1200 * 2). rewrite <- HgP.
    replace (2 * T * (Zpos m * g) + g * P) with (g * (2 * T * Zpos m + P)) by ring.
    replace (g * P * 2) with (g * (2 * P)) by ring.
    now rewrite Z.div_mul_cancel_l by lia.
Qed.

Section Strings.

Variable toString : float -> string.

(** [toFixed] of a positive number whose value lies in the half-open
    interval of the numbers that round to [n / 10^f]. *)
Lemma toFixed_of_weight (f : nat) (x : float) (n : Z) :
  finite_nonneg (Prim2SF x) -> 0 < n ->
  (2 * n - 1) * 2 ^ 1200 <= 2 * 10 ^ Z.of_nat f * weight (Prim2SF x) < (2 * n + 1) * 2 ^ 1200 ->
  weight (Prim2SF x) < 10 ^ 21 * 2 ^ 1200 ->
  toFixed toString f x = with_point f (digits n).
Proof.
  intros Hx Hn [Hlo Hhi] Hsmall. unfold toFixed.
  set (T := 10 ^ Z.of_nat f) in *. assert (HT : 0 < T) by (apply Z.pow_pos_nonneg; lia).
  assert (HP : 0 < 2 ^ 1200) by (apply Z.pow_pos_nonneg; lia).
  destruct (Prim2SF x) as [s|s| |[|] m e]; try solve [destruct Hx as [_ []]].
  - cbn [weight] in Hlo. nia.
  - destruct (finite_nonneg_canonical m e Hx) as [(_ & He & _) _].
    cbn [weight] in *.
    rewrite at_least_1e21_value by lia.
    destruct (Z.leb_spec (10 ^ 21 * 2 ^ 1200) (Zpos m * grid e)); [lia |].
    rewrite nearest_decimal_value by lia. fold T.
    cbn [append]. do 2 f_equal.
    symmetry. change (2 ^ 1201) with (2 ^ 1200 * 2).
    apply Z.div_unique with (2 * T * (Zpos m * grid e) + 2 ^ 1200 - n * (2 ^ 1200 * 2)); lia.
Qed.

End Strings.

(** *** Division is monotone in the dividend *)

Lemma SFdiv_mono (a b : spec_float) (pd : positive) (ed : Z) :
  finite_nonneg a -> finite_nonneg b -> -126 <= ed <= 126 ->
  SFleb a b = true ->
  SFleb (SFdiv prec emax a (S754_finite false pd ed))
        (SFdiv prec emax b (S754_finite false pd ed)) = true.
Proof.
  intros Ha Hb Hed Hle. apply (SFleb_weight a b Ha Hb) in Hle.
  apply (rounded_mono _ _ _ _ _ (SFdiv_rounded a pd ed Ha Hed) (SFdiv_rounded b pd ed Hb Hed)).
  assert (0 < 2 ^ 1200) by (apply Z.pow_pos_nonneg; lia). nia.
Qed.

Lemma SFleb_finite (x u : spec_float) :
  valid_binary x = true -> nonneg x -> finite_nonneg u -> SFleb x u = true -> finite_nonneg x.
Proof.
  intros Hv Hx Hu Hle. destruct (nonneg_cases x Hv Hx) as [? | ->]; [assumption |].
  destruct u as [s|[|]| |[|] p e]; try solve [destruct Hu as [_ []]]; discriminate Hle.
Qed.

Lemma SFltb_leb (x y : spec_float) : SFltb x y = true -> SFleb x y = true /\ SFleb y x = false.
Proof.
  unfold SFltb, SFleb.
  destruct x as [sx|[|]| |[|] px ex], y as [sy|[|]| |[|] py ey];
    cbn [SFcompare]; try discriminate; try (split; reflexivity);
    rewrite ?Z.compare_antisym with (n := ex) (m := ey);
    change (Pos.compare_cont Eq py px) with (Pos.compare py px);
    change (Pos.compare_cont Eq px py) with (Pos.compare px py);
    rewrite ?(Pos.compare_antisym px py);
    destruct (ex ?= ey); cbn [CompOpp]; try discriminate; try (split; reflexivity);
    destruct (px ?= py)%positive; cbn [CompOpp]; try discriminate; split; reflexivity.
Qed.

(** A double between two finite bounds, divided by a constant of moderate
    exponent, lies between the quotients of the bounds. *)
Lemma double_div_between (lo hi d value : float) (pd : positive) (ed : Z) :
  Prim2SF d = S754_finite false pd ed -> -126 <= ed <= 126 ->
  PrimFloat.leb (Binary64.of_Z 0) lo = true -> PrimFloat.ltb hi infinity = true ->
  PrimFloat.ltb (hi / d) infinity = true ->
  PrimFloat.leb lo value = true -> PrimFloat.ltb value hi = true ->
  finite_nonneg (Prim2SF (value / d)) /\
  weight (Prim2SF (lo / d)) <= weight (Prim2SF (value / d)) <= weight (Prim2SF (hi / d)).
Proof.
  intros Hd Hed Hlo Hhi Hq Hlv Hvh.
  assert (Hv0 : PrimFloat.leb (Binary64.of_Z 0) value = true)
    by exact (double_leb_trans _ _ _ Hlo Hlv).
  rewrite ltb_spec in Hvh. apply SFltb_leb in Hvh as [Hvh _].
  assert (Hh0 : PrimFloat.leb (Binary64.of_Z 0) hi = true).
  { apply (double_leb_trans _ _ _ Hv0). now rewrite leb_spec. }
  pose proof (finite_double hi Hh0 Hhi) as Hfh.
  apply nonneg_double in Hv0, Hlo.
  pose proof (SFleb_finite _ _ (Prim2SF_valid value) Hv0 Hfh Hvh) as Hfv.
  rewrite leb_spec in Hlv.
  pose proof (SFleb_finite _ _ (Prim2SF_valid lo) Hlo Hfv Hlv) as Hfl.
  rewrite ltb_spec, Prim2SF_infinity in Hq.
  rewrite !div_spec in *. rewrite Hd in *.
  pose proof (SFdiv_mono _ _ pd ed Hfl Hfv Hed Hlv) as H1.
  pose proof (SFdiv_mono _ _ pd ed Hfv Hfh Hed Hvh) as H2.
  destruct (rounded_valid _ _ _ (SFdiv_rounded _ pd ed Hfl Hed)) as [Vl Nl].
  destruct (rounded_valid _ _ _ (SFdiv_rounded _ pd ed Hfv Hed)) as [Vv Nv].
  destruct (rounded_valid _ _ _ (SFdiv_rounded _ pd ed Hfh Hed)) as [Vh Nh].
  pose proof (below_infinity _ Vh Nh Hq) as Fh.
  pose proof (SFleb_finite _ _ Vv Nv Fh H2) as Fv.
  pose proof (SFleb_finite _ _ Vl Nl Fv H1) as Fl.
  split; [exact Fv |].
  split; [now apply (SFleb_weight _ _ Fl Fv) | now apply (SFleb_weight _ _ Fv Fh)].
Qed.

Lemma with_sign_finite (s : bool) (x : spec_float) :
  finite_float x -> finite_float (with_sign s x).
Proof. now destruct x. Qed.

Lemma finite_nonneg_finite (x : spec_float) : finite_nonneg x -> finite_float x.
Proof. intros [_ Hx]. now destruct x as [s|s| |[|] p e]. Qed.

Lemma SFdiv_sign (s : bool) (p : positive) (e : Z) (y : spec_float) :
  finite_nonneg y -> y <> S754_zero false -> y <> S754_zero true ->
  SFdiv prec emax (S754_finite s p e) y =
  with_sign s (SFdiv prec emax (S754_finite false p e) y).
Proof.
  intros Hy H0 H1.
  destruct y as [[|]|sy| |[|] py ey]; try solve [destruct Hy as [_ []]]; try congruence.
  cbn [SFdiv xorb]. rewrite xorb_false_r.
  destruct (SFdiv_core_binary prec emax (Zpos p) e (Zpos py) ey) as [[mz ez] lz].
  apply binary_round_aux_sign.
Qed.

(** The hundredth part of a finite number is finite, and no larger. *)
Lemma SFdiv_hundred_finite (r : spec_float) :
  valid_binary r = true -> finite_float r ->
  exists s d, SFdiv prec emax r hundred = with_sign s d /\ finite_nonneg d.
Proof.
  intros Hv Hr. destruct r as [s|s| |s p e]; try contradiction.
  - exists s, (S754_zero false). split; [cbn; now rewrite xorb_false_r | now split].
  - assert (Hf : finite_nonneg (S754_finite false p e)) by (split; [exact Hv | exact I]).
    exists s, (SFdiv prec emax (S754_finite false p e) hundred).
    split; [| exact (proj1 (SFdiv_hundred _ Hf))].
    apply SFdiv_sign; [split; [reflexivity | exact I] | discriminate | discriminate].
Qed.

Lemma binary_round_sign (s : bool) (m : positive) (e : Z) :
  binary_round prec emax s m e = with_sign s (binary_round prec emax false m e).
Proof.
  unfold binary_round. destruct (shl_align m e _) as [mz ez]. apply binary_round_aux_sign.
Qed.

Lemma binary_round_finite (m : positive) (e : Z) (u : spec_float) :
  -1200 <= e -> finite_nonneg u -> Zpos m * grid e <= weight u ->
  finite_float (binary_round prec emax false m e).
Proof.
  intros He Hu Hle.
  pose proof (binary_round_rounded m e He) as Hr.
  pose proof (rounded_of_finite u 1 Hu ltac:(lia)) as Hself.
  destruct (rounded_valid _ _ _ Hr) as [Hv Hn].
  apply finite_nonneg_finite, (SFleb_finite _ u Hv Hn Hu).
  apply (rounded_mono _ _ _ _ _ Hr Hself). lia.
Qed.

Lemma SFadd_one_nonneg (d : spec_float) :
  finite_nonneg d -> finite_nonneg (SFadd prec emax one d).
Proof.
  intros Hd.
  assert (H1 : finite_nonneg one) by (split; [reflexivity | exact I]).
  assert (HL : finite_nonneg largest) by (split; [reflexivity | exact I]).
  pose proof (SFadd_rounded one d H1 Hd) as Hc.
  pose proof (SFadd_rounded one largest H1 HL) as Hmax.
  change (SFadd prec emax one largest) with largest in Hmax.
  pose proof (weight_le_max d Hd) as Hdmax.
  destruct (rounded_valid _ _ _ Hc) as [Hv Hnn].
  apply (SFleb_finite _ largest Hv Hnn HL).
  apply (rounded_mono _ _ _ _ _ Hc Hmax).
  change (weight largest) with ((2 ^ 53 - 1) * grid 971). lia.
Qed.

Lemma SFadd_one_negative (pd : positive) (ed : Z) :
  finite_nonneg (S754_finite false pd ed) ->
  finite_float (SFadd prec emax one (S754_finite true pd ed)).
Proof.
  intros Hd.
  assert (H1 : finite_nonneg one) by (split; [reflexivity | exact I]).
  destruct (finite_nonneg_canonical pd ed Hd) as [(_ & He & _) _].
  cbn [SFadd one cond_Zopp]. change IntDef.Z.min with Z.min.
  set (ez := Z.min (-52) ed).
  pose proof (shl_align_fst 4503599627370496 (-52) ez ltac:(lia) ltac:(lia)) as Hv1.
  pose proof (shl_align_fst pd ed ez ltac:(lia) ltac:(lia)) as Hv2.
  set (a := fst (shl_align 4503599627370496 (-52) ez)) in *.
  set (b := fst (shl_align pd ed ez)) in *.
  pose proof (grid_pos ez ltac:(lia)) as Hg.
  change (- Zpos b) with (Zneg b).
  destruct (Zpos a + Zneg b) as [|m|m] eqn:Hm; cbn [binary_normalize].
  - exact I.
  - apply (binary_round_finite m ez one); [lia | exact H1 |].
    change (weight one) with (4503599627370496 * grid (-52)). nia.
  - rewrite binary_round_sign. apply with_sign_finite.
    apply (binary_round_finite m ez (S754_finite false pd ed)); [lia | exact Hd |].
    cbn [weight]. nia.
Qed.

(** The growth factor of a finite rate is finite. *)
Lemma growth_factor_finite (r : spec_float) :
  valid_binary r = true -> finite_float r ->
  finite_float (SFadd prec emax one (SFdiv prec emax r hundred)).
Proof.
  intros Hv Hr. destruct (SFdiv_hundred_finite r Hv Hr) as (s & d & -> & Hd).
  destruct d as [sd|sd| |[|] pd ed]; try solve [destruct Hd as [_ []]].
  - exact I.
  - destruct s; cbn [with_sign].
    + now apply SFadd_one_negative.
    + now apply finite_nonneg_finite, SFadd_one_nonneg.
Qed.

Lemma is_finite_spec (x : float) : is_finite x = true -> finite_float (Prim2SF x).
Proof.
  unfold is_finite, is_nan, is_infinity.
  rewrite !FloatAxioms.eqb_spec, abs_spec, Prim2SF_infinity.
  destruct (Prim2SF x) as [s|[|]| |s m e]; cbn; try discriminate; trivial.
Qed.

Lemma is_a_zero_spec (x : float) : PrimFloat.eqb x zero = true -> is_a_zero (Prim2SF x).
Proof.
  rewrite FloatAxioms.eqb_spec. change (Prim2SF zero) with (S754_zero false).
  destruct (Prim2SF x) as [s|[|]| |[|] m e]; cbn; try discriminate; trivial.
Qed.

Lemma SFmul_zero (x c : spec_float) :
  is_a_zero x -> finite_float c -> is_a_zero (SFmul prec emax x c).
Proof. destruct x, c; try contradiction; intros _ _; exact I. Qed.

Lemma SFadd_zero (x y : spec_float) :
  is_a_zero x -> is_a_zero y -> is_a_zero (SFadd prec emax x y).
Proof.
  destruct x as [[|]| | |], y as [[|]| | |]; try contradiction; intros _ _; exact I.
Qed.

Lemma SFsub_zero (x y : spec_float) :
  is_a_zero x -> is_a_zero y -> is_a_zero (SFsub prec emax x y).
Proof.
  destruct x as [[|]| | |], y as [[|]| | |]; try contradiction; intros _ _; exact I.
Qed.

Lemma toFixed2_zero (x : float) : is_a_zero (Prim2SF x) -> Binary64.toFixed2_double x = zero.
Proof.
  intros Hx. unfold Binary64.toFixed2_double.
  destruct (Prim2SF x); try contradiction. reflexivity.
Qed.

Lemma frequencyMultiplier_finite (f : string) :
  finite_float (Prim2SF (frequencyMultiplier f)).
Proof.
  unfold frequencyMultiplier.
  destruct (String.eqb f "monthly"); [| destruct (String.eqb f "quarterly")]; exact I.
Qed.


(** A number of at least 0.01 is truthy. *)
Lemma toBoolean_of_cent (c x : float) :
  Prim2SF c = S754_finite false 5764607523034235 (-59) ->
  PrimFloat.leb c x = true -> Binary64.toBoolean_double x = true.
Proof.
  intros Hc. unfold Binary64.toBoolean_double, is_nan, is_zero.
  rewrite leb_spec, !FloatAxioms.eqb_spec, Hc. change (Prim2SF zero) with (S754_zero false).
  destruct (Prim2SF x) as [s|[|]| |[|] m e]; try discriminate; try reflexivity.
  intros _. unfold SFeqb. cbn [SFcompare]. rewrite Z.compare_refl.
  change (Pos.compare_cont Eq m m) with (Pos.compare m m). now rewrite Pos.compare_refl.
Qed.

(** *** Monotonicity in both operands *)

Lemma SFmul_mono (x y : spec_float) (pc : positive) (ec : Z) (pc' : positive) (ec' : Z) :
  valid_binary x = true -> valid_binary y = true -> nonneg x -> nonneg y ->
  SFleb x y = true ->
  2 ^ 52 <= Zpos pc -> -126 <= ec -> 2 ^ 52 <= Zpos pc' -> -126 <= ec' ->
  Zpos pc * grid ec <= Zpos pc' * grid ec' ->
  SFleb (SFmul prec emax x (S754_finite false pc ec))
        (SFmul prec emax y (S754_finite false pc' ec')) = true.
Proof.
  intros Hvx Hvy Hx Hy Hle Hpc Hec Hpc' Hec' Hw.
  destruct (nonneg_cases y Hvy Hy) as [Hfy | ->].
  - pose proof (SFleb_finite x y Hvx Hx Hfy Hle) as Hfx.
    apply (SFleb_weight x y Hfx Hfy) in Hle.
    apply (rounded_mono _ _ _ _ _ (SFmul_rounded x pc ec Hfx Hpc Hec)
             (SFmul_rounded y pc' ec' Hfy Hpc' Hec')).
    pose proof (weight_nonneg x Hfx). pose proof (grid_pos ec ltac:(lia)).
    apply Z.mul_le_mono_nonneg; nia.
  - apply le_infinity. now apply SFmul_nonneg.
Qed.

Lemma SFadd_mono (x y a b : spec_float) :
  valid_binary x = true -> valid_binary y = true ->
  valid_binary a = true -> valid_binary b = true ->
  nonneg x -> nonneg y -> nonneg a -> nonneg b ->
  SFleb x y = true -> SFleb a b = true ->
  SFleb (SFadd prec emax x a) (SFadd prec emax y b) = true.
Proof.
  intros Hvx Hvy Hva Hvb Hx Hy Ha Hb Hxy Hab.
  pose proof (SFadd_nonneg x a Hvx Hva Hx Ha) as Hxa.
  destruct (nonneg_cases y Hvy Hy) as [Hfy | ->].
  - destruct (nonneg_cases b Hvb Hb) as [Hfb | ->].
    + pose proof (SFleb_finite x y Hvx Hx Hfy Hxy) as Hfx.
      pose proof (SFleb_finite a b Hva Ha Hfb Hab) as Hfa.
      apply (SFleb_weight x y Hfx Hfy) in Hxy. apply (SFleb_weight a b Hfa Hfb) in Hab.
      apply (rounded_mono (weight x + weight a) (weight y + weight b) 1);
        try now apply SFadd_rounded.
      lia.
    + replace (SFadd prec emax y (S754_infinity false)) with (S754_infinity false)
        by (destruct y as [s|[|]| |[|] p e]; try contradiction; reflexivity).
      now apply le_infinity.
  - replace (SFadd prec emax (S754_infinity false) b) with (S754_infinity false)
      by (destruct b as [s|[|]| |[|] p e]; try contradiction; reflexivity).
    now apply le_infinity.
Qed.

Lemma double_add_mono (x y a b : float) :
  PrimFloat.leb (Binary64.of_Z 0) x = true -> PrimFloat.leb (Binary64.of_Z 0) a = true ->
  PrimFloat.leb x y = true -> PrimFloat.leb a b = true ->
  PrimFloat.leb (x + a)%float (y + b)%float = true.
Proof.
  intros Hx Ha Hxy Hab.
  assert (Hy : PrimFloat.leb (Binary64.of_Z 0) y = true) by exact (double_leb_trans _ _ _ Hx Hxy).
  assert (Hb : PrimFloat.leb (Binary64.of_Z 0) b = true) by exact (double_leb_trans _ _ _ Ha Hab).
  apply nonneg_double in Hx, Hy, Ha, Hb. rewrite leb_spec in *. rewrite !add_spec.
  apply SFadd_mono; auto using Prim2SF_valid.
Qed.

(** [x * c <= y * c'] for [0 <= x <= y] and [1 <= c <= c' < Infinity]. *)
Lemma double_mul_mono (x y c c' : float) :
  PrimFloat.leb (Binary64.of_Z 0) x = true -> PrimFloat.leb x y = true ->
  PrimFloat.leb (Binary64.of_Z 1) c = true -> PrimFloat.leb c c' = true ->
  PrimFloat.ltb c' infinity = true ->
  PrimFloat.leb (x * c)%float (y * c')%float = true.
Proof.
  intros Hx Hxy H1c Hcc Hc'.
  assert (Hy : PrimFloat.leb (Binary64.of_Z 0) y = true) by exact (double_leb_trans _ _ _ Hx Hxy).
  assert (H1c' : PrimFloat.leb (Binary64.of_Z 1) c' = true) by exact (double_leb_trans _ _ _ H1c Hcc).
  assert (H0c' : PrimFloat.leb (Binary64.of_Z 0) c' = true)
    by exact (double_leb_trans (Binary64.of_Z 0) (Binary64.of_Z 1) _ eq_refl H1c').
  assert (H0c : PrimFloat.leb (Binary64.of_Z 0) c = true)
    by exact (double_leb_trans (Binary64.of_Z 0) (Binary64.of_Z 1) _ eq_refl H1c).
  pose proof (finite_double c' H0c' Hc') as Hfc'.
  apply nonneg_double in Hx, Hy, H0c. rewrite leb_spec in *. rewrite Prim2SF_one in *.
  pose proof (SFleb_finite _ _ (Prim2SF_valid c) H0c Hfc' Hcc) as Hfc.
  rewrite !mul_spec.
  pose proof (proj1 (SFleb_weight _ _ Hfc Hfc') Hcc) as Hw.
  destruct (at_least_one _ Hfc H1c) as (pc & ec & Ec & Hpc & Hec & _).
  destruct (at_least_one _ Hfc' H1c') as (pc' & ec' & Ec' & Hpc' & Hec' & _).
  rewrite Ec, Ec' in *. cbn [weight] in Hw.
  apply SFmul_mono; auto using Prim2SF_valid; lia.
Qed.

Lemma growth_factor_bounds (r : float) :
  PrimFloat.leb (Binary64.of_Z 0) r = true -> PrimFloat.ltb r infinity = true ->
  PrimFloat.leb (Binary64.of_Z 1) (Binary64.of_Z 1 + r / Binary64.of_Z 100)%float = true /\
  PrimFloat.ltb (Binary64.of_Z 1 + r / Binary64.of_Z 100)%float infinity = true.
Proof.
  intros Hr Hrf. pose proof (finite_double r Hr Hrf) as Hfr.
  rewrite leb_spec, ltb_spec, add_spec, div_spec, Prim2SF_one, Prim2SF_hundred, Prim2SF_infinity.
  destruct (growth_factor_spec (Prim2SF r) Hfr) as [Hc H1]. split; [exact H1 |].
  unfold SF64add, SF64div.
  destruct (SFadd prec emax one (SFdiv prec emax (Prim2SF r) hundred))
    as [s|s| |[|] m e]; try solve [destruct Hc as [_ []]]; reflexivity.
Qed.

Lemma growth_factor_mono (r r' : float) :
  PrimFloat.leb (Binary64.of_Z 0) r = true -> PrimFloat.leb r r' = true ->
  PrimFloat.ltb r' infinity = true ->
  PrimFloat.leb (Binary64.of_Z 1 + r / Binary64.of_Z 100)%float
                (Binary64.of_Z 1 + r' / Binary64.of_Z 100)%float = true.
Proof.
  intros Hr Hrr Hrf'.
  assert (Hr' : PrimFloat.leb (Binary64.of_Z 0) r' = true) by exact (double_leb_trans _ _ _ Hr Hrr).
  pose proof (finite_double r' Hr' Hrf') as Hfr'.
  apply nonneg_double in Hr. rewrite leb_spec in Hrr.
  pose proof (SFleb_finite _ _ (Prim2SF_valid r) Hr Hfr' Hrr) as Hfr.
  rewrite leb_spec, !add_spec, !div_spec, Prim2SF_one, Prim2SF_hundred.
  destruct (SFdiv_hundred _ Hfr) as [Hd _]. destruct (SFdiv_hundred _ Hfr') as [Hd' _].
  assert (H1 : finite_nonneg one) by (split; [reflexivity | exact I]).
  unfold SF64add, SF64div.
  apply SFadd_mono;
    [ reflexivity | reflexivity | apply Hd | apply Hd' | exact I | exact I
    | now apply finite_nonneg_nonneg | now apply finite_nonneg_nonneg | reflexivity | ].
  unfold hundred. apply SFdiv_mono; [assumption | assumption | lia | assumption].
Qed.

Lemma frequencyMultiplier_bounds (f : string) :
  PrimFloat.leb (Binary64.of_Z 1) (frequencyMultiplier f) = true /\
  PrimFloat.ltb (frequencyMultiplier f) infinity = true.
Proof.
  unfold frequencyMultiplier.
  destruct (String.eqb f "monthly"); [| destruct (String.eqb f "quarterly")];
    split; reflexivity.
Qed.

End Binary64Arith.


(** ** The claims of the specification *)

#[local] Set Warnings "-inexact-float".

(** Two doubles with different representations are different. *)
Ltac differ :=
  let E := fresh "E" in
  intro E; apply (f_equal Prim2SF) in E; vm_compute in E; discriminate E.

(** *** The year step *)

(** C1. Each year the balance is first multiplied by [1 + rateOfReturn / 100];
    the year's addition, [incrementalAddition] times the frequency multiplier
    (12, 4 or 1), is then added to the balance and to the invested total, so
    that it does not take part in that year's growth; both start from
    [startingAmount]; the pushed entry rounds these values.  The scenario of
    section 8 yields the single entry 6179.00 / 6169.00 / 10.00, in doubles
    and in exact arithmetic. *)
Theorem growth_then_contribution :
  (forall (num : Type) (N : Number num) (p : CalculationParams num) (y : Z),
      1 <= y <= years p ->
      let balance := currentValue (loop_after p (y - 1)) in
      let paid_in := totalInvested (loop_after p (y - 1)) in
      let addition :=
        (incrementalAddition p * frequencyMultiplier (incrementalFrequency p))%num in
      let balance' :=
        (balance * (number_of_Z 1 + rateOfReturn p / number_of_Z 100) + addition)%num in
      let paid_in' := (paid_in + addition)%num in
      currentValue (loop_after p y) = balance' /\
      totalInvested (loop_after p y) = paid_in' /\
      nth_error (calculateCompoundInterest p) (Z.to_nat (y - 1)) =
        Some {| year := y;
                totalValue := toFixed2 balance';
                invested := toFixed2 paid_in';
                gained := toFixed2 (balance' - paid_in')%num |}) /\
  (forall (num : Type) (N : Number num) (p : CalculationParams num),
      currentValue (loop_after p 0) = startingAmount p /\
      totalInvested (loop_after p 0) = startingAmount p) /\
  (forall (num : Type) (N : Number num),
      frequencyMultiplier "monthly" = number_of_Z 12 /\
      frequencyMultiplier "quarterly" = number_of_Z 4 /\
      frequencyMultiplier "yearly" = number_of_Z 1) /\
  calculateCompoundInterest first_year_scenario =
    [ {| year := 1; totalValue := 6179%float; invested := 6169%float;
         gained := 10%float |} ] /\
  calculateCompoundInterest first_year_scenario_exact =
    [ {| year := 1; totalValue := 6179%Q; invested := 6169%Q; gained := 10%Q |} ].
Proof.
  split; [| split; [| split; [| split]]].
  - intros num N p y Hy balance paid_in addition balance' paid_in'.
    assert (Hb : currentValue (loop_after p y) = balance')
      by now rewrite currentValue_step by lia.
    assert (Hi : totalInvested (loop_after p y) = paid_in')
      by now rewrite totalInvested_step by lia.
    split; [exact Hb | split; [exact Hi |]].
    rewrite calculateCompoundInterest_nth by lia.
    replace (Z.of_nat (Z.to_nat (y - 1)) + 1) with y by lia.
    unfold entry. now rewrite Hb, Hi.
  - intros num N p. now rewrite loop_after_before by lia.
  - intros num N. repeat split.
  - vm_compute. reflexivity.
  - vm_compute. reflexivity.
Qed.

Lemma growth_then_contribution_witness :
  currentValue (loop_after first_year_scenario 1) = 6179%float /\
  totalInvested (loop_after first_year_scenario 1) = 6169%float.
Proof.
  destruct (proj1 growth_then_contribution float Binary64.number_double
              first_year_scenario 1
              ltac:(cbn; lia)) as (Hb & Hi & _).
  split; [rewrite Hb | rewrite Hi]; reflexivity.
Defined.




(** *** Shape of the series *)

(** C3. With [years] a positive integer the series has exactly [years]
    entries, and the entry at index [i] is that of year [i + 1]. *)
Theorem series_length_and_years :
  forall (num : Type) (N : Number num) (p : CalculationParams num),
    1 <= years p ->
    Z.of_nat (List.length (calculateCompoundInterest p)) = years p /\
    (forall i : nat, (i < List.length (calculateCompoundInterest p))%nat ->
       exists e, nth_error (calculateCompoundInterest p) i = Some e /\
                 year e = Z.of_nat i + 1).
Proof.
  intros num N p Hy. rewrite calculateCompoundInterest_length. split; [lia |].
  intros i Hi. exists (entry p (Z.of_nat i + 1)).
  split; [now apply calculateCompoundInterest_nth | reflexivity].
Qed.

Lemma series_length_and_years_witness :
  Z.of_nat (List.length (calculateCompoundInterest weekly_scenario)) = 3.
Proof.
  exact (proj1 (series_length_and_years float Binary64.number_double weekly_scenario ltac:(cbn; lia))).
Defined.

(** C8. With [years < 1] the loop body never runs and the series is empty. *)
Theorem no_years_no_entries :
  forall (num : Type) (N : Number num) (p : CalculationParams num),
    years p < 1 -> calculateCompoundInterest p = [].
Proof.
  intros num N p Hy. unfold calculateCompoundInterest.
  now rewrite for_loop_exit by lia.
Qed.

Lemma no_years_no_entries_witness :
  calculateCompoundInterest
    {| startingAmount := 100%float; rateOfReturn := 10%float;
       incrementalAddition := 505.75%float; incrementalFrequency := "monthly";
       years := 0 |} = [].
Proof.
  apply no_years_no_entries. cbn. lia.
Defined.

(** *** The [gained] and [invested] fields *)

(** C4, as stated, fails: 64.00390625 doubled is shown as 128.01 against
    64.00 invested, yet [gained] is 64.00 and not 128.01 - 64.00. *)
Lemma gained_is_not_the_difference_of_the_fields :
  valid_params doubling_with_fraction /\
  calculateCompoundInterest doubling_with_fraction =
    [ {| year := 1; totalValue := 128.01%float; invested := 64%float;
         gained := 64%float |} ] /\
  (128.01 - 64)%float <> 64%float /\
  exists e, nth_error (calculateCompoundInterest doubling_with_fraction) 0 = Some e /\
            gained e <> (totalValue e - invested e)%float.
Proof.
  split; [| split; [| split]].
  - repeat split; try reflexivity; try (cbn; lia). right. right. reflexivity.
  - vm_compute. reflexivity.
  - differ.
  - eexists. split; [vm_compute; reflexivity |]. cbn [gained totalValue invested]. differ.
Qed.

(** C4, amended. Each field of an entry is the rounding of an unrounded loop
    variable: [totalValue] of the balance, [invested] of the invested total,
    and [gained] of the difference of the two unrounded values.  In exact
    arithmetic [gained] is therefore within 0.01 of [totalValue - invested]. *)
Theorem gained_rounds_the_unrounded_difference :
  (forall (num : Type) (N : Number num) (p : CalculationParams num)
          (i : nat) (e : CalculationResult num),
      nth_error (calculateCompoundInterest p) i = Some e ->
      let balance := currentValue (loop_after p (Z.of_nat i + 1)) in
      let paid_in := totalInvested (loop_after p (Z.of_nat i + 1)) in
      totalValue e = toFixed2 balance /\
      invested e = toFixed2 paid_in /\
      gained e = toFixed2 (balance - paid_in)%num) /\
  (forall (p : CalculationParams Q) (i : nat) (e : CalculationResult Q),
      nth_error (calculateCompoundInterest p) i = Some e ->
      (Qabs (gained e - (totalValue e - invested e)%num) <= 1 # 100)%Q).
Proof.
  split.
  - intros num N p i e He balance paid_in.
    apply calculateCompoundInterest_nth_inv in He as [_ ->].
    repeat split.
  - intros p i e He.
    apply calculateCompoundInterest_nth_inv in He as [_ ->].
    apply RationalOrder.rounded_difference_within_a_hundredth.
Qed.

Lemma gained_rounds_the_unrounded_difference_witness :
  toFixed2 (128.0078125 - 64.00390625)%float = 64%float.
Proof.
  destruct (proj1 gained_rounds_the_unrounded_difference float Binary64.number_double
              doubling_with_fraction 0%nat
              {| year := 1; totalValue := 128.01%float; invested := 64%float;
                 gained := 64%float |} ltac:(vm_compute; reflexivity))
    as (_ & _ & Hg).
  symmetry. exact Hg.
Defined.

(** C5, as stated, fails: with a yearly addition of -10 the invested total
    goes from 90 to 80. *)
Lemma invested_decreases_under_withdrawals :
  valid_params yearly_withdrawal /\
  exists e1 e2,
    nth_error (calculateCompoundInterest yearly_withdrawal) 0 = Some e1 /\
    nth_error (calculateCompoundInterest yearly_withdrawal) 1 = Some e2 /\
    invested e1 = 90%float /\ invested e2 = 80%float /\
    (invested e1 <=? invested e2)%num = false.
Proof.
  split.
  - repeat split; try reflexivity; try (cbn; lia). right. right. reflexivity.
  - do 2 eexists. repeat split; vm_compute; reflexivity.
Qed.

Section Invested.

Context {num : Type} `{NumberOrder num}.

Variable p : CalculationParams num.
Hypothesis starting_nonneg : (number_of_Z 0 <=? startingAmount p)%num = true.
Hypothesis addition_nonneg : (number_of_Z 0 <=? incrementalAddition p)%num = true.

Lemma yearly_addition_nonneg : (number_of_Z 0 <=? yearly_addition p)%num = true.
Proof. unfold yearly_addition. now apply multiplier_nonneg. Qed.

Lemma totalInvested_nonneg (n : nat) :
  (number_of_Z 0 <=? totalInvested (loop_after p (Z.of_nat n)))%num = true.
Proof.
  induction n as [|n IH].
  - now rewrite loop_after_before by lia.
  - rewrite totalInvested_step by lia.
    replace (Z.of_nat (Datatypes.S n) - 1) with (Z.of_nat n) by lia.
    eapply leb_trans; [exact IH |].
    apply add_nonneg_increases; [exact IH | exact yearly_addition_nonneg].
Qed.

Lemma invested_step (n : nat) :
  (invested (entry p (Z.of_nat n + 1)) <=? invested (entry p (Z.of_nat n + 1 + 1)))%num
  = true.
Proof.
  unfold entry. cbn [invested].
  rewrite (totalInvested_step p (Z.of_nat n + 1 + 1)) by lia.
  replace (Z.of_nat n + 1 + 1 - 1) with (Z.of_nat (Datatypes.S n)) by lia.
  replace (Z.of_nat n + 1) with (Z.of_nat (Datatypes.S n)) by lia.
  apply toFixed2_monotone; [apply totalInvested_nonneg |].
  apply add_nonneg_increases;
    [apply totalInvested_nonneg | exact yearly_addition_nonneg].
Qed.

End Invested.

(** C5, amended. With a non-negative [startingAmount] and a non-negative
    [incrementalAddition], and numbers that satisfy the order laws (doubles
    and exact rationals do), [invested] does not decrease from an entry to the
    next. *)
Theorem invested_non_decreasing :
  forall (num : Type) (N : Number num) (O : NumberOrder num)
         (p : CalculationParams num) (i : nat) (e e' : CalculationResult num),
    (number_of_Z 0 <=? startingAmount p)%num = true ->
    (number_of_Z 0 <=? incrementalAddition p)%num = true ->
    nth_error (calculateCompoundInterest p) i = Some e ->
    nth_error (calculateCompoundInterest p) (Datatypes.S i) = Some e' ->
    (invested e <=? invested e')%num = true.
Proof.
  intros num N O p i e e' Hs Ha He He'.
  apply calculateCompoundInterest_nth_inv in He as [_ ->].
  apply calculateCompoundInterest_nth_inv in He' as [_ ->].
  replace (Z.of_nat (Datatypes.S i) + 1) with (Z.of_nat i + 1 + 1) by lia.
  now apply invested_step.
Qed.

Lemma invested_non_decreasing_witness :
  (110 <=? 120)%float = true.
Proof.
  exact (invested_non_decreasing float Binary64.number_double
           Binary64Order.number_order_double yearly_saving 0
           {| year := 1; totalValue := 120%float; invested := 110%float;
              gained := 10%float |}
           {| year := 2; totalValue := 142%float; invested := 120%float;
              gained := 22%float |}
           eq_refl eq_refl eq_refl eq_refl).
Defined.

(** *** The unrecognised frequency *)

(** C10. A frequency that is neither "monthly" nor "quarterly" takes the last
    branch of the conditional: the multiplier is 1 and the series is the one
    of the same parameters with the frequency "yearly". *)
Theorem other_frequency_is_yearly :
  forall (num : Type) (N : Number num) (p : CalculationParams num),
    incrementalFrequency p <> "monthly"%string ->
    incrementalFrequency p <> "quarterly"%string ->
    frequencyMultiplier (incrementalFrequency p) = number_of_Z 1 /\
    calculateCompoundInterest p = calculateCompoundInterest (with_frequency p "yearly") /\
    List.length (calculateCompoundInterest p) = Z.to_nat (years p).
Proof.
  intros num N p Hm Hq.
  assert (Hmult : frequencyMultiplier (incrementalFrequency p) = number_of_Z 1).
  { unfold frequencyMultiplier.
    apply String.eqb_neq in Hm, Hq. now rewrite Hm, Hq. }
  split; [exact Hmult | split; [| apply calculateCompoundInterest_length]].
  unfold calculateCompoundInterest. cbn [years with_frequency].
  change (loop_init (with_frequency p "yearly")) with (loop_init p).
  f_equal.
  apply (for_loop_ext (years p) (loop_body p) (loop_body (with_frequency p "yearly")))
    with (n := Z.to_nat (years p + 1 - 1)); [| reflexivity].
  intros y st. unfold loop_body. cbn [with_frequency incrementalFrequency
    incrementalAddition rateOfReturn]. now rewrite Hmult.
Qed.

Lemma other_frequency_is_yearly_witness :
  calculateCompoundInterest weekly_scenario =
  calculateCompoundInterest (with_frequency weekly_scenario "yearly").
Proof.
  exact (proj1 (proj2 (other_frequency_is_yearly float Binary64.number_double
                         weekly_scenario ltac:(discriminate) ltac:(discriminate)))).
Defined.

(** *** The joint series *)

Section JointSeries.

Context {num : Type} `{Number num}.

Variable s : State num.

Lemma chartData_length :
  List.length (chartData s) =
  Nat.max (List.length (results1 s)) (List.length (results2 s)).
Proof. unfold chartData. rewrite Array_from_length. lia. Qed.

(** Entry [i] is that of year [i + 1]; a scenario's value is the
    [totalValue] at index [i] of its series when there is one and it is a
    truthy number, and absent otherwise. *)
Lemma chartData_nth (i : nat) :
  (i < Nat.max (List.length (results1 s)) (List.length (results2 s)))%nat ->
  nth_error (chartData s) i =
  Some {| chart_year := Z.of_nat i + 1;
          totalValue1 := or_null (option_map totalValue (nth_error (results1 s) i));
          totalValue2 := or_null (option_map totalValue (nth_error (results2 s) i)) |}.
Proof.
  intros Hi. unfold chartData. rewrite Array_from_nth by lia.
  unfold totalValue_at.
  destruct (Z.ltb_spec (Z.of_nat i) 0); [lia |].
  now rewrite Nat2Z.id.
Qed.

End JointSeries.

(** The joint series has as many entries as the longer series; entry [i] is
    that of year [i + 1], and for each scenario it holds the [totalValue] at
    index [i] of the series when the series has that index and the value is a
    truthy number, and nothing otherwise. *)
Theorem chartData_by_position :
  forall (num : Type) (N : Number num) (s : State num),
    List.length (chartData s) =
      Nat.max (List.length (results1 s)) (List.length (results2 s)) /\
    (forall i : nat,
       (i < Nat.max (List.length (results1 s)) (List.length (results2 s)))%nat ->
       exists c, nth_error (chartData s) i = Some c /\
                 chart_year c = Z.of_nat i + 1 /\
                 totalValue1 c =
                   match nth_error (results1 s) i with
                   | Some r => if toBoolean (totalValue r) then Some (totalValue r) else None
                   | None => None
                   end /\
                 totalValue2 c =
                   match nth_error (results2 s) i with
                   | Some r => if toBoolean (totalValue r) then Some (totalValue r) else None
                   | None => None
                   end).
Proof.
  intros num N s. split; [apply chartData_length |].
  intros i Hi. eexists. split; [now apply chartData_nth |].
  cbn [chart_year totalValue1 totalValue2]. repeat split.
  - now destruct (nth_error (results1 s) i).
  - now destruct (nth_error (results2 s) i).
Qed.

Lemma chartData_by_position_witness :
  exists c, nth_error (chartData (calculateResults (mounted first_year_scenario))) 0
            = Some c /\
            chart_year c = 1 /\ totalValue1 c = Some 6179%float /\ totalValue2 c = None.
Proof.
  exact (proj2 (chartData_by_position float Binary64.number_double
                  (calculateResults (mounted first_year_scenario)))
               0%nat ltac:(vm_compute; lia)).
Defined.

(** C6 holds of every series whose balances are truthy numbers, and fails on
    a balance of 0: with both number fields of the form left empty the
    series of scenario A has its entry for year 1, with [totalValue] 0, and
    the joint series marks year 1 of A absent. *)
Theorem chartData_marks_zero_balance_absent :
  let s := calculateResults (mounted empty_form) in
  results1 s =
    [ {| year := 1; totalValue := 0%float; invested := 0%float; gained := 0%float |} ] /\
  results2 s = [] /\
  chartData s = [ {| chart_year := 1; totalValue1 := None; totalValue2 := None |} ].
Proof. vm_compute. repeat split. Qed.

(** *** Removing the comparison *)

(** C7, as stated, fails: a point selected before the comparison is removed
    is still selected afterwards. *)
Lemma selectedPoint_survives_removal :
  let point :=
    {| year := 1; totalValue := 6179%float; invested := 6169%float;
       gained := 10%float |} in
  let s :=
    handlePointClick point
      (calculateResults (handleCompare (calculateResults (mounted first_year_scenario)))) in
  selectedPoint s = Some point /\
  selectedPoint (handleRemoveComparison s) = Some point /\
  selectedPoint (handleRemoveComparison s) <> None.
Proof. cbn. repeat split. discriminate. Qed.

(** C7, amended. Removing the comparison discards the parameters and the
    series of scenario B and leaves comparison mode, also once the effect has
    recomputed the results, and every entry of the joint series then has no
    value for B; the selected point is left as it was. *)
Theorem handleRemoveComparison_discards_B :
  forall (num : Type) (N : Number num) (s : State num),
    let s' := handleRemoveComparison s in
    params2 s' = None /\
    results2 s' = [] /\
    isComparing s' = false /\
    selectedPoint s' = selectedPoint s /\
    params2 (calculateResults s') = None /\
    results2 (calculateResults s') = [] /\
    selectedPoint (calculateResults s') = selectedPoint s /\
    (forall c, In c (chartData s') -> totalValue2 c = None) /\
    (forall c, In c (chartData (calculateResults s')) -> totalValue2 c = None).
Proof.
  intros num N s s'.
  assert (Hnone : forall t : State num,
            results2 t = [] -> forall c, In c (chartData t) -> totalValue2 c = None).
  { intros t Ht c Hc. apply In_nth_error in Hc as [i Hi].
    unfold chartData in Hi. apply Array_from_nth_inv in Hi as [_ ->].
    cbn [totalValue2]. rewrite Ht. unfold totalValue_at.
    destruct (Z.of_nat i <? 0); [reflexivity |].
    now destruct (Z.to_nat (Z.of_nat i)). }
  repeat split; try (apply Hnone; reflexivity).
Qed.

(** *** The ticks of the x axis *)

(** C9. The ticks are the multiples [i * 5] for [i] from 0 to
    [floor (maxYears / 5)], in increasing order, where [maxYears] is the
    larger of the years of A and those of B (0 without B); 30 years give
    0, 5, ..., 30 and 7 years give 0, 5. *)
Theorem getXAxisTicks_every_fifth_year :
  forall (num : Type) (s : State num),
    let maxYears :=
      Z.max (years (params1 s))
            (match params2 s with Some p2 => years p2 | None => 0 end) in
    (forall i : Z, 0 <= i <= maxYears / 5 ->
       nth_error (getXAxisTicks s) (Z.to_nat i) = Some (i * 5)) /\
    Z.of_nat (List.length (getXAxisTicks s)) = Z.max 0 (maxYears / 5 + 1) /\
    (forall x : Z, In x (getXAxisTicks s) <->
                   exists i : Z, 0 <= i <= maxYears / 5 /\ x = i * 5) /\
    (forall (i j : nat) (a b : Z),
       (i < j)%nat ->
       nth_error (getXAxisTicks s) i = Some a ->
       nth_error (getXAxisTicks s) j = Some b -> a < b) /\
    (maxYears = 30 -> getXAxisTicks s = [0; 5; 10; 15; 20; 25; 30]) /\
    (maxYears = 7 -> getXAxisTicks s = [0; 5]).
Proof.
  intros num s maxYears.
  assert (Hmax : getXAxisTicks s = Array_from (maxYears / 5 + 1) (fun i => i * 5)).
  { unfold getXAxisTicks, maxYears. destruct (params2 s) as [p2|]; cbn; [| reflexivity].
    destruct (Z.eqb_spec (years p2) 0) as [-> |]; reflexivity. }
  rewrite Hmax. clear Hmax.
  assert (Hnth : forall i : Z, 0 <= i <= maxYears / 5 ->
            nth_error (Array_from (maxYears / 5 + 1) (fun i => i * 5)) (Z.to_nat i)
            = Some (i * 5)).
  { intros i Hi. rewrite Array_from_nth by lia. now rewrite Z2Nat.id by lia. }
  split; [exact Hnth | split; [| split; [| split; [| split]]]].
  - rewrite Array_from_length. lia.
  - intros x. split.
    + intros Hx. apply In_nth_error in Hx as [k Hk].
      apply Array_from_nth_inv in Hk as [Hk ->].
      exists (Z.of_nat k). split; [lia | reflexivity].
    + intros (i & Hi & ->). eapply nth_error_In. now apply Hnth.
  - intros i j a b Hij Ha Hb.
    apply Array_from_nth_inv in Ha as [_ ->].
    apply Array_from_nth_inv in Hb as [_ ->]. lia.
  - intros ->. reflexivity.
  - intros ->. reflexivity.
Qed.

Lemma getXAxisTicks_every_fifth_year_witness :
  getXAxisTicks
    (mounted {| startingAmount := 100%float; rateOfReturn := 10%float;
                incrementalAddition := 505.75%float;
                incrementalFrequency := "monthly"; years := 30 |})
  = [0; 5; 10; 15; 20; 25; 30].
Proof.
  apply (getXAxisTicks_every_fifth_year float). reflexivity.
Defined.

(** ** Further properties of the simulation *)

(** *** The horizon *)

Lemma firstn_seq_le (n m start : nat) :
  (n <= m)%nat -> firstn n (seq start m) = seq start n.
Proof.
  revert m start. induction n as [|n IH]; intros m start Hnm; [reflexivity |].
  destruct m as [|m]; [lia |]. cbn [seq firstn]. f_equal. apply IH. lia.
Qed.

(** The series of a shorter horizon is the beginning of the series of a
    longer one: adding years changes no earlier entry. *)
Theorem shorter_horizon_is_a_prefix :
  forall (num : Type) (N : Number num) (p : CalculationParams num) (n m : Z),
    n <= m ->
    calculateCompoundInterest (with_years p n) =
    firstn (Z.to_nat n) (calculateCompoundInterest (with_years p m)).
Proof.
  intros num N p n m Hnm.
  rewrite !calculateCompoundInterest_entries. cbn [years with_years].
  rewrite firstn_map, firstn_seq_le by lia.
  reflexivity.
Qed.

Lemma shorter_horizon_is_a_prefix_witness :
  calculateCompoundInterest (with_years yearly_saving 1) =
  firstn 1 (calculateCompoundInterest (with_years yearly_saving 2)).
Proof.
  exact (shorter_horizon_is_a_prefix float Binary64.number_double yearly_saving 1 2
           ltac:(lia)).
Defined.

(** *** The closed form, in exact arithmetic *)

Section Exact.

Local Open Scope Q_scope.

Variable p : CalculationParams Q.

Let g : Q := 1 + rateOfReturn p / 100.
Let a : Q := incrementalAddition p * frequencyMultiplier (incrementalFrequency p).

Lemma exact_yearly_addition : yearly_addition p == a.
Proof. unfold yearly_addition, a. cbn [number_mul Rational.number_exact]. apply Qred_correct. Qed.

Lemma exact_growth (x : Q) :
  (x * (number_of_Z 1 + rateOfReturn p / number_of_Z 100))%num == x * g.
Proof.
  unfold g. cbn [number_mul number_add number_div number_of_Z Rational.number_exact].
  rewrite !Qred_correct. reflexivity.
Qed.

Lemma exact_totalInvested (n : nat) :
  totalInvested (loop_after p (Z.of_nat n)) == startingAmount p + inject_Z (Z.of_nat n) * a.
Proof.
  induction n as [|n IH].
  - rewrite loop_after_before by lia. cbn [loop_init totalInvested currentValue Z.of_nat]. change (inject_Z 0) with 0. ring.
  - rewrite totalInvested_step by lia.
    replace (Z.of_nat (S n) - 1)%Z with (Z.of_nat n) by lia.
    cbn [number_add Rational.number_exact]. rewrite Qred_correct, IH, exact_yearly_addition.
    rewrite Nat2Z.inj_succ. unfold Z.succ. rewrite inject_Z_plus. ring.
Qed.

Lemma exact_currentValue_step (n : nat) :
  currentValue (loop_after p (Z.of_nat (S n))) ==
  currentValue (loop_after p (Z.of_nat n)) * g + a.
Proof.
  rewrite currentValue_step by lia.
  replace (Z.of_nat (S n) - 1)%Z with (Z.of_nat n) by lia.
  cbn [number_add Rational.number_exact]. rewrite Qred_correct.
  now rewrite exact_growth, exact_yearly_addition.
Qed.

Lemma power_succ (n : nat) : g ^ Z.of_nat (S n) == g ^ Z.of_nat n * g.
Proof.
  rewrite Nat2Z.inj_succ. unfold Z.succ. rewrite Qpower_plus' by lia.
  now change (g ^ 1) with g.
Qed.

Lemma exact_currentValue (n : nat) :
  currentValue (loop_after p (Z.of_nat n)) * (g - 1) ==
  startingAmount p * g ^ Z.of_nat n * (g - 1) + a * (g ^ Z.of_nat n - 1).
Proof.
  induction n as [|n IH].
  - rewrite loop_after_before by lia. cbn [loop_init currentValue Z.of_nat].
    change (g ^ 0) with 1%Q. ring.
  - rewrite exact_currentValue_step, power_succ.
    transitivity (currentValue (loop_after p (Z.of_nat n)) * (g - 1) * g + a * (g - 1));
      [ring |].
    rewrite IH. ring.
Qed.

Lemma exact_currentValue_flat (n : nat) :
  rateOfReturn p == 0 ->
  currentValue (loop_after p (Z.of_nat n)) == startingAmount p + inject_Z (Z.of_nat n) * a.
Proof.
  intros Hr. assert (Hg : g == 1) by (unfold g; rewrite Hr; reflexivity).
  induction n as [|n IH].
  - rewrite loop_after_before by lia. cbn [loop_init totalInvested currentValue Z.of_nat]. change (inject_Z 0) with 0. ring.
  - rewrite exact_currentValue_step, IH, Hg.
    rewrite Nat2Z.inj_succ. unfold Z.succ. rewrite inject_Z_plus. ring.
Qed.

End Exact.

Lemma toFixed2_exact_comp (x y : Q) :
  x == y -> Rational.toFixed2_exact x = Rational.toFixed2_exact y.
Proof.
  intros Hxy. unfold Rational.toFixed2_exact.
  now rewrite (RationalOrder.nearest_hundredths_comp x y Hxy).
Qed.



(** *** Growth, in doubles *)

Import Rounding Nearest Binary64Order Binary64Arith Format.

Section Growth.

Variable p : CalculationParams float.
Hypothesis starting_nonneg : (number_of_Z 0 <=? startingAmount p)%num = true.
Hypothesis rate_nonneg : (number_of_Z 0 <=? rateOfReturn p)%num = true.
Hypothesis rate_finite : PrimFloat.ltb (rateOfReturn p) infinity = true.
Hypothesis addition_nonneg : (number_of_Z 0 <=? incrementalAddition p)%num = true.

Lemma invested_below_balance (n : nat) :
  (totalInvested (loop_after p (Z.of_nat n)) <=? currentValue (loop_after p (Z.of_nat n)))%num
  = true.
Proof.
  induction n as [|n IH].
  - rewrite loop_after_before by lia. apply double_leb_refl. exact starting_nonneg.
  - rewrite currentValue_step, totalInvested_step by lia.
    replace (Z.of_nat (Datatypes.S n) - 1) with (Z.of_nat n) by lia.
    pose proof (totalInvested_nonneg p starting_nonneg addition_nonneg n) as Hti.
    apply double_add_mono_l;
      [exact Hti | exact (yearly_addition_nonneg p addition_nonneg) |].
    apply (double_leb_trans _ _ _ IH).
    apply double_growth; [| exact rate_nonneg | exact rate_finite].
    exact (double_leb_trans _ _ _ Hti IH).
Qed.

Lemma currentValue_nonneg (n : nat) :
  (number_of_Z 0 <=? currentValue (loop_after p (Z.of_nat n)))%num = true.
Proof.
  exact (double_leb_trans _ _ _ (totalInvested_nonneg p starting_nonneg addition_nonneg n)
           (invested_below_balance n)).
Qed.

Lemma currentValue_grows (n : nat) :
  (currentValue (loop_after p (Z.of_nat n)) <=?
   currentValue (loop_after p (Z.of_nat (Datatypes.S n))))%num = true.
Proof.
  rewrite (currentValue_step p (Z.of_nat (Datatypes.S n))) by lia.
  replace (Z.of_nat (Datatypes.S n) - 1) with (Z.of_nat n) by lia.
  pose proof (currentValue_nonneg n) as Hcv.
  pose proof (double_growth _ _ Hcv rate_nonneg rate_finite) as Hg.
  apply (double_leb_trans _ _ _ Hg).
  apply double_add_nonneg_increases;
    [exact (double_leb_trans _ _ _ Hcv Hg) | exact (yearly_addition_nonneg p addition_nonneg)].
Qed.

End Growth.

(** With a non-negative starting amount, a non-negative finite rate and a
    non-negative addition, in doubles: [invested] is non-negative and at most
    [totalValue], [gained] is non-negative as long as [invested] is finite,
    and [totalValue] does not decrease from an entry to the next. *)
Theorem balance_keeps_ahead_of_invested :
  forall (p : CalculationParams float) (i : nat) (e : CalculationResult float),
    (0 <=? startingAmount p)%float = true ->
    (0 <=? rateOfReturn p)%float = true ->
    (rateOfReturn p <? infinity)%float = true ->
    (0 <=? incrementalAddition p)%float = true ->
    nth_error (calculateCompoundInterest p) i = Some e ->
    (0 <=? invested e)%float = true /\
    (invested e <=? totalValue e)%float = true /\
    ((invested e <? infinity)%float = true -> (0 <=? gained e)%float = true) /\
    (forall e', nth_error (calculateCompoundInterest p) (Datatypes.S i) = Some e' ->
                (totalValue e <=? totalValue e')%float = true).
Proof.
  intros p i e Hs Hr Hrf Ha He.
  apply calculateCompoundInterest_nth_inv in He as [_ ->].
  replace (Z.of_nat i + 1) with (Z.of_nat (Datatypes.S i)) by lia.
  pose proof (invested_below_balance p Hs Hr Hrf Ha (Datatypes.S i)) as Hib.
  pose proof (totalInvested_nonneg p Hs Ha (Datatypes.S i)) as Hti.
  pose proof (currentValue_nonneg p Hs Hr Hrf Ha (Datatypes.S i)) as Hcv.
  unfold entry. cbn [invested totalValue gained toFixed2 Binary64.number_double].
  split; [| split; [| split]].
  - change (PrimFloat.leb (Binary64.toFixed2_double (Binary64.of_Z 0))
              (Binary64.toFixed2_double
                 (totalInvested (loop_after p (Z.of_nat (Datatypes.S i))))) = true).
    apply double_toFixed2_monotone; [reflexivity | exact Hti].
  - now apply double_toFixed2_monotone.
  - intros Hfin.
    assert (Htf : PrimFloat.ltb (totalInvested (loop_after p (Z.of_nat (Datatypes.S i)))) infinity
                  = true).
    { apply nonneg_double in Hti.
      destruct (nonneg_cases _ (Prim2SF_valid _) Hti) as [Hf | Hinf].
      - rewrite ltb_spec.
        destruct (Prim2SF (totalInvested (loop_after p (Z.of_nat (Datatypes.S i)))))
          as [s|[|]| |[|] m x]; try solve [destruct Hf as [_ []]]; reflexivity.
      - rewrite (toFixed2_infinity _ Hinf) in Hfin. rewrite ltb_spec, Hinf in Hfin.
        discriminate Hfin. }
    change (PrimFloat.leb (Binary64.toFixed2_double (Binary64.of_Z 0))
              (Binary64.toFixed2_double
                 (currentValue (loop_after p (Z.of_nat (Datatypes.S i)))
                  - totalInvested (loop_after p (Z.of_nat (Datatypes.S i))))%float) = true).
    apply double_toFixed2_monotone; [reflexivity |].
    now apply double_sub_nonneg.
  - intros e' He'.
    apply calculateCompoundInterest_nth_inv in He' as [_ ->].
    replace (Z.of_nat (Datatypes.S i) + 1) with (Z.of_nat (Datatypes.S (Datatypes.S i))) by lia.
    cbn [totalValue toFixed2 Binary64.number_double].
    apply double_toFixed2_monotone; [exact Hcv |].
    now apply currentValue_grows.
Qed.

Lemma balance_keeps_ahead_of_invested_witness :
  (0 <=? 110)%float = true /\ (110 <=? 120)%float = true /\ (120 <=? 142)%float = true.
Proof.
  destruct (balance_keeps_ahead_of_invested yearly_saving 0
              {| year := 1; totalValue := 120%float; invested := 110%float;
                 gained := 10%float |}
              eq_refl eq_refl eq_refl eq_refl eq_refl) as (H0 & H1 & _ & H2).
  split; [exact H0 | split; [exact H1 |]].
  exact (H2 {| year := 2; totalValue := 142%float; invested := 120%float;
               gained := 22%float |} eq_refl).
Defined.

Section Flat.

Variable p : CalculationParams float.
Hypothesis no_return : PrimFloat.eqb (rateOfReturn p) zero = true.

Lemma balance_is_invested (n : nat) :
  currentValue (loop_after p (Z.of_nat n)) = totalInvested (loop_after p (Z.of_nat n)).
Proof.
  induction n as [|n IH].
  - now rewrite loop_after_before by lia.
  - rewrite currentValue_step, totalInvested_step by lia.
    replace (Z.of_nat (Datatypes.S n) - 1) with (Z.of_nat n) by lia.
    cbn [number_add number_mul number_div number_of_Z Binary64.number_double].
    now rewrite (growth_factor_zero _ no_return), double_mul_one, IH.
Qed.

End Flat.



(** *** Two scenarios side by side, in doubles *)

Section Dominance.

Variables p p' : CalculationParams float.
Hypothesis starting_nonneg : (number_of_Z 0 <=? startingAmount p)%num = true.
Hypothesis starting_le : (startingAmount p <=? startingAmount p')%num = true.
Hypothesis rate_nonneg : (number_of_Z 0 <=? rateOfReturn p)%num = true.
Hypothesis rate_le : (rateOfReturn p <=? rateOfReturn p')%num = true.
Hypothesis rate_finite : PrimFloat.ltb (rateOfReturn p') infinity = true.
Hypothesis addition_nonneg : (number_of_Z 0 <=? incrementalAddition p)%num = true.
Hypothesis addition_le : (incrementalAddition p <=? incrementalAddition p')%num = true.
Hypothesis frequency_le :
  PrimFloat.leb (frequencyMultiplier (incrementalFrequency p))
                (frequencyMultiplier (incrementalFrequency p')) = true.

Lemma rate_finite_too : PrimFloat.ltb (rateOfReturn p) infinity = true.
Proof.
  pose proof (double_leb_trans _ _ _ rate_nonneg rate_le) as Hr'.
  pose proof (finite_double _ Hr' rate_finite) as Hf'.
  apply nonneg_double in rate_nonneg as Hn.
  cbn [number_leb Binary64.number_double] in rate_le. rewrite leb_spec in rate_le.
  pose proof (SFleb_finite _ _ (Prim2SF_valid _) Hn Hf' rate_le) as Hf.
  rewrite ltb_spec.
  destruct (Prim2SF (rateOfReturn p)) as [s|s| |[|] m e];
    try solve [destruct Hf as [_ []]]; reflexivity.
Qed.

Lemma yearly_addition_le : (yearly_addition p <=? yearly_addition p')%num = true.
Proof.
  unfold yearly_addition.
  destruct (frequencyMultiplier_bounds (incrementalFrequency p)) as [H1 _].
  destruct (frequencyMultiplier_bounds (incrementalFrequency p')) as [_ Hf'].
  apply double_mul_mono;
    [exact addition_nonneg | exact addition_le | exact H1 | exact frequency_le | exact Hf'].
Qed.

Lemma richer_loop_stays_ahead (n : nat) :
  (currentValue (loop_after p (Z.of_nat n)) <=? currentValue (loop_after p' (Z.of_nat n)))%num
  = true /\
  (totalInvested (loop_after p (Z.of_nat n)) <=? totalInvested (loop_after p' (Z.of_nat n)))%num
  = true.
Proof.
  pose proof rate_finite_too as Hrf.
  induction n as [|n [IHc IHi]].
  - rewrite !loop_after_before by lia. now split.
  - rewrite (currentValue_step p (Z.of_nat (Datatypes.S n))),
      (currentValue_step p' (Z.of_nat (Datatypes.S n))),
      (totalInvested_step p (Z.of_nat (Datatypes.S n))),
      (totalInvested_step p' (Z.of_nat (Datatypes.S n))) by lia.
    replace (Z.of_nat (Datatypes.S n) - 1) with (Z.of_nat n) by lia.
    pose proof (currentValue_nonneg p starting_nonneg rate_nonneg Hrf addition_nonneg n) as Hcv.
    pose proof (totalInvested_nonneg p starting_nonneg addition_nonneg n) as Hti.
    pose proof (yearly_addition_nonneg p addition_nonneg) as Ha.
    destruct (growth_factor_bounds _ rate_nonneg Hrf) as [H1 _].
    pose proof (double_leb_trans _ _ _ rate_nonneg rate_le) as Hr'.
    destruct (growth_factor_bounds _ Hr' rate_finite) as [_ Hf'].
    split.
    + apply double_add_mono; [| exact Ha | | exact yearly_addition_le].
      * apply (double_leb_trans _ _ _ Hcv). now apply double_growth.
      * apply double_mul_mono; try assumption. now apply growth_factor_mono.
    + apply double_add_mono; [exact Hti | exact Ha | exact IHi | exact yearly_addition_le].
Qed.

End Dominance.

(** Of two scenarios with non-negative amounts and finite non-negative
    rates, the one with the larger starting amount, rate, addition and
    frequency multiplier (each at least as large) shows, year by year, a
    [totalValue] and an [invested] at least as large: rounding never puts
    the richer scenario behind. *)
Theorem a_richer_scenario_stays_ahead :
  forall (p p' : CalculationParams float) (i : nat) (e e' : CalculationResult float),
    (0 <=? startingAmount p)%float = true ->
    (startingAmount p <=? startingAmount p')%float = true ->
    (0 <=? rateOfReturn p)%float = true ->
    (rateOfReturn p <=? rateOfReturn p')%float = true ->
    (rateOfReturn p' <? infinity)%float = true ->
    (0 <=? incrementalAddition p)%float = true ->
    (incrementalAddition p <=? incrementalAddition p')%float = true ->
    (frequencyMultiplier (incrementalFrequency p) <=?
     frequencyMultiplier (incrementalFrequency p'))%float = true ->
    nth_error (calculateCompoundInterest p) i = Some e ->
    nth_error (calculateCompoundInterest p') i = Some e' ->
    (totalValue e <=? totalValue e')%float = true /\
    (invested e <=? invested e')%float = true.
Proof.
  intros p p' i e e' Hs Hss Hr Hrr Hrf Ha Haa Hfreq He He'.
  apply calculateCompoundInterest_nth_inv in He as [_ ->].
  apply calculateCompoundInterest_nth_inv in He' as [_ ->].
  replace (Z.of_nat i + 1) with (Z.of_nat (Datatypes.S i)) by lia.
  destruct (richer_loop_stays_ahead p p' Hs Hss Hr Hrr Hrf Ha Haa Hfreq (Datatypes.S i))
    as [Hc Hi].
  pose proof (rate_finite_too p p' Hr Hrr Hrf) as Hrf0.
  unfold entry. cbn [totalValue invested toFixed2 Binary64.number_double].
  split; apply double_toFixed2_monotone; try assumption.
  - exact (currentValue_nonneg p Hs Hr Hrf0 Ha (Datatypes.S i)).
  - exact (totalInvested_nonneg p Hs Ha (Datatypes.S i)).
Qed.

Lemma a_richer_scenario_stays_ahead_witness :
  (120 <=? 244)%float = true /\ (110 <=? 220)%float = true.
Proof.
  exact (a_richer_scenario_stays_ahead yearly_saving richer_saving 0
           {| year := 1; totalValue := 120%float; invested := 110%float;
              gained := 10%float |}
           {| year := 1; totalValue := 244%float; invested := 220%float;
              gained := 24%float |}
           eq_refl eq_refl eq_refl eq_refl eq_refl eq_refl eq_refl eq_refl eq_refl eq_refl).
Defined.

(** *** Which years the chart shows *)

Section ChartEntries.

Context {num : Type} `{Number num}.

Lemma chartData_In (s : State num) (c : ChartEntry num) :
  In c (chartData s) <->
  exists i : nat,
    (i < Nat.max (List.length (results1 s)) (List.length (results2 s)))%nat /\
    c = {| chart_year := Z.of_nat i + 1;
           totalValue1 := or_null (option_map totalValue (nth_error (results1 s) i));
           totalValue2 := or_null (option_map totalValue (nth_error (results2 s) i)) |}.
Proof.
  split.
  - intros Hc. apply In_nth_error in Hc as [i Hi]. exists i.
    assert (Hlt : (i < Nat.max (List.length (results1 s)) (List.length (results2 s)))%nat).
    { rewrite <- chartData_length. apply nth_error_Some. now rewrite Hi. }
    split; [exact Hlt |]. rewrite chartData_nth in Hi by exact Hlt. congruence.
  - intros (i & Hlt & ->). eapply nth_error_In. now apply chartData_nth.
Qed.

End ChartEntries.

Section Funded.

Variable p : CalculationParams float.
Hypothesis starting_nonneg : (number_of_Z 0 <=? startingAmount p)%num = true.
Hypothesis rate_nonneg : (number_of_Z 0 <=? rateOfReturn p)%num = true.
Hypothesis rate_finite : PrimFloat.ltb (rateOfReturn p) infinity = true.
Hypothesis addition_nonneg : (number_of_Z 0 <=? incrementalAddition p)%num = true.

Lemma currentValue_above_start (n : nat) :
  (startingAmount p <=? currentValue (loop_after p (Z.of_nat n)))%num = true.
Proof.
  induction n as [|n IH].
  - rewrite loop_after_before by lia. now apply double_leb_refl.
  - apply (double_leb_trans _ _ _ IH). now apply currentValue_grows.
Qed.

End Funded.

(** With a starting amount of at least half a cent, a non-negative finite
    rate and a non-negative addition, every entry of the series shows a
    balance of at least 0.01, and the joint series has that balance at the
    entry's year: the line of the scenario has no gap. *)
Theorem a_funded_scenario_is_charted_every_year :
  forall (p : CalculationParams float) (s : State float) (i : nat)
         (e : CalculationResult float),
    (0.005 <=? startingAmount p)%float = true ->
    (0 <=? rateOfReturn p)%float = true ->
    (rateOfReturn p <? infinity)%float = true ->
    (0 <=? incrementalAddition p)%float = true ->
    results1 s = calculateCompoundInterest p ->
    nth_error (calculateCompoundInterest p) i = Some e ->
    (0.01 <=? totalValue e)%float = true /\
    exists c, nth_error (chartData s) i = Some c /\
              chart_year c = year e /\
              totalValue1 c = Some (totalValue e).
Proof.
  intros p s i e Hs Hr Hrf Ha Hres He.
  assert (Hs0 : (0 <=? startingAmount p)%float = true).
  { apply (double_leb_trans _ 0.005); [reflexivity | exact Hs]. }
  assert (Hi : (i < List.length (calculateCompoundInterest p))%nat).
  { apply nth_error_Some. now rewrite He. }
  pose proof He as He'.
  apply calculateCompoundInterest_nth_inv in He' as [_ ->].
  replace (Z.of_nat i + 1) with (Z.of_nat (Datatypes.S i)) by lia.
  assert (Hcent : (0.01 <=? totalValue (entry p (Z.of_nat (Datatypes.S i))))%float = true).
  { unfold entry. cbn [totalValue toFixed2 Binary64.number_double].
    change 0.01%float with (Binary64.toFixed2_double 0.005).
    apply double_toFixed2_monotone; [reflexivity |].
    apply (double_leb_trans _ _ _ Hs).
    now apply currentValue_above_start. }
  split; [exact Hcent |].
  eexists. split.
  - apply chartData_nth. rewrite Hres. lia.
  - cbn [chart_year totalValue1]. rewrite Hres, He.
    replace (Z.of_nat i + 1) with (Z.of_nat (Datatypes.S i)) by lia.
    split; [reflexivity |]. cbn [option_map or_null].
    change (toBoolean (totalValue (entry p (Z.of_nat (Datatypes.S i)))))
      with (Binary64.toBoolean_double (totalValue (entry p (Z.of_nat (Datatypes.S i))))).
    now rewrite (toBoolean_of_cent 0.01 _ eq_refl Hcent).
Qed.

Lemma a_funded_scenario_is_charted_every_year_witness :
  (0.01 <=? 142)%float = true /\
  exists c, nth_error (chartData (calculateResults (mounted yearly_saving))) 1 = Some c /\
            chart_year c = 2 /\ totalValue1 c = Some 142%float.
Proof.
  exact (a_funded_scenario_is_charted_every_year yearly_saving
           (calculateResults (mounted yearly_saving)) 1
           {| year := 2; totalValue := 142%float; invested := 120%float;
              gained := 22%float |}
           eq_refl eq_refl eq_refl eq_refl eq_refl eq_refl).
Defined.

Section Zero.

Variable p : CalculationParams float.
Hypothesis starting_zero : PrimFloat.eqb (startingAmount p) zero = true.
Hypothesis addition_zero : PrimFloat.eqb (incrementalAddition p) zero = true.
Hypothesis rate_finite : is_finite (rateOfReturn p) = true.

Lemma loop_stays_at_zero (n : nat) :
  is_a_zero (Prim2SF (currentValue (loop_after p (Z.of_nat n)))) /\
  is_a_zero (Prim2SF (totalInvested (loop_after p (Z.of_nat n)))).
Proof.
  assert (Ha : is_a_zero (Prim2SF (yearly_addition p))).
  { unfold yearly_addition. cbn [number_mul Binary64.number_double]. rewrite mul_spec.
    apply SFmul_zero; [now apply is_a_zero_spec | apply frequencyMultiplier_finite]. }
  induction n as [|n [IHc IHi]].
  - rewrite loop_after_before by lia. cbn [loop_init currentValue totalInvested].
    split; now apply is_a_zero_spec.
  - rewrite currentValue_step, totalInvested_step by lia.
    replace (Z.of_nat (Datatypes.S n) - 1) with (Z.of_nat n) by lia.
    cbn [number_add number_mul number_div number_of_Z Binary64.number_double].
    rewrite !add_spec, mul_spec, add_spec, div_spec, Prim2SF_one, Prim2SF_hundred.
    split; apply SFadd_zero; try assumption.
    apply SFmul_zero; [assumption |].
    apply growth_factor_finite; [apply Prim2SF_valid | now apply is_finite_spec].
Qed.

End Zero.

(** With a starting amount of 0 and an addition of 0 (of either sign) and a
    finite rate, every entry is 0 / 0 / 0, and the joint series marks every
    year of the scenario absent: the scenario draws no line. *)
Theorem an_all_zero_scenario_draws_no_line :
  forall p : CalculationParams float,
    (startingAmount p =? 0)%float = true ->
    (incrementalAddition p =? 0)%float = true ->
    is_finite (rateOfReturn p) = true ->
    (forall (i : nat) (e : CalculationResult float),
       nth_error (calculateCompoundInterest p) i = Some e ->
       totalValue e = 0%float /\ invested e = 0%float /\ gained e = 0%float) /\
    (forall (s : State float) (c : ChartEntry float),
       results1 s = calculateCompoundInterest p ->
       In c (chartData s) -> totalValue1 c = None).
Proof.
  intros p Hs Ha Hr.
  assert (Hall : forall (i : nat) (e : CalculationResult float),
            nth_error (calculateCompoundInterest p) i = Some e ->
            totalValue e = 0%float /\ invested e = 0%float /\ gained e = 0%float).
  { intros i e He. apply calculateCompoundInterest_nth_inv in He as [_ ->].
    replace (Z.of_nat i + 1) with (Z.of_nat (Datatypes.S i)) by lia.
    destruct (loop_stays_at_zero p Hs Ha Hr (Datatypes.S i)) as [Hc Hi].
    unfold entry. cbn [totalValue invested gained toFixed2 number_sub Binary64.number_double].
    repeat split; apply toFixed2_zero; try assumption.
    rewrite sub_spec. now apply SFsub_zero. }
  split; [exact Hall |].
  intros s c Hres Hc. apply chartData_In in Hc as (i & _ & ->). cbn [totalValue1].
  rewrite Hres. destruct (nth_error (calculateCompoundInterest p) i) as [e|] eqn:He;
    [| reflexivity].
  cbn [option_map or_null]. destruct (Hall i e He) as (-> & _). reflexivity.
Qed.

Lemma an_all_zero_scenario_draws_no_line_witness :
  (0%float = 0%float /\ 0%float = 0%float /\ 0%float = 0%float) /\
  totalValue1 {| chart_year := 1; totalValue1 := @None float; totalValue2 := None |} = None.
Proof.
  split.
  - exact (proj1 (an_all_zero_scenario_draws_no_line empty_form eq_refl eq_refl eq_refl)
             0%nat
             {| year := 1; totalValue := 0%float; invested := 0%float; gained := 0%float |}
             eq_refl).
  - exact (proj2 (an_all_zero_scenario_draws_no_line empty_form eq_refl eq_refl eq_refl)
             (calculateResults (mounted empty_form))
             {| chart_year := 1; totalValue1 := None; totalValue2 := None |}
             eq_refl (or_introl eq_refl)).
Defined.

(** ** Further properties of the component *)

Section Settled.

Context {num : Type} `{Number num}.
Variable parseFloat : string -> num.
Variable years_of_number : num -> Z.

Lemma settled_mounted (p : CalculationParams num) : settled (calculateResults (mounted p)).
Proof. repeat split. Qed.

Lemma settled_step (s : State num) (ev : Event num) : settled s -> settled (step parseFloat years_of_number s ev).
Proof.
  intros (H1 & H2 & H3). unfold step.
  destruct ev as [v k n| f | f | | | payload]; cbn [dependency_changes handler].
  - unfold handleInputChange. destruct (n =? 1).
    + unfold settled. cbn. rewrite H3. destruct (params2 s); repeat split; assumption.
    + destruct (params2 s) as [p2|] eqn:E2; cbn [is_set].
      * unfold settled. cbn. rewrite H3. repeat split.
      * unfold settled. rewrite E2. repeat split; assumption.
  - unfold settled. cbn. rewrite H3. destruct (params2 s); repeat split; assumption.
  - destruct (params2 s) as [p2|] eqn:E2; cbn [is_set].
    + unfold settled. cbn. rewrite H3, E2. repeat split.
    + unfold settled, onValueChange2. cbn. rewrite E2. repeat split; assumption.
  - unfold settled. cbn. repeat split.
  - destruct (isComparing s || is_set (params2 s)); unfold settled; cbn; repeat split.
    now rewrite H1.
  - unfold settled. cbn. repeat split; assumption.
Qed.

Lemma settled_fold (evs : list (Event num)) :
  forall s, settled s -> settled (fold_left (step parseFloat years_of_number) evs s).
Proof.
  induction evs as [|ev evs IH]; intros s Hs; [exact Hs |].
  cbn [fold_left]. apply IH. now apply settled_step.
Qed.

Lemma settled_run (p : CalculationParams num) (evs : list (Event num)) : settled (run parseFloat years_of_number p evs).
Proof. apply settled_fold, settled_mounted. Qed.

Lemma settled_fixpoint (s : State num) : settled s -> calculateResults s = s.
Proof.
  intros (H1 & H2 & H3). destruct s as [p1 p2 r1 r2 sp cmp]. cbn in *.
  unfold calculateResults. cbn. rewrite <- H1. f_equal.
  subst cmp. destruct p2; cbn; congruence.
Qed.

End Settled.

Section Coordinator.

Context {num : Type} `{Number num}.
Variable parseFloat : string -> num.
Variable years_of_number : num -> Z.

Lemma selectedPoint_step (s : State num) (ev : Event num) :
  selectedPoint (step parseFloat years_of_number s ev) =
  match ev with
  | PointClick payload => Some payload
  | _ => selectedPoint s
  end.
Proof.
  unfold step.
  destruct ev as [v k n| f | f | | | payload]; cbn [dependency_changes handler handler].
  - unfold handleInputChange. destruct (n =? 1); [reflexivity |].
    destruct (params2 s); reflexivity.
  - reflexivity.
  - destruct (is_set (params2 s)); reflexivity.
  - reflexivity.
  - destruct (isComparing s || is_set (params2 s)); reflexivity.
  - reflexivity.
Qed.

Lemma selectedPoint_fold (evs : list (Event num)) :
  forall s, selectedPoint s <> None -> selectedPoint (fold_left (step parseFloat years_of_number) evs s) <> None.
Proof.
  induction evs as [|ev evs IH]; intros s Hs; [exact Hs |].
  cbn [fold_left]. apply IH. rewrite selectedPoint_step.
  destruct ev; try exact Hs. discriminate.
Qed.

Lemma run_app (p : CalculationParams num) (evs evs' : list (Event num)) :
  run parseFloat years_of_number p (evs ++ evs') = fold_left (step parseFloat years_of_number) evs' (run parseFloat years_of_number p evs).
Proof. unfold run. apply fold_left_app. Qed.

End Coordinator.

Lemma getXAxisTicks_multiples {num : Type} (s : State num) (t : Z) :
  In t (getXAxisTicks s) <->
  exists i : Z,
    0 <= i <= Z.max (years (params1 s))
                    (match params2 s with Some p2 => years p2 | None => 0 end) / 5 /\
    t = i * 5.
Proof.
  assert (Hmax : or_zero (option_map years (params2 s)) =
                 match params2 s with Some p2 => years p2 | None => 0 end).
  { destruct (params2 s) as [p2|]; cbn; [| reflexivity].
    destruct (Z.eqb_spec (years p2) 0) as [-> |]; reflexivity. }
  unfold getXAxisTicks. rewrite Hmax. split.
  - intros Ht. apply In_nth_error in Ht as [k Hk].
    apply Array_from_nth_inv in Hk as [Hk ->].
    exists (Z.of_nat k). split; [lia | reflexivity].
  - intros (i & Hi & ->). apply (nth_error_In _ (Z.to_nat i)).
    rewrite Array_from_nth by lia. now rewrite Z2Nat.id by lia.
Qed.

(** After mounting and any sequence of events, what is displayed is
    current: [results1] is the series of [params1], [results2] is the series
    of [params2], empty without it, comparison mode is on exactly when there
    is a [params2], and running the effect once more changes nothing. *)
Theorem displayed_results_are_current :
  forall (num : Type) (N : Number num) (parseFloat : string -> num)
         (years_of_number : num -> Z) (p : CalculationParams num) (evs : list (Event num)),
    let s := run parseFloat years_of_number p evs in
    results1 s = calculateCompoundInterest (params1 s) /\
    results2 s =
      match params2 s with
      | Some p2 => calculateCompoundInterest p2
      | None => []
      end /\
    (isComparing s = true <-> params2 s <> None) /\
    calculateResults s = s.
Proof.
  intros num N parseFloat years_of_number p evs s.
  pose proof (settled_run parseFloat years_of_number p evs) as Hs. fold s in Hs.
  pose proof (settled_fixpoint s Hs) as Hfix.
  destruct Hs as (H1 & H2 & H3).
  repeat split; try assumption.
  - intros Hc. rewrite H3 in Hc. destruct (params2 s); [discriminate | discriminate Hc].
  - intros Hp. rewrite H3. destruct (params2 s); [reflexivity | contradiction].
Qed.

(** The selected point changes on a click on a point of the chart and on
    nothing else; once a point is selected, no sequence of events leaves the
    component without a selected point. *)
Theorem selectedPoint_is_never_cleared :
  forall (num : Type) (N : Number num) (parseFloat : string -> num)
         (years_of_number : num -> Z),
    (forall (s : State num) (ev : Event num),
       selectedPoint (step parseFloat years_of_number s ev) =
       match ev with
       | PointClick payload => Some payload
       | _ => selectedPoint s
       end) /\
    (forall (p : CalculationParams num) (evs evs' : list (Event num)),
       selectedPoint (run parseFloat years_of_number p evs) <> None ->
       selectedPoint (run parseFloat years_of_number p (evs ++ evs')) <> None).
Proof.
  intros num N parseFloat years_of_number. split.
  - apply selectedPoint_step.
  - intros p evs evs' Hs. rewrite run_app. now apply selectedPoint_fold.
Qed.

Lemma selectedPoint_is_never_cleared_witness :
  selectedPoint
    (run (fun _ => nan) (fun _ => 0) first_year_scenario
         ([PointClick {| year := 1; totalValue := 6179%float; invested := 6169%float;
                          gained := 10%float |}]
          ++ [Compare; InputChange EmptyString key_incrementalAddition 2; RemoveComparison]))
  <> None.
Proof.
  apply (proj2 (selectedPoint_is_never_cleared float Binary64.number_double
                  (fun _ => nan) (fun _ => 0))).
  cbn. discriminate.
Defined.

(** "Compare" starts scenario B as a copy of A: after it B has the
    parameters and the series of A, and both lines of the chart coincide;
    from then on an edit of A leaves B as it is, and an edit of B leaves A
    as it is. *)
Theorem handleCompare_copies_A :
  forall (num : Type) (N : Number num) (parseFloat : string -> num)
         (years_of_number : num -> Z) (p : CalculationParams num) (evs : list (Event num)),
    let next := step parseFloat years_of_number in
    let s := run parseFloat years_of_number p evs in
    let s' := next s Compare in
    params1 s' = params1 s /\
    params2 s' = Some (params1 s) /\
    isComparing s' = true /\
    results2 s' = results1 s' /\
    (forall c, In c (chartData s') -> totalValue2 c = totalValue1 c) /\
    (forall target_value paramKey,
       let s'' := next s' (InputChange target_value paramKey 1) in
       params2 s'' = params2 s' /\ results2 s'' = results2 s') /\
    (forall target_value paramKey,
       let s'' := next s' (InputChange target_value paramKey 2) in
       params1 s'' = params1 s' /\ results1 s'' = results1 s').
Proof.
  intros num N parseFloat years_of_number p evs next s s'.
  pose proof (settled_run parseFloat years_of_number p evs) as (H1 & H2 & H3). fold s in H1, H2, H3.
  assert (Hr : results2 s' = results1 s') by reflexivity.
  repeat split; try reflexivity.
  - intros c Hc. apply chartData_In in Hc as (i & _ & ->). cbn [totalValue1 totalValue2].
    now rewrite Hr.
Qed.

(** Without a comparison, "Compare" followed by "Remove Comparison" gives
    the component back as it was. *)
Theorem compare_then_remove_restores :
  forall (num : Type) (N : Number num) (parseFloat : string -> num)
         (years_of_number : num -> Z) (p : CalculationParams num) (evs : list (Event num)),
    let next := step parseFloat years_of_number in
    let s := run parseFloat years_of_number p evs in
    isComparing s = false ->
    next (next s Compare) RemoveComparison = s.
Proof.
  intros num N parseFloat years_of_number p evs next s Hc.
  pose proof (settled_run parseFloat years_of_number p evs) as (H1 & H2 & H3). fold s in H1, H2, H3.
  rewrite Hc in H3. destruct (params2 s) as [p2|] eqn:E2; [discriminate H3 |].
  destruct s as [p1 q2 r1 r2 sp cmp]. cbn in *. subst.
  reflexivity.
Qed.

Lemma compare_then_remove_restores_witness :
  let next := step (fun _ => nan) (fun _ => 0) in
  let s := run (fun _ => nan) (fun _ => 0) first_year_scenario
               [InputChange EmptyString key_incrementalAddition 1] in
  next (next s Compare) RemoveComparison = s.
Proof.
  exact (compare_then_remove_restores float Binary64.number_double
           (fun _ => nan) (fun _ => 0) first_year_scenario
           [InputChange EmptyString key_incrementalAddition 1] eq_refl).
Defined.

(** Without a comparison there is no scenario B to edit: an input change
    addressed to calculator 2, or a change of its frequency, leaves the
    component as it is. *)
Theorem edits_of_B_need_a_comparison :
  forall (num : Type) (N : Number num) (parseFloat : string -> num)
         (years_of_number : num -> Z) (p : CalculationParams num) (evs : list (Event num)),
    let next := step parseFloat years_of_number in
    let s := run parseFloat years_of_number p evs in
    isComparing s = false ->
    (forall target_value paramKey calculatorNum,
       calculatorNum <> 1 ->
       next s (InputChange target_value paramKey calculatorNum) = s) /\
    (forall value, next s (FrequencyChange2 value) = s).
Proof.
  intros num N parseFloat years_of_number p evs next s Hc.
  pose proof (settled_run parseFloat years_of_number p evs) as (H1 & H2 & H3). fold s in H1, H2, H3.
  rewrite Hc in H3. destruct (params2 s) as [p2|] eqn:E2; [discriminate H3 |].
  split.
  - intros v k n Hn. unfold next, step. cbn [dependency_changes handler].
    apply Z.eqb_neq in Hn. rewrite Hn, E2. cbn [is_set].
    unfold handleInputChange. now rewrite Hn, E2.
  - intros f. unfold next, step. cbn [dependency_changes handler]. rewrite E2. cbn [is_set].
    unfold onValueChange2. rewrite E2. destruct s; cbn in *. congruence.
Qed.

Lemma edits_of_B_need_a_comparison_witness :
  let s := run (fun _ => nan) (fun _ => 0) first_year_scenario [] in
  step (fun _ => nan) (fun _ => 0) s (InputChange EmptyString key_startingAmount 2) = s.
Proof.
  exact (proj1 (edits_of_B_need_a_comparison float Binary64.number_double
                  (fun _ => nan) (fun _ => 0) first_year_scenario [] eq_refl)
               EmptyString key_startingAmount 2 ltac:(lia)).
Defined.

Lemma final_totalValue_series {num : Type} `{Number num} (p : CalculationParams num) :
  final_totalValue (calculateCompoundInterest p) =
  if 1 <=? years p
  then Some (toFixed2 (currentValue (loop_after p (years p))))
  else None.
Proof.
  unfold final_totalValue, totalValue_at. rewrite calculateCompoundInterest_length.
  destruct (Z.leb_spec 1 (years p)) as [Hy | Hy].
  - destruct (Z.ltb_spec (Z.of_nat (Z.to_nat (years p)) - 1) 0); [lia |].
    rewrite calculateCompoundInterest_nth by lia. cbn [option_map]. unfold entry. cbn [totalValue].
    now replace (Z.of_nat (Z.to_nat (Z.of_nat (Z.to_nat (years p)) - 1)) + 1) with (years p) by lia.
  - destruct (Z.ltb_spec (Z.of_nat (Z.to_nat (years p)) - 1) 0); [reflexivity | lia].
Qed.


(** An emptied rate field is a rate of 0: after it the series of scenario
    A shows, in doubles, a balance equal to the invested total in every
    year. *)
Theorem an_emptied_rate_field_means_no_gain :
  forall (parseFloat : string -> float) (years_of_number : float -> Z)
         (p : CalculationParams float) (evs : list (Event float)),
    let s := step parseFloat years_of_number (run parseFloat years_of_number p evs)
                  (InputChange EmptyString key_rateOfReturn 1) in
    rateOfReturn (params1 s) = 0%float /\
    forall e, In e (results1 s) -> totalValue e = invested e.
Proof.
  intros parseFloat years_of_number p evs s. split; [reflexivity |].
  intros e He. apply In_nth_error in He as [i Hi].
  change (results1 s) with (calculateCompoundInterest (params1 s)) in Hi.
  apply calculateCompoundInterest_nth_inv in Hi as [_ ->].
  replace (Z.of_nat i + 1) with (Z.of_nat (Datatypes.S i)) by lia.
  unfold entry. cbn [totalValue invested].
  now rewrite (balance_is_invested (params1 s) eq_refl).
Qed.


(** ** The labels of the y axis, at the unit boundaries *)

(** The unit of a label is chosen before the number is rounded: from 999500
    up to a million the label is "$1000K", not "$1.0M", and from 999950000 up
    to a billion it is "$1000.0M", not "$1.0B". *)
Theorem formatYAxisTick_rolls_over_late :
  forall (toString : float -> string) (value : float),
    ((999500 <=? value)%float = true -> (value <? 1e6)%float = true ->
     formatYAxisTick toString value = "$1000K"%string) /\
    ((999950000 <=? value)%float = true -> (value <? 1e9)%float = true ->
     formatYAxisTick toString value = "$1000.0M"%string).
Proof.
  intros toString value. split; intros Hlo Hhi.
  - assert (H9 : (1e9 <=? value)%float = false).
    { rewrite ltb_spec in Hhi. rewrite leb_spec.
      destruct (SFleb (Prim2SF 1e9) (Prim2SF value)) eqn:E; [| reflexivity].
      apply SFltb_leb in Hhi as [Hhi _].
      pose proof (SFleb_trans _ _ _ E Hhi) as Hbad. discriminate Hbad. }
    assert (H6 : (1e6 <=? value)%float = false).
    { rewrite ltb_spec in Hhi. rewrite leb_spec.
      now apply SFltb_leb in Hhi as [_ Hhi]. }
    assert (H3 : (1e3 <=? value)%float = true).
    { apply (double_leb_trans _ 999500); [reflexivity | exact Hlo]. }
    unfold formatYAxisTick. rewrite H9, H6, H3.
    destruct (double_div_between 999500 1e6 1e3 value 8796093022208000 (-43)
                eq_refl ltac:(lia) eq_refl eq_refl eq_refl Hlo Hhi) as (Hf & Hl & Hu).
    rewrite (toFixed_of_weight toString 0 _ 1000 Hf ltac:(lia)).
    + reflexivity.
    + change (Prim2SF (999500 / 1e3)) with (S754_finite false 8791694975696896 (-43)) in Hl.
      change (Prim2SF (1e6 / 1e3)) with (S754_finite false 8796093022208000 (-43)) in Hu.
      cbn [weight] in Hl, Hu. 
      change (10 ^ Z.of_nat 0) with 1.
      assert (E1 : 8791694975696896 * grid (-43) * 2 = 1999 * 2 ^ 1200) by reflexivity.
      assert (E2 : 8796093022208000 * grid (-43) = 1000 * 2 ^ 1200) by reflexivity.
      assert (0 < 2 ^ 1200) by (apply Z.pow_pos_nonneg; lia). lia.
    + change (Prim2SF (1e6 / 1e3)) with (S754_finite false 8796093022208000 (-43)) in Hu.
      cbn [weight] in Hu.
      assert (E2 : 8796093022208000 * grid (-43) = 1000 * 2 ^ 1200) by reflexivity.
      assert (0 < 2 ^ 1200) by (apply Z.pow_pos_nonneg; lia). lia.
  - assert (H9 : (1e9 <=? value)%float = false).
    { rewrite ltb_spec in Hhi. rewrite leb_spec.
      now apply SFltb_leb in Hhi as [_ Hhi]. }
    assert (H6 : (1e6 <=? value)%float = true).
    { apply (double_leb_trans _ 999950000); [reflexivity | exact Hlo]. }
    unfold formatYAxisTick. rewrite H9, H6.
    destruct (double_div_between 999950000 1e9 1e6 value 8589934592000000 (-33)
                eq_refl ltac:(lia) eq_refl eq_refl eq_refl Hlo Hhi) as (Hf & Hl & Hu).
    rewrite (toFixed_of_weight toString 1 _ 10000 Hf ltac:(lia)).
    + reflexivity.
    + change (Prim2SF (999950000 / 1e6)) with (S754_finite false 8795653217556890 (-43)) in Hl.
      change (Prim2SF (1e9 / 1e6)) with (S754_finite false 8796093022208000 (-43)) in Hu.
      cbn [weight] in Hl, Hu.
      change (10 ^ Z.of_nat 1) with 10.
      assert (E1 : 19999 * 2 ^ 1200 <= 2 * 10 * (8795653217556890 * grid (-43)))
        by (vm_compute; discriminate).
      assert (E2 : 8796093022208000 * grid (-43) = 1000 * 2 ^ 1200) by reflexivity.
      assert (0 < 2 ^ 1200) by (apply Z.pow_pos_nonneg; lia). lia.
    + change (Prim2SF (1e9 / 1e6)) with (S754_finite false 8796093022208000 (-43)) in Hu.
      cbn [weight] in Hu.
      assert (E2 : 8796093022208000 * grid (-43) = 1000 * 2 ^ 1200) by reflexivity.
      assert (0 < 2 ^ 1200) by (apply Z.pow_pos_nonneg; lia). lia.
Qed.

Lemma formatYAxisTick_rolls_over_late_witness :
  formatYAxisTick (fun _ => EmptyString) 999999 = "$1000K"%string.
Proof.
  exact (proj1 (formatYAxisTick_rolls_over_late (fun _ => EmptyString) 999999)
               eq_refl eq_refl).
Defined.
